(** * laptop-tools: the Dropbox catalog, dedupe and batch-delete scripts

    A shallow embedding of the Python scripts under [scripts/]:
    - [catalog-dropbox.py]: the resumable crawl ([get_folder_stats]), its
      checkpoint file and the inventory analysis ([analyze_files]);
    - [smart-dedupe.py]: the deletion plan and the plan file it writes;
    - [batch-delete.py], [batch-delete-fast.py]: the plan file reader and
      the two deleters;
    - the credential files the scripts read and write, [main] of
      [catalog-dropbox.py] up to the analysis, and the figures of its
      [Duplicates] recommendation.

    Python values are modelled as follows.  A [str] is the list of its code
    points; an [int] is a [Z] (or a [nat] for a [len]); [None] is [None];
    a [dict] read by key is a [gmap]; a [dict] iterated in insertion order
    is an association list.  An exception that escapes a function is an
    explicit error result.  Remote calls (the Dropbox client) are
    parameters of the functions that make them. *)

From Stdlib Require Import ZArith NArith List String Ascii Lia.
From stdpp Require Import base decidable option list sorting gmap.

Local Open Scope N_scope.

(** ** Python strings *)

Module Py.

(** A [str]: the sequence of its Unicode code points. *)
Definition pystr : Type := list N.

(** An ASCII literal. *)
Definition py (s : string) : pystr :=
  List.map N_of_ascii (list_ascii_of_string s).

(** [s.startswith(prefix)] *)
Fixpoint startswith (s prefix : pystr) {struct prefix} : bool :=
  match prefix, s with
  | [], _ => true
  | _ :: _, [] => false
  | c :: prefix', d :: s' => (c =? d) && startswith s' prefix'
  end.

(** [needle in s] *)
Fixpoint contains (needle s : pystr) : bool :=
  startswith s needle ||
  match s with
  | [] => false
  | _ :: s' => contains needle s'
  end.

(** [a <= b] on [str]: code point by code point, a proper prefix first. *)
Fixpoint str_leb (a b : pystr) : bool :=
  match a, b with
  | [], _ => true
  | _ :: _, [] => false
  | c :: a', d :: b' =>
      if c <? d then true else if d <? c then false else str_leb a' b'
  end.

Definition str_le : relation pystr := λ a b, Is_true (str_leb a b).

#[global] Instance str_le_dec (a b : pystr) : Decision (str_le a b).
Proof. unfold str_le. apply _. Defined.

(** [sorted(l)] on a list of [str].  The order is total and antisymmetric,
    so the sorted list is determined by the elements ([sorted_unique]),
    whatever the algorithm. *)
Definition sorted (l : list pystr) : list pystr := merge_sort str_le l.

(** [str.isspace] of one code point, the test [str.strip()] applies:
    the characters of bidirectional type WS, B or S and of category Zs. *)
Definition isspace (c : N) : bool :=
  ((0x09 <=? c) && (c <=? 0x0D)) || ((0x1C <=? c) && (c <=? 0x20)) ||
  (c =? 0x85) || (c =? 0xA0) || (c =? 0x1680) ||
  ((0x2000 <=? c) && (c <=? 0x200A)) || (c =? 0x2028) || (c =? 0x2029) ||
  (c =? 0x202F) || (c =? 0x205F) || (c =? 0x3000).

Fixpoint lstrip (s : pystr) : pystr :=
  match s with
  | [] => []
  | c :: s' => if isspace c then lstrip s' else s
  end.

Definition rstrip (s : pystr) : pystr := rev (lstrip (rev s)).

(** [s.strip()] *)
Definition strip (s : pystr) : pystr := rstrip (lstrip s).

(** [s.replace(old, new)] for a one-character [old]. *)
Definition replace_char (old : N) (new s : pystr) : pystr :=
  s ≫= (λ c, if c =? old then new else [c]).

(** [s.split(sep)] for a one-character [sep]: the pieces between the
    separators, always at least one. *)
Fixpoint split_from (sep : N) (piece s : pystr) : list pystr :=
  match s with
  | [] => [piece]
  | c :: s' =>
      if c =? sep then piece :: split_from sep [] s'
      else split_from sep (piece ++ [c]) s'
  end.

Definition split (sep : N) (s : pystr) : list pystr := split_from sep [] s.

(** [s.lower()] is the runtime's Unicode case mapping: a parameter. *)
Class StrLower := lower : pystr → pystr.

(** The mapping on ASCII text. *)
Definition ascii_lower : StrLower :=
  List.map (λ c, if (0x41 <=? c) && (c <=? 0x5A) then c + 0x20 else c).

End Py.

Export Py.

(** ** Text files

    A file opened in text mode: what is written is encoded, what is read
    is decoded and has its line ends translated.  The encoding is UTF-8
    and the platform's line separator is ["\n"]. *)

Module TextFile.

(** The bytes of a file, each below 256. *)
Definition bytes : Type := list N.

Definition is_surrogate (c : N) : bool := (0xD800 <=? c) && (c <? 0xE000).

(** The encoding of one code point; a surrogate or a number past
    U+10FFFF raises [UnicodeEncodeError]. *)
Definition utf8_encode_char (c : N) : option bytes :=
  if c <? 0x80 then Some [c]
  else if c <? 0x800 then Some [0xC0 + c / 64; 0x80 + c mod 64]
  else if c <? 0x10000 then
    if is_surrogate c then None
    else Some [0xE0 + c / 4096; 0x80 + (c / 64) mod 64; 0x80 + c mod 64]
  else if c <? 0x110000 then
    Some [0xF0 + c / 262144; 0x80 + (c / 4096) mod 64;
          0x80 + (c / 64) mod 64; 0x80 + c mod 64]
  else None.

Fixpoint utf8_encode (s : pystr) : option bytes :=
  match s with
  | [] => Some []
  | c :: s' =>
      match utf8_encode_char c, utf8_encode s' with
      | Some b, Some bs => Some (b ++ bs)
      | _, _ => None
      end
  end.

Definition is_continuation (b : N) : bool := (0x80 <=? b) && (b <? 0xC0).

(** The strict decoder: overlong forms, surrogates, truncated sequences
    and stray continuation bytes raise [UnicodeDecodeError]. *)
Fixpoint utf8_decode (bs : bytes) : option pystr :=
  match bs with
  | [] => Some []
  | b0 :: bs1 =>
      if b0 <? 0x80 then cons b0 <$> utf8_decode bs1
      else if b0 <? 0xC2 then None
      else if b0 <? 0xE0 then
        match bs1 with
        | b1 :: bs2 =>
            if is_continuation b1
            then cons ((b0 - 0xC0) * 64 + (b1 - 0x80)) <$> utf8_decode bs2
            else None
        | _ => None
        end
      else if b0 <? 0xF0 then
        match bs1 with
        | b1 :: b2 :: bs3 =>
            let c := (b0 - 0xE0) * 4096 + (b1 - 0x80) * 64 + (b2 - 0x80) in
            if is_continuation b1 && is_continuation b2 &&
               (0x800 <=? c) && negb (is_surrogate c)
            then cons c <$> utf8_decode bs3
            else None
        | _ => None
        end
      else if b0 <? 0xF5 then
        match bs1 with
        | b1 :: b2 :: b3 :: bs4 =>
            let c := (b0 - 0xF0) * 262144 + (b1 - 0x80) * 4096 +
                     (b2 - 0x80) * 64 + (b3 - 0x80) in
            if is_continuation b1 && is_continuation b2 &&
               is_continuation b3 && (0x10000 <=? c) && (c <? 0x110000)
            then cons c <$> utf8_decode bs4
            else None
        | _ => None
        end
      else None
  end.

(** Reading translates ["\r\n"] and a lone ["\r"] to ["\n"]. *)
Fixpoint universal_newlines (t : pystr) : pystr :=
  match t with
  | [] => []
  | c :: t' =>
      if c =? 13 then
        match t' with
        | d :: t'' =>
            if d =? 10 then 10 :: universal_newlines t''
            else 10 :: universal_newlines t'
        | [] => [10]
        end
      else c :: universal_newlines t'
  end.

(** [for line in f]: the lines, each with its final ["\n"], and a last
    line without one when the text does not end in ["\n"]. *)
Fixpoint lines_from (line t : pystr) : list pystr :=
  match t with
  | [] => match line with [] => [] | _ :: _ => [line] end
  | c :: t' =>
      if c =? 10 then (line ++ [c]) :: lines_from [] t'
      else lines_from (line ++ [c]) t'
  end.

(** The lines seen by iterating over a file opened with [open(name, 'r')]. *)
Definition read_lines (content : bytes) : option (list pystr) :=
  text ← utf8_decode content;
  Some (lines_from [] (universal_newlines text)).

End TextFile.


(** ** smart-dedupe.py *)

Module SmartDedupe.

(** [any(p.startswith(tf) for tf in target_folders)] *)
Definition any_startswith (target_folders : list pystr) (p : pystr) : bool :=
  existsb (startswith p) target_folders.

(** A keep preference returns the path to keep, or raises ([None]);
    [sorted(paths)[0]] raises [IndexError] on the empty list. *)
Definition first_sorted (paths : list pystr) : option pystr :=
  head (sorted paths).

Definition keep_path_of (keep_preference : option (list pystr → option pystr))
    (paths : list pystr) : option pystr :=
  match keep_preference with
  | Some prefer => prefer paths
  | None => first_sorted paths
  end.

(** The body of [for hash_val, paths in duplicates.items()], with
    [to_delete] the accumulator. *)
Fixpoint smart_dedupe_items (items : list (pystr * list pystr))
    (target_folders : list pystr)
    (keep_preference : option (list pystr → option pystr))
    (to_delete : list pystr) : option (list pystr) :=
  match items with
  | [] => Some to_delete
  | (hash_val, paths) :: items' =>
      if (length paths <? 2)%nat then
        smart_dedupe_items items' target_folders keep_preference to_delete
      else
        let relevant_paths :=
          filter (λ p, Is_true (any_startswith target_folders p)) paths in
        match relevant_paths with
        | [] =>
            smart_dedupe_items items' target_folders keep_preference to_delete
        | _ :: _ =>
            match keep_path_of keep_preference paths with
            | None => None
            | Some keep_path =>
                smart_dedupe_items items' target_folders keep_preference
                  (to_delete ++
                   filter (λ path, path ≠ keep_path ∧
                                   Is_true (any_startswith target_folders path))
                          paths)
            end
        end
  end.

(** [smart_dedupe], from the [duplicates] dict of the catalog (its items
    in iteration order). *)
Definition smart_dedupe (duplicates : list (pystr * list pystr))
    (target_folders : list pystr)
    (keep_preference : option (list pystr → option pystr))
    : option (list pystr) :=
  smart_dedupe_items duplicates target_folders keep_preference [].

Definition camera_uploads_preference (paths : list pystr) : option pystr :=
  let non_camera :=
    filter (λ p, ¬ Is_true (startswith p (py "/Camera Uploads/"))) paths in
  match non_camera with
  | _ :: _ => first_sorted non_camera
  | [] => first_sorted paths
  end.

Definition recipes_preference (paths : list pystr) : option pystr :=
  let recipe_paths :=
    filter (λ p, Is_true (startswith p (py "/personal/recipes/"))) paths in
  match recipe_paths with
  | [] => first_sorted paths
  | _ :: _ =>
      let gallery_paths :=
        filter (λ p, Is_true (contains (py "/gallery/") p)) recipe_paths in
      match gallery_paths with
      | _ :: _ => first_sorted gallery_paths
      | [] => first_sorted recipe_paths
      end
  end.

Definition dashcord_preference (paths : list pystr) : option pystr :=
  let dashcord_paths :=
    filter (λ p, Is_true (startswith p (py "/dashcord/"))) paths in
  match dashcord_paths with
  | [] => first_sorted paths
  | _ :: _ => first_sorted dashcord_paths
  end.

(** What [__main__] writes to the plan file: one [f.write(path + '\n')]
    for each path of [sorted(to_delete)].  [None]: a write raised
    [UnicodeEncodeError]. *)
Fixpoint write_all (texts : list pystr) : option TextFile.bytes :=
  match texts with
  | [] => Some []
  | text :: texts' =>
      b ← TextFile.utf8_encode text;
      bs ← write_all texts';
      Some (b ++ bs)
  end.

Definition write_plan (to_delete : list pystr) : option TextFile.bytes :=
  write_all ((λ path, path ++ [10]) <$> sorted to_delete).

End SmartDedupe.

(** ** The Dropbox client, as the deleters see it *)

Module Dropbox.

(** What a call raises.  [ApiError e] and [OtherException e] carry
    [str(e)]; [KeyboardInterrupt] is a [BaseException] and not an
    [Exception]. *)
Inductive raised : Type :=
| ApiError (str_e : pystr)
| OtherException (str_e : pystr)
| KeyboardInterrupt.

Inductive reply (A : Type) : Type :=
| Returns (a : A)
| Raises (e : raised).
Arguments Returns {A} a.
Arguments Raises {A} e.

(** [files_delete_v2(path)], on a remote in state [W]. *)
Class DeleteClient (W : Type) :=
  files_delete_v2 : pystr → W → reply unit * W.

(** One entry of a [DeleteBatchResult]: [is_success()], [is_failure()]
    with [str(get_failure())], or neither. *)
Inductive DeleteBatchResultEntry : Type :=
| EntrySuccess
| EntryFailure (str_error : pystr)
| EntryOther.

(** A [DeleteBatchLaunch]: [is_complete()], [is_async_job_id()] or
    neither. *)
Inductive DeleteBatchLaunch : Type :=
| LaunchComplete (entries : list DeleteBatchResultEntry)
| LaunchAsyncJobId (async_job_id : pystr)
| LaunchOther.

(** A [DeleteBatchJobStatus]: [is_complete()], [is_failed()] with
    [str(get_failed())], or still in progress. *)
Inductive DeleteBatchJobStatus : Type :=
| JobComplete (entries : list DeleteBatchResultEntry)
| JobFailed (str_failed : pystr)
| JobInProgress.

(** [files_delete_batch(entries)] returns [Some launch] when the result is
    a [DeleteBatchLaunch]; [files_delete_batch_check(async_job_id)]. *)
Class BatchClient (W : Type) := {
  files_delete_batch : list pystr → W → reply (option DeleteBatchLaunch) * W;
  files_delete_batch_check : pystr → W → reply DeleteBatchJobStatus * W
}.

(** [range(0, total, step)] for [step > 0]. *)
Definition range_step (total step : nat) : list nat :=
  (λ k, k * step)%nat <$> seq 0 ((total + step - 1) / step).

(** The slices [paths[i:i+batch_size]] for [i] in
    [range(0, len(paths), batch_size)]. *)
Definition chunks (batch_size : nat) (paths : list pystr) : list (list pystr) :=
  (λ i, take batch_size (drop i paths)) <$> range_step (length paths) batch_size.

End Dropbox.

Export Dropbox.

(** ** batch-delete.py

    The deleter that sends one request for each path.  Its pauses
    ([time.sleep(0.05)] after each path) and what it prints are left
    out. *)

Module BatchDelete.

(** What a run of the script's function ends in. *)
Inductive outcome (A : Type) : Type :=
| Done (a : A)
| Raised (e : raised).
Arguments Done {A} a.
Arguments Raised {A} e.

Section Client.
Context {W : Type} `{!DeleteClient W}.

(** [for path in batch], with the counters [deleted] and [failed]. *)
Fixpoint delete_paths (batch : list pystr) (deleted failed : nat) (w : W)
    : outcome (nat * nat) * W :=
  match batch with
  | [] => (Done (deleted, failed), w)
  | path :: batch' =>
      match files_delete_v2 path w with
      | (Returns _, w') => delete_paths batch' (S deleted) failed w'
      | (Raises (ApiError str_e), w') =>
          if contains (py "not_found") str_e
          then delete_paths batch' (S deleted) failed w'
          else delete_paths batch' deleted (S failed) w'
      | (Raises e, w') => (Raised e, w')
      end
  end.

(** [for i in range(0, total, batch_size)] *)
Fixpoint delete_batches (batches : list (list pystr)) (deleted failed : nat)
    (w : W) : outcome (nat * nat) * W :=
  match batches with
  | [] => (Done (deleted, failed), w)
  | batch :: batches' =>
      match delete_paths batch deleted failed w with
      | (Done (deleted', failed'), w') =>
          delete_batches batches' deleted' failed' w'
      | r => r
      end
  end.

(** [batch_delete(dbx, paths, batch_size)]; it returns
    [(deleted, failed)].  [range] raises [ValueError] on a zero step and
    is empty on a negative one. *)
Definition batch_delete (paths : list pystr) (batch_size : Z) (w : W)
    : outcome (nat * nat) * W :=
  if (batch_size =? 0)%Z then
    (Raised (OtherException (py "range() arg 3 must not be zero")), w)
  else if (batch_size <? 0)%Z then (Done (0, 0)%nat, w)
  else delete_batches (chunks (Z.to_nat batch_size) paths) 0 0 w.

End Client.

(** [paths = [line.strip() for line in f if line.strip()]] *)
Definition read_paths (content : TextFile.bytes) : option (list pystr) :=
  match TextFile.read_lines content with
  | Some lines => Some (strip <$> filter (λ line, strip line ≠ []) lines)
  | None => None
  end.

End BatchDelete.

(** ** batch-delete-fast.py

    The deleter that sends one request for each batch.  Its state keeps,
    with the two counters, the calls it has made and its pauses, in
    order. *)

Module BatchDeleteFast.

(** The calls the deleter makes, in order: submissions, polls, and
    [time.sleep(seconds)]. *)
Inductive event : Type :=
| Submitted (batch : list pystr)
| Polled (async_job_id : pystr)
| Slept (seconds : N).

Record state (W : Type) : Type := State {
  deleted : nat;
  failed : nat;
  events : list event;
  world : W
}.
Arguments State {W}.
Arguments deleted {W}.
Arguments failed {W}.
Arguments events {W}.
Arguments world {W}.

(** How a piece of the script ends: normally, by an exception, or not at
    all ([while True] that never breaks, that is, out of fuel). *)
Inductive outcome (W : Type) : Type :=
| Done (st : state W)
| Raised (e : raised) (st : state W)
| Diverges.
Arguments Done {W} st.
Arguments Raised {W} e st.
Arguments Diverges {W}.

Definition log {W} (ev : event) (st : state W) : state W :=
  State (deleted st) (failed st) (events st ++ [ev]) (world st).

Definition set_world {W} (w : W) (st : state W) : state W :=
  State (deleted st) (failed st) (events st) w.

Definition add_deleted {W} (n : nat) (st : state W) : state W :=
  State (deleted st + n) (failed st) (events st) (world st).

Definition add_failed {W} (n : nat) (st : state W) : state W :=
  State (deleted st) (failed st + n) (events st) (world st).

Section Client.
Context {W : Type} `{!BatchClient W} `{!StrLower}.

(** [process_batch_result(batch_result, paths)]: the loop over
    [enumerate(batch_result.entries)].  [None] is the [IndexError] of
    [paths[idx]]. *)
Fixpoint process_entries (idx : nat) (entries : list DeleteBatchResultEntry)
    (paths : list pystr) (deleted : nat) : option nat :=
  match entries with
  | [] => Some deleted
  | EntrySuccess :: entries' =>
      process_entries (S idx) entries' paths (S deleted)
  | EntryFailure error :: entries' =>
      if contains (py "not_found") (lower error) then
        match paths !! idx with
        | Some _ => process_entries (S idx) entries' paths (S deleted)
        | None => None
        end
      else
        match paths !! idx with
        | Some _ => process_entries (S idx) entries' paths deleted
        | None => None
        end
  | EntryOther :: entries' => process_entries (S idx) entries' paths deleted
  end.

Definition process_batch_result (entries : list DeleteBatchResultEntry)
    (paths : list pystr) : option nat :=
  process_entries 0 entries paths 0.

Definition index_error : raised :=
  OtherException (py "list index out of range").

Definition count_result (entries : list DeleteBatchResultEntry)
    (batch : list pystr) (st : state W) : outcome W :=
  match process_batch_result entries batch with
  | Some n => Done (add_deleted n st)
  | None => Raised index_error st
  end.

(** The polling loop [while True: time.sleep(1); check = ...]. *)
Fixpoint poll (fuel : nat) (async_job_id : pystr) (batch : list pystr)
    (st : state W) : outcome W :=
  match fuel with
  | O => Diverges
  | S fuel' =>
      let st := log (Polled async_job_id) (log (Slept 1) st) in
      match files_delete_batch_check async_job_id (world st) with
      | (Raises e, w) => Raised e (set_world w st)
      | (Returns check, w) =>
          let st := set_world w st in
          match check with
          | JobComplete entries => count_result entries batch st
          | JobFailed _ => Done (add_failed (length batch) st)
          | JobInProgress => poll fuel' async_job_id batch st
          end
      end
  end.

(** The body of [try:] for one batch. *)
Definition try_batch (fuel : nat) (batch_num num_batches : Z)
    (batch : list pystr) (st : state W) : outcome W :=
  let st := log (Submitted batch) st in
  match files_delete_batch batch (world st) with
  | (Raises e, w) => Raised e (set_world w st)
  | (Returns result, w) =>
      let st := set_world w st in
      let handled :=
        match result with
        | Some (LaunchComplete entries) => count_result entries batch st
        | Some (LaunchAsyncJobId async_job_id) =>
            poll fuel async_job_id batch st
        | Some LaunchOther | None => Done st
        end in
      match handled with
      | Done st =>
          if (batch_num <? num_batches)%Z then Done (log (Slept 2) st)
          else Done st
      | r => r
      end
  end.

(** One turn of the [for] loop: the [try] and its [except ApiError]. *)
Definition one_batch (fuel : nat) (batch_num num_batches : Z)
    (batch : list pystr) (st : state W) : outcome W :=
  match try_batch fuel batch_num num_batches batch st with
  | Raised (ApiError _) st =>
      Done (log (Slept 5) (add_failed (length batch) st))
  | r => r
  end.

(** [for i in range(0, total, batch_size)], on the remaining start
    indices. *)
Fixpoint batches_from (fuel : nat) (paths : list pystr) (batch_size : nat)
    (num_batches : Z) (starts : list nat) (st : state W) : outcome W :=
  match starts with
  | [] => Done st
  | i :: starts' =>
      let batch := take batch_size (drop i paths) in
      let batch_num := (Z.of_nat i / Z.of_nat batch_size + 1)%Z in
      match one_batch fuel batch_num num_batches batch st with
      | Done st' => batches_from fuel paths batch_size num_batches starts' st'
      | r => r
      end
  end.

Definition zero_division : raised :=
  OtherException (py "integer division or modulo by zero").

(** [batch_delete_fast(dbx, paths, batch_size)]; its return value is
    [(deleted st, failed st)] of the final state. *)
Definition batch_delete_fast (fuel : nat) (paths : list pystr)
    (batch_size : Z) (w : W) : outcome W :=
  let st := State 0 0 [] w in
  let total := Z.of_nat (length paths) in
  if (batch_size =? 0)%Z then Raised zero_division st
  else
    let num_batches := ((total + batch_size - 1) / batch_size)%Z in
    if (batch_size <? 0)%Z then Done st
    else
      batches_from fuel paths (Z.to_nat batch_size) num_batches
        (range_step (length paths) (Z.to_nat batch_size)) st.

End Client.

End BatchDeleteFast.

(** ** catalog-dropbox.py

    The crawl, its checkpoint file and the analysis.  The exceptions of
    the crawl are those the listing calls raise; writing, reading and
    removing the checkpoint file do not fail.  The report files and what
    is printed are left out. *)

Module Catalog.

(** *** The data *)

(** The dict built for one file. *)
Record FileInfo : Type := {
  path : pystr;
  name : pystr;
  size : Z;
  modified : option pystr;
  hash : option pystr;
  extension : pystr
}.

(** The dict built for one folder. *)
Record FolderInfo : Type := {
  folder_path : pystr;
  folder_name : pystr
}.

(** An entry of a listing page.  [client_modified] is the timestamp by
    its [isoformat()] text. *)
Inductive Metadata : Type :=
| FileMetadata (path_display name : pystr) (size : Z)
    (client_modified content_hash : option pystr)
| FolderMetadata (path_display name : pystr)
| DeletedMetadata (path_display name : pystr).

Record ListFolderResult : Type := {
  entries : list Metadata;
  cursor : pystr;
  has_more : bool
}.

(** The dict [save_checkpoint] dumps. *)
Record Checkpoint : Type := {
  cp_cursor : pystr;
  cp_timestamp : pystr;
  cp_files_count : nat;
  cp_folders_count : nat;
  cp_files : list FileInfo;
  cp_folders : list FolderInfo
}.

Definition CHECKPOINT_INTERVAL : Z := 10000.

(** *** The environment *)

(** [json.dump] and [json.load] on a checkpoint.  A dumped document loads
    back; a document cut short does not load ([json.load] raises): the
    text of an object ends with its closing brace. *)
Class Json : Type := {
  json_dump : Checkpoint → pystr;
  json_load : pystr → option Checkpoint;
  json_load_dump : ∀ cp, json_load (json_dump cp) = Some cp;
  json_load_cut : ∀ cp text,
    text `prefix_of` json_dump cp → text ≠ json_dump cp →
    json_load text = None
}.

(** The listing calls of the client, [files_list_folder(path,
    recursive=True)] and [files_list_folder_continue(cursor)], which move
    the remote from one state to the next, and the clock read by
    [datetime.now().isoformat()]. *)
Class ListClient (W : Type) : Type := {
  files_list_folder : pystr → W → reply ListFolderResult * W;
  files_list_folder_continue : pystr → W → reply ListFolderResult * W;
  now_isoformat : W → pystr
}.

(** *** The checkpoint file *)

(** The content of [CHECKPOINT_FILE]; [None] when the file does not
    exist. *)
Definition file : Type := option pystr.

Section Checkpointing.
Context `{!Json}.

Definition checkpoint_of (cursor timestamp : pystr)
    (all_files : list FileInfo) (all_folders : list FolderInfo) : Checkpoint :=
  {| cp_cursor := cursor;
     cp_timestamp := timestamp;
     cp_files_count := length all_files;
     cp_folders_count := length all_folders;
     cp_files := all_files;
     cp_folders := all_folders |}.

(** [save_checkpoint], run to its end. *)
Definition save_checkpoint (cursor timestamp : pystr)
    (all_files : list FileInfo) (all_folders : list FolderInfo)
    (f : file) : file :=
  Some (json_dump (checkpoint_of cursor timestamp all_files all_folders)).

(** Where a run of [save_checkpoint] can stop: before
    [open(CHECKPOINT_FILE, 'w')], or after it with [written] characters of
    the document in the file. *)
Inductive save_progress : Type :=
| BeforeOpen
| Opened (written : nat).

(** The file left by [save_checkpoint] stopped at [progress]:
    [open(..., 'w')] empties the file and [json.dump] fills it from the
    start. *)
Definition save_checkpoint_until (progress : save_progress)
    (cursor timestamp : pystr)
    (all_files : list FileInfo) (all_folders : list FolderInfo)
    (f : file) : file :=
  match progress with
  | BeforeOpen => f
  | Opened written =>
      Some (take written
              (json_dump (checkpoint_of cursor timestamp all_files all_folders)))
  end.

(** [load_checkpoint]: [None] when the file is missing or does not load. *)
Definition load_checkpoint (f : file) : option Checkpoint :=
  match f with
  | Some text => json_load text
  | None => None
  end.

Definition clear_checkpoint (f : file) : file := None.

End Checkpointing.

(** *** The crawl *)

(** [s.rfind(c)] *)
Fixpoint rfind (c : N) (s : pystr) : option nat :=
  match s with
  | [] => None
  | d :: s' =>
      match rfind c s' with
      | Some i => Some (S i)
      | None => if d =? c then Some O else None
      end
  end.

(** [os.path.splitext(p)[1]]: from the last dot of the last component,
    unless only dots come before it. *)
Definition splitext_ext (p : pystr) : pystr :=
  let base := List.last (split 47 p) [] in
  match rfind 46 base with
  | Some dot =>
      if forallb (λ c, c =? 46) (take dot base) then [] else drop dot base
  | None => []
  end.

(** What [get_folder_stats] ends in: a returned pair, an exception that
    is not caught (only a [BaseException] is not), or no end. *)
Inductive crawl_result : Type :=
| Returned (all_files : list FileInfo) (all_folders : list FolderInfo)
| Propagated (e : raised)
| Diverges.

(** The state of the crawl: the two accumulators, the checkpoint file and
    the remote. *)
Record crawl (W : Type) : Type := Crawl {
  all_files : list FileInfo;
  all_folders : list FolderInfo;
  checkpoint_file : file;
  world : W
}.
Arguments Crawl {W}.
Arguments all_files {W}.
Arguments all_folders {W}.
Arguments checkpoint_file {W}.
Arguments world {W}.

Section Crawler.
Context {W : Type} `{!ListClient W} `{!Json} `{!StrLower}.

Definition file_info (path_display name : pystr) (size : Z)
    (client_modified content_hash : option pystr) : FileInfo :=
  {| path := path_display;
     name := name;
     size := size;
     modified := client_modified;
     hash := content_hash;
     extension := lower (splitext_ext name) |}.

(** [save_checkpoint] with the clock read first. *)
Definition checkpoint_now (cursor : pystr) (st : crawl W) : crawl W :=
  Crawl (all_files st) (all_folders st)
    (save_checkpoint cursor (now_isoformat (world st))
       (all_files st) (all_folders st) (checkpoint_file st))
    (world st).

(** [for entry in result.entries], for the page whose cursor is
    [result_cursor]. *)
Fixpoint absorb (result_cursor : pystr) (entries : list Metadata)
    (st : crawl W) : crawl W :=
  match entries with
  | [] => st
  | FileMetadata path_display name size client_modified content_hash
      :: entries' =>
      let st :=
        Crawl (all_files st ++
                 [file_info path_display name size client_modified content_hash])
              (all_folders st) (checkpoint_file st) (world st) in
      if (Z.of_nat (length (all_files st)) mod CHECKPOINT_INTERVAL =? 0)%Z then
        match result_cursor with
        | _ :: _ => absorb result_cursor entries' (checkpoint_now result_cursor st)
        | [] => absorb result_cursor entries' st
        end
      else absorb result_cursor entries' st
  | FolderMetadata path_display name :: entries' =>
      absorb result_cursor entries'
        (Crawl (all_files st)
               (all_folders st ++
                  [{| folder_path := path_display; folder_name := name |}])
               (checkpoint_file st) (world st))
  | DeletedMetadata _ _ :: entries' => absorb result_cursor entries' st
  end.

(** How the [try] block ends: normally, or by an exception raised while
    [result] was the page given ([None] before the first page). *)
Inductive scan_end : Type :=
| ScanComplete (st : crawl W)
| ScanRaised (e : raised) (result : option ListFolderResult) (st : crawl W)
| ScanDiverges.

(** [while True], entered with [result] just fetched. *)
Fixpoint scan (fuel : nat) (result : ListFolderResult) (st : crawl W)
    : scan_end :=
  match fuel with
  | O => ScanDiverges
  | S fuel' =>
      let st := absorb (cursor result) (entries result) st in
      if negb (has_more result) then ScanComplete st
      else
        match files_list_folder_continue (cursor result) (world st) with
        | (Returns result', w) =>
            scan fuel' result'
              (Crawl (all_files st) (all_folders st) (checkpoint_file st) w)
        | (Raises e, w) =>
            ScanRaised e (Some result)
              (Crawl (all_files st) (all_folders st) (checkpoint_file st) w)
        end
  end.

(** The [try] block: the first fetch, then the loop. *)
Definition try_scan (fuel : nat) (path : pystr)
    (resume_checkpoint : option Checkpoint) (f : file) (w : W) : scan_end :=
  match resume_checkpoint with
  | Some checkpoint =>
      match files_list_folder_continue (cp_cursor checkpoint) w with
      | (Returns result, w) =>
          scan fuel result
            (Crawl (cp_files checkpoint) (cp_folders checkpoint) f w)
      | (Raises e, w) =>
          ScanRaised e None
            (Crawl (cp_files checkpoint) (cp_folders checkpoint) f w)
      end
  | None =>
      match files_list_folder path w with
      | (Returns result, w) => scan fuel result (Crawl [] [] f w)
      | (Raises e, w) => ScanRaised e None (Crawl [] [] f w)
      end
  end.

(** [get_folder_stats(dbx, path, resume_checkpoint)]: what it returns,
    the checkpoint file and the remote it leaves. *)
Definition get_folder_stats (fuel : nat) (path : pystr)
    (resume_checkpoint : option Checkpoint) (f : file) (w : W)
    : crawl_result * file * W :=
  match try_scan fuel path resume_checkpoint f w with
  | ScanComplete st =>
      (Returned (all_files st) (all_folders st),
       clear_checkpoint (checkpoint_file st), world st)
  | ScanRaised KeyboardInterrupt _ st =>
      (Propagated KeyboardInterrupt, checkpoint_file st, world st)
  | ScanRaised _ result st =>
      let st :=
        match result with
        | Some result =>
            match cursor result with
            | _ :: _ => checkpoint_now (cursor result) st
            | [] => st
            end
        | None => st
        end in
      (Returned [] [], checkpoint_file st, world st)
  | ScanDiverges => (Diverges, f, w)
  end.

(** The test [main] makes on the returned pair: [True] is "scan failed",
    and [main] returns 1. *)
Definition scan_failed (all_files : list FileInfo)
    (all_folders : list FolderInfo) : bool :=
  match all_files, all_folders with
  | [], [] => true
  | _, _ => false
  end.

(** [main] from the return of [get_folder_stats] to the test: [Some 1]
    when [main] returns 1 there, [None] when it goes on to the
    analysis. *)
Definition main_after_scan (all_files : list FileInfo)
    (all_folders : list FolderInfo) : option Z :=
  if scan_failed all_files all_folders then Some 1%Z else None.

End Crawler.

(** *** The analysis *)

(** [datetime.fromisoformat], [None] when it raises [ValueError], and
    [(now - modified.replace(tzinfo=None)).days]. *)
Class Clock : Type := {
  datetime : Type;
  fromisoformat : pystr → option datetime;
  age_days : datetime → Z
}.

(** A counter dict, [defaultdict(lambda: {'count': 0, 'size': 0})]. *)
Abbreviation counters := (gmap pystr (Z * Z)).

(** [d[key]['count'] += 1; d[key]['size'] += size] *)
Definition bump (key : pystr) (size : Z) (d : counters) : counters :=
  let '(count, total) := default (0, 0)%Z (d !! key) in
  <[key := (count + 1, total + size)%Z]> d.

(** [d[key].append(x)] on a [defaultdict(list)], in insertion order. *)
Fixpoint append_to (key : pystr) (x : pystr) (d : list (pystr * list pystr))
    : list (pystr * list pystr) :=
  match d with
  | [] => [(key, [x])]
  | (k, xs) :: d' =>
      if decide (k = key) then (k, xs ++ [x]) :: d'
      else (k, xs) :: append_to key x d'
  end.

(** The fields of the analysis that are not floating-point figures. *)
Record Analysis : Type := {
  total_files : nat;
  total_size_bytes : Z;
  by_extension : counters;
  by_age : counters;
  duplicates : list (pystr * list pystr);
  by_folder : counters
}.

Definition age_bucket (age : Z) : pystr :=
  if (age <? 30)%Z then py "Last 30 days"
  else if (age <? 90)%Z then py "30-90 days"
  else if (age <? 365)%Z then py "3-12 months"
  else if (age <? 365 * 2)%Z then py "1-2 years"
  else if (age <? 365 * 3)%Z then py "2-3 years"
  else py "3+ years".

(** [file['extension'] or '(no extension)'] *)
Definition extension_key (f : FileInfo) : pystr :=
  match extension f with
  | [] => py "(no extension)"
  | ext => ext
  end.

(** The top-level folder of a path. *)
Definition folder_key (f : FileInfo) : pystr :=
  match split 47 (path f) with
  | _ :: second :: _ => 47 :: second
  | _ => [47]
  end.

Section Analysis.
Context `{!Clock}.

(** The body of [for file in files]; [None] is the [ValueError] of
    [fromisoformat]. *)
Definition analyze_file (f : FileInfo) (a : Analysis) : option Analysis :=
  let by_extension := bump (extension_key f) (size f) (by_extension a) in
  let by_folder := bump (folder_key f) (size f) (by_folder a) in
  let by_age :=
    match modified f with
    | Some ((_ :: _) as text) =>
        match fromisoformat (replace_char 90 (py "+00:00") text) with
        | Some modified =>
            Some (bump (age_bucket (age_days modified)) (size f) (by_age a))
        | None => None
        end
    | _ => Some (by_age a)
    end in
  match by_age with
  | None => None
  | Some by_age =>
      let duplicates :=
        match hash f with
        | Some ((_ :: _) as h) => append_to h (path f) (duplicates a)
        | _ => duplicates a
        end in
      Some {| total_files := total_files a;
              total_size_bytes := total_size_bytes a;
              by_extension := by_extension;
              by_age := by_age;
              duplicates := duplicates;
              by_folder := by_folder |}
  end.

Fixpoint analyze_loop (files : list FileInfo) (a : Analysis) : option Analysis :=
  match files with
  | [] => Some a
  | f :: files' =>
      match analyze_file f a with
      | Some a' => analyze_loop files' a'
      | None => None
      end
  end.

(** [analyze_files(files)]; [None] when it raises. *)
Definition analyze_files (files : list FileInfo) : option Analysis :=
  match
    analyze_loop files
      {| total_files := length files;
         total_size_bytes := foldr (λ f total, size f + total)%Z 0%Z files;
         by_extension := ∅;
         by_age := ∅;
         duplicates := [];
         by_folder := ∅ |}
  with
  | Some a =>
      Some {| total_files := total_files a;
              total_size_bytes := total_size_bytes a;
              by_extension := by_extension a;
              by_age := by_age a;
              duplicates :=
                List.filter (λ kv, (1 <? length (snd kv))%nat) (duplicates a);
              by_folder := by_folder a |}
  | None => None
  end.

End Analysis.

End Catalog.

(** ** The credential files

    [load_token] and [save_token] of [catalog-dropbox.py],
    [load_dropbox_client] of the deleters, and the refresh-token file as
    [dropbox-setup-oauth.py] writes it.  The files are text files read and
    written whole.  [os.chmod] is left out: permissions are not part of
    the model. *)

Module Credentials.

(** What reading a text file gives: its text, or [UnicodeDecodeError]. *)
Inductive read (A : Type) : Type :=
| Read (a : A)
| UnicodeDecodeError.
Arguments Read {A} a.
Arguments UnicodeDecodeError {A}.

(** [f.read()] on a file opened with [open(name, 'r')]. *)
Definition read_text (content : TextFile.bytes) : option pystr :=
  TextFile.universal_newlines <$> TextFile.utf8_decode content.

(** [with open(name, 'w') as f: f.write(text)]: the file it leaves.  When
    the text does not encode, [write] raises [UnicodeEncodeError] and the
    file, emptied when it was opened, stays empty. *)
Inductive written : Type :=
| Written (content : TextFile.bytes)
| UnicodeEncodeError (content : TextFile.bytes).

Definition write_text (text : pystr) : written :=
  match TextFile.utf8_encode text with
  | Some content => Written content
  | None => UnicodeEncodeError []
  end.

(** The file a write leaves, however it ends. *)
Definition left_by (w : written) : TextFile.bytes :=
  match w with
  | Written content | UnicodeEncodeError content => content
  end.

(** *** catalog-dropbox.py *)

(** [load_token()], from [os.environ.get('DROPBOX_TOKEN')] and the content
    of [TOKEN_FILE] ([None] when it does not exist).  An empty variable
    counts as unset; the text of the file is returned even when it is
    empty. *)
Definition load_token (environ_token : option pystr)
    (token_file : option TextFile.bytes) : read (option pystr) :=
  match environ_token with
  | Some ((_ :: _) as token) => Read (Some token)
  | _ =>
      match token_file with
      | Some content =>
          match read_text content with
          | Some text => Read (Some (strip text))
          | None => UnicodeDecodeError
          end
      | None => Read None
      end
  end.

(** [save_token(token)]: what it leaves in [TOKEN_FILE]. *)
Definition save_token (token : pystr) : written := write_text token.

(** *** dropbox-setup-oauth.py *)

(** What [setup_oauth] writes to [REFRESH_TOKEN_FILE]:
    [f"{app_key}\n{app_secret}\n{refresh_token}"]. *)
Definition save_refresh_token (app_key app_secret refresh_token : pystr)
    : written :=
  write_text (app_key ++ [10] ++ app_secret ++ [10] ++ refresh_token).

(** *** batch-delete.py, batch-delete-fast.py *)

(** The client [load_dropbox_client] builds, by the arguments it gives to
    [dropbox.Dropbox]. *)
Inductive client : Type :=
| RefreshClient (app_key app_secret oauth2_refresh_token : pystr)
| TokenClient (token : pystr).

(** [load_dropbox_client()], from the content of [REFRESH_TOKEN_FILE],
    the variable [DROPBOX_TOKEN] and the content of [TOKEN_FILE]. *)
Definition load_dropbox_client (refresh_token_file : option TextFile.bytes)
    (environ_token : option pystr) (token_file : option TextFile.bytes)
    : read (option client) :=
  let access_token :=
    match environ_token, token_file with
    | Some ((_ :: _) as token), _ => Read (Some token)
    | _, Some content =>
        match read_text content with
        | Some text => Read (Some (strip text))
        | None => UnicodeDecodeError
        end
    | _, None => Read None
    end in
  let from_access_token :=
    match access_token with
    | Read (Some ((_ :: _) as token)) => Read (Some (TokenClient token))
    | Read _ => Read None
    | UnicodeDecodeError => UnicodeDecodeError
    end in
  match refresh_token_file with
  | Some content =>
      match read_text content with
      | Some text =>
          match split 10 (strip text) with
          | [app_key; app_secret; refresh_token] =>
              Read (Some (RefreshClient app_key app_secret refresh_token))
          | _ => from_access_token
          end
      | None => UnicodeDecodeError
      end
  | None => from_access_token
  end.

End Credentials.

(** ** catalog-dropbox.py: [main], up to the analysis

    [main] from its start to the return of [get_folder_stats] and the
    test made on what it returns.  The machine it runs on has the
    variable [DROPBOX_TOKEN], the token file, the checkpoint file, the
    lines typed at the prompts and the remote.  What is printed is left
    out; so is what follows the test (the analysis and the reports). *)

Module CatalogMain.
Import Catalog Credentials.

(** What connecting gives: the account, [AuthError], or another
    exception. *)
Inductive connection : Type :=
| Connected
| AuthError
| ConnectionError (e : raised).

(** [dropbox.Dropbox(token).users_get_current_account()] *)
Class AccountClient (W : Type) :=
  users_get_current_account : pystr → W → connection * W.

Record machine (W : Type) : Type := Machine {
  environ_token : option pystr;
  token_file : option TextFile.bytes;
  checkpoint_file : file;
  stdin : list pystr;
  remote : W
}.
Arguments Machine {W}.
Arguments environ_token {W}.
Arguments token_file {W}.
Arguments checkpoint_file {W}.
Arguments stdin {W}.
Arguments remote {W}.

(** What escapes [main]: [UnicodeDecodeError] from reading the token
    file, [UnicodeEncodeError] from writing it, [EOFError] from
    [input()], an exception of the connection that is not [AuthError],
    what [get_folder_stats] lets through. *)
Inductive main_error : Type :=
| TokenFileUndecodable
| TokenUnencodable
| EndOfInput
| ConnectionFailed (e : raised)
| ScanPropagated (e : raised).

(** How [main] ends: it returns [code]; it goes on to
    [analyze_files(all_files)]; an exception escapes; or the scan does
    not end. *)
Inductive main_end : Type :=
| MainReturns (code : Z)
| MainAnalyzes (all_files : list FileInfo) (all_folders : list FolderInfo)
| MainRaises (e : main_error)
| MainDiverges.

Section Main.
Context {W : Type} `{!ListClient W} `{!AccountClient W} `{!Json} `{!StrLower}.

(** A step of [main]: a value to go on with, or the end of [main]. *)
Definition step (A : Type) : Type := (A + main_end) * machine W.

(** [# Load or prompt for token] *)
Definition obtain_token (m : machine W) : step pystr :=
  match load_token (environ_token m) (token_file m) with
  | UnicodeDecodeError => (inr (MainRaises TokenFileUndecodable), m)
  | Read (Some ((_ :: _) as token)) => (inl token, m)
  | Read _ =>
      match stdin m with
      | [] => (inr (MainRaises EndOfInput), m)
      | answer :: rest =>
          let m := Machine (environ_token m) (token_file m)
                     (checkpoint_file m) rest (remote m) in
          match strip answer with
          | [] => (inr (MainReturns 1), m)
          | token =>
              match save_token token with
              | Written content =>
                  (inl token,
                   Machine (environ_token m) (Some content)
                     (checkpoint_file m) (stdin m) (remote m))
              | UnicodeEncodeError content =>
                  (inr (MainRaises TokenUnencodable),
                   Machine (environ_token m) (Some content)
                     (checkpoint_file m) (stdin m) (remote m))
              end
          end
      end
  end.

(** [response in ('', 'y', 'yes')] *)
Definition accepts (response : pystr) : bool :=
  bool_decide (response = py "") || bool_decide (response = py "y") ||
  bool_decide (response = py "yes").

(** [# Check for existing checkpoint]: the checkpoint to resume from, if
    any. *)
Definition choose_resume (m : machine W) : step (option Checkpoint) :=
  match load_checkpoint (checkpoint_file m) with
  | Some checkpoint =>
      match stdin m with
      | [] => (inr (MainRaises EndOfInput), m)
      | answer :: rest =>
          let response := lower (strip answer) in
          if accepts response then
            (inl (Some checkpoint),
             Machine (environ_token m) (token_file m) (checkpoint_file m)
               rest (remote m))
          else
            (inl None,
             Machine (environ_token m) (token_file m)
               (clear_checkpoint (checkpoint_file m)) rest (remote m))
      end
  | None => (inl None, m)
  end.

(** [# Initialize Dropbox client]: on [AuthError] the token file is
    removed and [main] returns 1. *)
Definition connect (token : pystr) (m : machine W) : step unit :=
  match users_get_current_account token (remote m) with
  | (Connected, w) =>
      (inl (),
       Machine (environ_token m) (token_file m) (checkpoint_file m)
         (stdin m) w)
  | (AuthError, w) =>
      (inr (MainReturns 1),
       Machine (environ_token m) None (checkpoint_file m) (stdin m) w)
  | (ConnectionError e, w) =>
      (inr (MainRaises (ConnectionFailed e)),
       Machine (environ_token m) (token_file m) (checkpoint_file m)
         (stdin m) w)
  end.

(** [# Get all files] and [# Check if scan failed] *)
Definition scan_all (fuel : nat) (resume_checkpoint : option Checkpoint)
    (m : machine W) : main_end * machine W :=
  match get_folder_stats fuel (py "") resume_checkpoint
          (checkpoint_file m) (remote m) with
  | (r, f, w) =>
      let m := Machine (environ_token m) (token_file m) f (stdin m) w in
      match r with
      | Returned all_files all_folders =>
          match main_after_scan all_files all_folders with
          | Some code => (MainReturns code, m)
          | None => (MainAnalyzes all_files all_folders, m)
          end
      | Propagated e => (MainRaises (ScanPropagated e), m)
      | Diverges => (MainDiverges, m)
      end
  end.

(** [main()] *)
Definition main (fuel : nat) (m : machine W) : main_end * machine W :=
  match obtain_token m with
  | (inr r, m) => (r, m)
  | (inl token, m) =>
      match choose_resume m with
      | (inr r, m) => (r, m)
      | (inl resume_checkpoint, m) =>
          match connect token m with
          | (inr r, m) => (r, m)
          | (inl _, m) => scan_all fuel resume_checkpoint m
          end
      end
  end.

End Main.

End CatalogMain.

(** ** catalog-dropbox.py: the figures of the [Duplicates] recommendation

    What [generate_recommendations] computes from the duplicate groups
    and the inventory, before it divides by [1024**3] and rounds: the
    number of groups, the number of files that are copies, and the bytes
    they take.  The other recommendations and the report, which are
    floating-point figures and formatted text, are left out. *)

Module Recommendations.
Import Catalog.

(** [dup_count = len(analysis['duplicates'])] *)
Definition dup_count (duplicates : list (pystr * list pystr)) : nat :=
  length duplicates.

(** [dup_files = sum(len(paths) - 1 for paths in
    analysis['duplicates'].values())] *)
Definition dup_files (duplicates : list (pystr * list pystr)) : Z :=
  foldr (λ group total, Z.of_nat (length (snd group)) - 1 + total)%Z 0%Z
        duplicates.

(** [path_to_file = {f['path']: f for f in analysis.get('all_files', [])}]:
    of two files with the same path the later is kept. *)
Definition path_to_file (all_files : list FileInfo) : gmap pystr FileInfo :=
  foldl (λ d f, <[path f := f]> d) ∅ all_files.

(** What one group adds to [dup_size]: the sizes of its files that the
    inventory has, less the size of the first of them. *)
Definition group_size (d : gmap pystr FileInfo) (paths : list pystr) : Z :=
  let files := omap (λ path, d !! path) paths in
  match files with
  | [] => 0%Z
  | first :: _ => (foldr (λ f total, size f + total) 0 files - size first)%Z
  end.

(** [dup_size], after the loop over [analysis['duplicates'].items()]. *)
Definition dup_size (duplicates : list (pystr * list pystr))
    (all_files : list FileInfo) : Z :=
  foldl (λ total group,
           total + group_size (path_to_file all_files) (snd group))%Z
        0%Z duplicates.

End Recommendations.

(** ** Remotes to run the scripts on *)

Module Remotes.

(** [str(e)] of the error for a path that is not there. *)
Definition not_found_error : pystr :=
  py "DeleteError('path_lookup', LookupError('not_found', None))".

(** A remote that holds a list of paths.  Deleting a path it holds takes
    the path out; deleting another raises an [ApiError]. *)
Definition store_delete_client : DeleteClient (list pystr) :=
  λ path w,
    if decide (path ∈ w) then (Returns (), filter (λ p, p ≠ path) w)
    else (Raises (ApiError not_found_error), w).

(** The same remote for batches: a batch completes at once, with one
    entry for each path. *)
Definition store_batch_client : BatchClient (list pystr) :=
  {| files_delete_batch := λ batch w,
       (Returns (Some (LaunchComplete
          ((λ path, if decide (path ∈ w) then EntrySuccess
                    else EntryFailure not_found_error) <$> batch))),
        filter (λ p, p ∉ batch) w);
     files_delete_batch_check := λ async_job_id w,
       (Raises (ApiError (py "invalid_async_job_id")), w) |}.

(** A remote that follows a script.  Its state counts the submissions and
    the polls of the current job.  The first batch completes at once, the
    second submission raises an [ApiError], a later one starts a job that
    is in progress for two polls and then complete; every path is
    deleted. *)
Definition scripted_batch_client : BatchClient (nat * nat * nat) :=
  {| files_delete_batch := λ batch '(submissions, _, _),
       (match submissions with
        | 0%nat => Returns (Some (LaunchComplete ((λ _, EntrySuccess) <$> batch)))
        | 1%nat => Raises (ApiError (py "too_many_write_operations"))
        | _ => Returns (Some (LaunchAsyncJobId (py "job")))
        end,
        (S submissions, 0%nat, length batch));
     files_delete_batch_check := λ async_job_id '(submissions, polls, size),
       (if (polls <? 2)%nat then Returns JobInProgress
        else Returns (JobComplete (replicate size EntrySuccess)),
        (submissions, S polls, size)) |}.

(** *** A stand-in for the [json] module

    A checkpoint is written as one document between braces: the binary
    digits of its number in an enumeration of the checkpoints.  A document
    loads back, and a document cut short does not load. *)

#[global] Instance FileInfo_eq_dec : EqDecision Catalog.FileInfo.
Proof. solve_decision. Defined.

#[global] Instance FolderInfo_eq_dec : EqDecision Catalog.FolderInfo.
Proof. solve_decision. Defined.

#[global] Instance Checkpoint_eq_dec : EqDecision Catalog.Checkpoint.
Proof. solve_decision. Defined.

#[global] Instance FileInfo_countable : Countable Catalog.FileInfo.
Proof.
  refine (inj_countable'
    (λ f, (Catalog.path f, Catalog.name f, Catalog.size f,
           Catalog.modified f, Catalog.hash f, Catalog.extension f))
    (λ '(p, n, s, m, h, e), Catalog.Build_FileInfo p n s m h e) _).
  by intros [].
Defined.

#[global] Instance FolderInfo_countable : Countable Catalog.FolderInfo.
Proof.
  refine (inj_countable'
    (λ f, (Catalog.folder_path f, Catalog.folder_name f))
    (λ '(p, n), Catalog.Build_FolderInfo p n) _).
  by intros [].
Defined.

#[global] Instance Checkpoint_countable : Countable Catalog.Checkpoint.
Proof.
  refine (inj_countable'
    (λ c, (Catalog.cp_cursor c, Catalog.cp_timestamp c,
           Catalog.cp_files_count c, Catalog.cp_folders_count c,
           Catalog.cp_files c, Catalog.cp_folders c))
    (λ '(c, t, n, m, fs, ds), Catalog.Build_Checkpoint c t n m fs ds) _).
  by intros [].
Defined.

(** The binary digits of a positive number, lowest first, without the
    leading one. *)
Fixpoint digits (p : positive) : pystr :=
  match p with
  | xH => []
  | xO p' => 48 :: digits p'
  | xI p' => 49 :: digits p'
  end.

(** The number whose digits, then a closing brace, are the text. *)
Fixpoint load_digits (text : pystr) : option positive :=
  match text with
  | [] => None
  | c :: text' =>
      match text' with
      | [] => if c =? 125 then Some xH else None
      | _ :: _ =>
          if c =? 48 then xO <$> load_digits text'
          else if c =? 49 then xI <$> load_digits text'
          else None
      end
  end.

Definition compact_dump (cp : Catalog.Checkpoint) : pystr :=
  123 :: digits (encode cp) ++ [125].

Definition compact_load (text : pystr) : option Catalog.Checkpoint :=
  match text with
  | 123 :: text' => load_digits text' ≫= decode
  | _ => None
  end.

Lemma load_digits_digits (p : positive) : load_digits (digits p ++ [125]) = Some p.
Proof.
  induction p as [p IH|p IH|]; simpl; [| |done].
  - destruct (digits p ++ [125]) eqn:E; [by destruct (digits p)|].
    by rewrite IH.
  - destruct (digits p ++ [125]) eqn:E; [by destruct (digits p)|].
    by rewrite IH.
Qed.

Lemma load_digits_cut (p : positive) (text : pystr) :
  text `prefix_of` digits p → load_digits text = None.
Proof.
  revert text. induction p as [p IH|p IH|]; intros text Hpre; simpl in Hpre.
  - destruct text as [|c text]; [done|].
    pose proof (prefix_cons_inv_1 _ _ _ _ Hpre) as ->.
    apply prefix_cons_inv_2, IH in Hpre. simpl.
    destruct text; [done|]. by rewrite Hpre.
  - destruct text as [|c text]; [done|].
    pose proof (prefix_cons_inv_1 _ _ _ _ Hpre) as ->.
    apply prefix_cons_inv_2, IH in Hpre. simpl.
    destruct text; [done|]. by rewrite Hpre.
  - apply prefix_nil_inv in Hpre. by subst.
Qed.

Lemma prefix_snoc_cut {A} (text l : list A) (x : A) :
  text `prefix_of` l ++ [x] → text ≠ l ++ [x] → text `prefix_of` l.
Proof.
  intros [k Hk] Hne. destruct k as [|y k _] using rev_ind.
  - rewrite app_nil_r in Hk. congruence.
  - rewrite app_assoc in Hk. apply app_inj_tail in Hk as [-> _].
    by apply prefix_app_r.
Qed.

Definition compact_json : Catalog.Json.
Proof.
  refine {| Catalog.json_dump := compact_dump;
            Catalog.json_load := compact_load |}.
  - intros cp. unfold compact_load, compact_dump.
    rewrite load_digits_digits. simpl. apply decode_encode.
  - intros cp text Hpre Hne. unfold compact_dump in *.
    destruct text as [|c text]; [done|].
    pose proof (prefix_cons_inv_1 _ _ _ _ Hpre) as ->.
    apply prefix_cons_inv_2 in Hpre. simpl.
    rewrite (load_digits_cut (encode cp) text); [done|].
    apply prefix_snoc_cut with 125; [done|]. congruence.
Defined.

(** *** A remote that lists a fixed sequence of pages

    Its state is the fault to come, if any: [Some (k, e)] when [k] more
    fetches succeed and the next one raises [e], once. *)

Definition page_cursor (i : nat) : pystr := [99; N.of_nat i].

Definition cursor_page (cursor : pystr) : option nat :=
  match cursor with
  | [99; n] => Some (N.to_nat n)
  | _ => None
  end.

(** Page [i]: its cursor resumes at page [i + 1]; past the last page the
    listing is empty. *)
Definition page (pages : list (list Catalog.Metadata)) (i : nat)
    : Catalog.ListFolderResult :=
  {| Catalog.entries := default [] (pages !! i);
     Catalog.cursor := page_cursor (S i);
     Catalog.has_more := bool_decide (S i < length pages)%nat |}.

Definition serve (pages : list (list Catalog.Metadata)) (i : nat)
    (w : option (nat * raised))
    : reply Catalog.ListFolderResult * option (nat * raised) :=
  match w with
  | Some (O, e) => (Raises e, None)
  | Some (S k, e) => (Returns (page pages i), Some (k, e))
  | None => (Returns (page pages i), None)
  end.

Definition paged_client (pages : list (list Catalog.Metadata))
    : Catalog.ListClient (option (nat * raised)) :=
  {| Catalog.files_list_folder := λ path w, serve pages 0 w;
     Catalog.files_list_folder_continue := λ cursor w,
       match cursor_page cursor with
       | Some i => serve pages i w
       | None => (Raises (ApiError (py "reset")), w)
       end;
     Catalog.now_isoformat := λ w, py "2025-11-15T07:34:16" |}.

(** File number [i] of the store. *)
Definition numbered_file (i : nat) : Catalog.Metadata :=
  Catalog.FileMetadata (py "/f/" ++ [N.of_nat i]) [N.of_nat i] 1 None None.

(** A store listed in two pages: the first has the files 0 to [n], the
    second the file [n + 1]. *)
Definition two_page_store (n : nat) : list (list Catalog.Metadata) :=
  [ (numbered_file <$> seq 0 n) ++ [numbered_file n];
    [numbered_file (S n)] ].

(** *** A clock that reads calendar dates

    [fromisoformat] on [YYYY-MM-DD], alone or followed by [T] or a space
    and a time; the age is counted in whole days up to 15 November
    2025. *)

Definition digit (c : N) : option Z :=
  if (48 <=? c) && (c <=? 57) then Some (Z.of_N c - 48)%Z else None.

Definition number (text : pystr) : option Z :=
  foldl (λ acc c, n ← acc; d ← digit c; Some (10 * n + d)%Z) (Some 0%Z) text.

(** The day number of a date of the proleptic Gregorian calendar. *)
Definition day_number (y m d : Z) : Z :=
  let y' := (if m <=? 2 then y - 1 else y)%Z in
  let m' := (if m <=? 2 then m + 9 else m - 3)%Z in
  (365 * y' + y' / 4 - y' / 100 + y' / 400 + (153 * m' + 2) / 5 + d)%Z.

Definition read_date (text : pystr) : option Z :=
  match text with
  | y1 :: y2 :: y3 :: y4 :: 45 :: m1 :: m2 :: 45 :: d1 :: d2 :: rest =>
      y ← number [y1; y2; y3; y4];
      m ← number [m1; m2];
      d ← number [d1; d2];
      if ((1 <=? m) && (m <=? 12) && (1 <=? d) && (d <=? 31))%Z &&
         match rest with
         | [] => true
         | sep :: _ => (sep =? 84) || (sep =? 32)
         end
      then Some (day_number y m d)
      else None
  | _ => None
  end.

Definition calendar_clock : Catalog.Clock :=
  {| Catalog.datetime := Z;
     Catalog.fromisoformat := read_date;
     Catalog.age_days := λ day, (day_number 2025 11 15 - day)%Z |}.

End Remotes.

(** * Properties *)

(** ** Python strings *)

Module PyFacts.

Lemma startswith_prefix (s prefix : pystr) :
  Is_true (startswith s prefix) ↔ prefix `prefix_of` s.
Proof.
  revert s. induction prefix as [|c prefix IH]; intros s; simpl.
  - split; [intros _; apply prefix_nil | done].
  - destruct s as [|d s]; simpl.
    + split; [done | intros H; by apply prefix_nil_inv in H].
    + rewrite andb_True, IH. split.
      * intros [Hc Hp]. apply Is_true_true, N.eqb_eq in Hc. subst d.
        by apply prefix_cons.
      * intros H. pose proof (prefix_cons_inv_1 _ _ _ _ H) as ->.
        apply prefix_cons_inv_2 in H. split; [|done].
        apply Is_true_true, N.eqb_refl.
Qed.

Lemma startswith_empty (s : pystr) : startswith s [] = true.
Proof. by destruct s. Qed.

Lemma str_leb_refl (a : pystr) : str_leb a a = true.
Proof.
  induction a as [|c a IH]; simpl; [done|].
  by rewrite N.ltb_irrefl.
Qed.

Lemma str_leb_total (a b : pystr) : str_leb a b = true ∨ str_leb b a = true.
Proof.
  revert b. induction a as [|c a IH]; intros [|d b]; simpl; auto.
  destruct (N.ltb_spec c d), (N.ltb_spec d c); auto; lia.
Qed.

Lemma str_leb_trans (a b c : pystr) :
  str_leb a b = true → str_leb b c = true → str_leb a c = true.
Proof.
  revert b c. induction a as [|x a IH]; intros [|y b] [|z c]; simpl; auto;
    try discriminate.
  destruct (N.ltb_spec x y), (N.ltb_spec y x), (N.ltb_spec y z),
    (N.ltb_spec z y), (N.ltb_spec x z), (N.ltb_spec z x);
    try discriminate; try lia; eauto.
Qed.

Lemma str_leb_antisym (a b : pystr) :
  str_leb a b = true → str_leb b a = true → a = b.
Proof.
  revert b. induction a as [|x a IH]; intros [|y b]; simpl; auto;
    try discriminate.
  destruct (N.ltb_spec x y), (N.ltb_spec y x); try discriminate; try lia.
  intros Hab Hba. assert (x = y) as -> by lia. f_equal. auto.
Qed.

#[global] Instance str_le_total : Total str_le.
Proof.
  intros a b. unfold str_le.
  destruct (str_leb_total a b) as [->| ->]; simpl; auto.
Qed.

#[global] Instance str_le_trans : Transitive str_le.
Proof.
  intros a b c Hab Hbc. apply Is_true_true.
  apply Is_true_true in Hab, Hbc. eauto using str_leb_trans.
Qed.

#[global] Instance str_le_antisym : AntiSymm (=) str_le.
Proof.
  intros a b Hab Hba. apply Is_true_true in Hab, Hba.
  eauto using str_leb_antisym.
Qed.

Lemma sorted_permutation (l : list pystr) : sorted l ≡ₚ l.
Proof. apply merge_sort_Permutation. Qed.

Lemma sorted_strongly (l : list pystr) : StronglySorted str_le (sorted l).
Proof. apply StronglySorted_merge_sort; apply _. Qed.

(** [sorted] is determined by the elements and the order. *)
Lemma sorted_unique (l k : list pystr) :
  StronglySorted str_le k → k ≡ₚ l → sorted l = k.
Proof.
  intros Hk Hp. apply (StronglySorted_unique str_le).
  - apply sorted_strongly.
  - done.
  - by rewrite sorted_permutation.
Qed.

Lemma elem_of_sorted (l : list pystr) (x : pystr) : x ∈ sorted l ↔ x ∈ l.
Proof. by rewrite sorted_permutation. Qed.

Lemma length_sorted (l : list pystr) : length (sorted l) = length l.
Proof. by rewrite sorted_permutation. Qed.

End PyFacts.

(** ** smart-dedupe.py: the deletion plan *)

Module SmartDedupeFacts.
Import PyFacts SmartDedupe.

(** What one group adds to the plan. *)
Definition group_deletions (target_folders : list pystr)
    (keep_preference : option (list pystr → option pystr))
    (group : pystr * list pystr) : list pystr :=
  if (length (snd group) <? 2)%nat then []
  else
    match keep_path_of keep_preference (snd group) with
    | Some keep_path =>
        filter (λ path, path ≠ keep_path ∧
                        Is_true (any_startswith target_folders path))
               (snd group)
    | None => []
    end.

(** A keep preference that returns a member of every group it is given. *)
Definition selects_member
    (keep_preference : option (list pystr → option pystr)) : Prop :=
  ∀ paths, (2 ≤ length paths)%nat →
    ∃ keep_path, keep_path_of keep_preference paths = Some keep_path ∧
                 keep_path ∈ paths.

Lemma any_startswith_spec (target_folders : list pystr) (p : pystr) :
  Is_true (any_startswith target_folders p) ↔
  ∃ tf, tf ∈ target_folders ∧ startswith p tf = true.
Proof.
  unfold any_startswith. rewrite Is_true_true, existsb_exists.
  split; intros (tf & Hin & Hs); exists tf; split; auto;
    by apply list_elem_of_In.
Qed.

Lemma first_sorted_elem (paths : list pystr) (keep : pystr) :
  first_sorted paths = Some keep → keep ∈ paths.
Proof.
  unfold first_sorted. intros H. apply (elem_of_sorted paths keep).
  by apply head_Some_elem_of.
Qed.

Lemma first_sorted_is_Some (paths : list pystr) :
  paths ≠ [] → is_Some (first_sorted paths).
Proof.
  intros H. unfold first_sorted. apply head_is_Some. intros Hs.
  apply H. apply length_zero_iff_nil.
  rewrite <- (length_sorted paths), Hs. done.
Qed.

Lemma first_sorted_member (paths : list pystr) :
  paths ≠ [] → ∃ keep, first_sorted paths = Some keep ∧ keep ∈ paths.
Proof.
  intros H. destruct (first_sorted_is_Some paths H) as [keep Hk].
  exists keep. eauto using first_sorted_elem.
Qed.

Lemma first_sorted_filter (P : pystr → Prop) `{!∀ p, Decision (P p)}
    (paths : list pystr) (keep : pystr) :
  first_sorted (filter P paths) = Some keep → keep ∈ paths.
Proof.
  intros Hk. apply first_sorted_elem in Hk.
  apply list_elem_of_filter in Hk. tauto.
Qed.

(** The default preference keeps the smallest path of the group. *)
Theorem default_keeps_smallest (paths : list pystr) :
  paths ≠ [] →
  ∃ keep_path,
    keep_path_of None paths = Some keep_path ∧
    keep_path ∈ paths ∧
    ∀ p, p ∈ paths → str_leb keep_path p = true.
Proof.
  intros Hne. destruct (first_sorted_member paths Hne) as (keep & Hk & Hin).
  exists keep. split_and!; [done..|].
  intros p Hp%elem_of_sorted. unfold first_sorted in Hk.
  pose proof (sorted_strongly paths) as Hs.
  destruct (sorted paths) as [|k rest]; [done|]. injection Hk as ->.
  apply StronglySorted_inv in Hs as [_ Hall].
  apply elem_of_cons in Hp as [->|Hp]; [apply str_leb_refl|].
  rewrite Forall_forall in Hall. apply Is_true_true. by apply Hall.
Qed.

Lemma default_keeps_smallest_witness :
  ∃ keep_path,
    keep_path_of None [py "/z.txt"; py "/a.txt"] = Some keep_path ∧
    keep_path ∈ [py "/z.txt"; py "/a.txt"] ∧
    ∀ p, p ∈ [py "/z.txt"; py "/a.txt"] → str_leb keep_path p = true.
Proof. apply (default_keeps_smallest [py "/z.txt"; py "/a.txt"]). discriminate. Defined.

Example default_keeps_a :
  keep_path_of None [py "/z.txt"; py "/a.txt"] = Some (py "/a.txt").
Proof. vm_compute. reflexivity. Qed.

(** The default preference and the three of the script select a member. *)
Lemma default_selects_member : selects_member None.
Proof.
  intros paths Hlen. simpl. apply first_sorted_member.
  destruct paths; simpl in *; [lia | done].
Qed.

Lemma camera_uploads_selects_member :
  selects_member (Some camera_uploads_preference).
Proof.
  intros paths Hlen. simpl. unfold camera_uploads_preference.
  destruct (filter _ paths) as [|p non_camera] eqn:E.
  - apply first_sorted_member. destruct paths; simpl in *; [lia | done].
  - destruct (first_sorted_member (p :: non_camera)) as (keep & Hk & Hin);
      [done|].
    exists keep. split; [done|].
    rewrite <- E in Hin. apply list_elem_of_filter in Hin. tauto.
Qed.

Lemma recipes_selects_member : selects_member (Some recipes_preference).
Proof.
  intros paths Hlen. simpl. unfold recipes_preference.
  destruct (filter _ paths) as [|p recipe_paths] eqn:E.
  - apply first_sorted_member. destruct paths; simpl in *; [lia | done].
  - assert (∀ x, x ∈ p :: recipe_paths → x ∈ paths) as Hsub.
    { intros x Hx. rewrite <- E in Hx. apply list_elem_of_filter in Hx. tauto. }
    destruct (filter _ (p :: recipe_paths)) as [|g gallery_paths] eqn:G.
    + destruct (first_sorted_member (p :: recipe_paths)) as (keep & Hk & Hin);
        [done|]. eauto.
    + destruct (first_sorted_member (g :: gallery_paths)) as (keep & Hk & Hin);
        [done|].
      exists keep. split; [done|]. apply Hsub.
      rewrite <- G in Hin. apply list_elem_of_filter in Hin. tauto.
Qed.

Lemma dashcord_selects_member : selects_member (Some dashcord_preference).
Proof.
  intros paths Hlen. simpl. unfold dashcord_preference.
  destruct (filter _ paths) as [|p dashcord_paths] eqn:E.
  - apply first_sorted_member. destruct paths; simpl in *; [lia | done].
  - destruct (first_sorted_member (p :: dashcord_paths)) as (keep & Hk & Hin);
      [done|].
    exists keep. split; [done|].
    rewrite <- E in Hin. apply list_elem_of_filter in Hin. tauto.
Qed.

Lemma filter_none {A} (P : A → Prop) `{!∀ x, Decision (P x)} (l : list A) :
  (∀ x, x ∈ l → ¬ P x) → filter P l = [].
Proof.
  induction l as [|x l IH]; intros Hall; [done|].
  rewrite filter_cons_False by (apply Hall; left).
  apply IH. intros y Hy. apply Hall. by right.
Qed.

Lemma filter_and_nil {A} (P Q : A → Prop) `{!∀ x, Decision (P x)}
    `{!∀ x, Decision (Q x)} (l : list A) :
  filter Q l = [] → filter (λ x, P x ∧ Q x) l = [].
Proof.
  intros Hnil. apply filter_none. intros x Hx [_ HQ].
  by apply (filter_nil_not_elem_of Q l x).
Qed.

(** The loop adds to the plan what each group adds, in order, when the
    preference never raises. *)
Lemma smart_dedupe_items_plan items target_folders keep_preference to_delete :
  selects_member keep_preference →
  smart_dedupe_items items target_folders keep_preference to_delete =
  Some (to_delete ++
        items ≫= group_deletions target_folders keep_preference).
Proof.
  intros Hsel. revert to_delete.
  induction items as [|[hash_val paths] items IH]; intros to_delete; simpl.
  - by rewrite app_nil_r.
  - unfold group_deletions at 1. simpl.
    destruct (length paths <? 2)%nat eqn:Hlen; [by rewrite IH|].
    apply Nat.ltb_ge in Hlen.
    destruct (Hsel paths Hlen) as (keep_path & -> & _).
    destruct (filter _ paths) as [|r relevant] eqn:Hrel.
    + rewrite (filter_and_nil _ _ _ Hrel). by rewrite IH.
    + rewrite IH. by rewrite <- app_assoc.
Qed.

Lemma smart_dedupe_plan duplicates target_folders keep_preference :
  selects_member keep_preference →
  smart_dedupe duplicates target_folders keep_preference =
  Some (duplicates ≫= group_deletions target_folders keep_preference).
Proof. intros H. unfold smart_dedupe. by rewrite smart_dedupe_items_plan. Qed.

Lemma elem_of_group_deletions target_folders keep_preference group path :
  path ∈ group_deletions target_folders keep_preference group →
  path ∈ snd group ∧
  Is_true (any_startswith target_folders path) ∧
  keep_path_of keep_preference (snd group) ≠ Some path.
Proof.
  unfold group_deletions.
  destruct (length (snd group) <? 2)%nat; [by intros ?%elem_of_nil|].
  destruct (keep_path_of _ _) as [keep|]; [|by intros ?%elem_of_nil].
  intros (Hne & Hrel)%list_elem_of_filter. destruct Hne as [Hne Hany].
  repeat split; [done..|]. congruence.
Qed.

Lemma NoDup_group_deletions target_folders keep_preference group :
  NoDup (snd group) →
  NoDup (group_deletions target_folders keep_preference group).
Proof.
  intros H. unfold group_deletions.
  destruct (_ <? _)%nat; [constructor|].
  destruct (keep_path_of _ _); [|constructor].
  by apply NoDup_filter.
Qed.

(** Under [NoDup] of all the paths, two groups that share a path are the
    same group. *)
Lemma shared_path_same_group (groups : list (pystr * list pystr))
    (g1 g2 : pystr * list pystr) (path : pystr) :
  NoDup (groups ≫= snd) → g1 ∈ groups → g2 ∈ groups →
  path ∈ snd g1 → path ∈ snd g2 → snd g1 = snd g2.
Proof.
  induction groups as [|g groups IH]; simpl; [by intros _ ?%elem_of_nil|].
  intros (Hg & Hdisj & Hrest)%NoDup_app H1 H2 Hp1 Hp2.
  apply elem_of_cons in H1, H2.
  assert (∀ g', g' ∈ groups → path ∈ snd g' → path ∈ groups ≫= snd) as Hin.
  { intros g' Hg' Hp. apply list_elem_of_bind. eauto. }
  destruct H1 as [->|H1], H2 as [->|H2]; auto.
  - exfalso. eapply Hdisj; eauto.
  - exfalso. eapply Hdisj; eauto.
Qed.

Lemma NoDup_plan target_folders keep_preference
    (groups : list (pystr * list pystr)) :
  NoDup (groups ≫= snd) →
  NoDup (groups ≫= group_deletions target_folders keep_preference).
Proof.
  induction groups as [|g groups IH]; simpl; [constructor|].
  intros (Hg & Hdisj & Hrest)%NoDup_app. apply NoDup_app. split_and!.
  - by apply NoDup_group_deletions.
  - intros path Hp (g' & Hp' & Hg')%list_elem_of_bind.
    apply elem_of_group_deletions in Hp as (Hp & _).
    apply elem_of_group_deletions in Hp' as (Hp' & _).
    eapply Hdisj; [done|]. apply list_elem_of_bind. eauto.
  - auto.
Qed.

(** Each path occurs in at most one duplicate group. *)
Definition in_one_group (duplicates : list (pystr * list pystr)) : Prop :=
  ∀ i j g g' path,
    duplicates !! i = Some g → duplicates !! j = Some g' →
    path ∈ snd g → path ∈ snd g' → i = j.

Lemma in_one_group_tail (g : pystr * list pystr)
    (groups : list (pystr * list pystr)) :
  in_one_group (g :: groups) → in_one_group groups.
Proof.
  intros Hone i j g1 g2 path H1 H2 Hp1 Hp2.
  assert (S i = S j) as Heq by (by eapply (Hone (S i) (S j))).
  by injection Heq.
Qed.

(** Groups that share no path and list no path twice have each path
    once. *)
Lemma in_one_group_NoDup (groups : list (pystr * list pystr)) :
  in_one_group groups → Forall (λ g, NoDup (snd g)) groups →
  NoDup (groups ≫= snd).
Proof.
  induction groups as [|g groups IH]; [constructor|].
  intros Hone [Hg Hrest]%Forall_cons. rewrite bind_cons.
  apply NoDup_app. split_and!; [done| |].
  - intros path Hp (g' & Hp' & [j Hj]%list_elem_of_lookup)%list_elem_of_bind.
    by specialize (Hone 0%nat (S j) g g' path eq_refl Hj Hp Hp').
  - apply IH; [by eapply in_one_group_tail|done].
Qed.

(** C5, as the code has it.  With a keep preference that returns a
    member of the group it is given, [smart_dedupe] returns a plan, every
    path of which starts with one of the target folders.  When each path
    occurs in at most one duplicate group, the kept path of a group is
    not in the plan.  When, moreover, no group has a path twice, no path
    is in the plan twice. *)
Theorem plan_exclusivity (duplicates : list (pystr * list pystr))
    (target_folders : list pystr)
    (keep_preference : option (list pystr → option pystr)) :
  selects_member keep_preference →
  ∃ plan,
    smart_dedupe duplicates target_folders keep_preference = Some plan ∧
    (∀ path, path ∈ plan →
       ∃ tf, tf ∈ target_folders ∧ startswith path tf = true) ∧
    (in_one_group duplicates →
     ∀ hash_val paths keep_path,
       (hash_val, paths) ∈ duplicates → (2 ≤ length paths)%nat →
       keep_path_of keep_preference paths = Some keep_path →
       keep_path ∉ plan) ∧
    (in_one_group duplicates →
     Forall (λ group, NoDup (snd group)) duplicates →
     NoDup plan).
Proof.
  intros Hsel. eexists. split; [by apply smart_dedupe_plan|].
  split_and!.
  - intros path (g & Hdel & Hg)%list_elem_of_bind.
    apply elem_of_group_deletions in Hdel as (_ & Hany & _).
    by apply any_startswith_spec.
  - intros Hone hash_val paths keep_path [i Hi]%list_elem_of_lookup Hlen Hkeep
      (g & Hdel & [j Hj]%list_elem_of_lookup)%list_elem_of_bind.
    apply elem_of_group_deletions in Hdel as (Hp & _ & Hne).
    destruct (Hsel paths Hlen) as (keep' & Hkeep' & Hmem).
    assert (keep' = keep_path) as -> by congruence.
    assert (i = j) as <- by (by eapply (Hone i j (hash_val, paths) g keep_path)).
    assert (g = (hash_val, paths)) as -> by congruence.
    simpl in Hne. congruence.
  - intros Hone Hgroups. apply NoDup_plan. by apply in_one_group_NoDup.
Qed.

(** A catalog with two duplicate groups, deduplicated in
    [/Camera Uploads/] with the preference of the script. *)
Definition example_duplicates : list (pystr * list pystr) :=
  [ (py "h1", [py "/Camera Uploads/a.jpg"; py "/Photos/a.jpg";
               py "/Camera Uploads/a (1).jpg"]);
    (py "h2", [py "/Camera Uploads/b.jpg"; py "/Camera Uploads/b copy.jpg"]) ].

Lemma plan_exclusivity_witness :
  ∃ plan,
    smart_dedupe example_duplicates [py "/Camera Uploads/"]
      (Some camera_uploads_preference) = Some plan ∧
    (∀ path, path ∈ plan →
       ∃ tf, tf ∈ [py "/Camera Uploads/"] ∧ startswith path tf = true) ∧
    (in_one_group example_duplicates →
     ∀ hash_val paths keep_path,
       (hash_val, paths) ∈ example_duplicates → (2 ≤ length paths)%nat →
       keep_path_of (Some camera_uploads_preference) paths = Some keep_path →
       keep_path ∉ plan) ∧
    (in_one_group example_duplicates →
     Forall (λ group, NoDup (snd group)) example_duplicates →
     NoDup plan).
Proof.
  apply (plan_exclusivity example_duplicates [py "/Camera Uploads/"]
           (Some camera_uploads_preference)).
  exact camera_uploads_selects_member.
Defined.

(** The two groups of the example share no path, and none has a path
    twice: the plan has each of its three paths once, and neither
    [/Photos/a.jpg] nor [/Camera Uploads/b copy.jpg], the kept paths. *)
Example example_duplicates_plan :
  in_one_group example_duplicates ∧
  Forall (λ group, NoDup (snd group)) example_duplicates ∧
  smart_dedupe example_duplicates [py "/Camera Uploads/"]
    (Some camera_uploads_preference) =
  Some [py "/Camera Uploads/a.jpg"; py "/Camera Uploads/a (1).jpg";
        py "/Camera Uploads/b.jpg"].
Proof.
  split_and!.
  - intros i j g g' path Hi Hj Hp Hp'.
    destruct i as [|[|i]], j as [|[|j]]; simpl in Hi, Hj; try done;
      injection Hi as <-; injection Hj as <-; simpl in Hp, Hp'; exfalso;
      repeat (apply elem_of_cons in Hp as [->|Hp]);
      try (by apply elem_of_nil in Hp);
      repeat (apply elem_of_cons in Hp' as [Hp'|Hp']);
      try (by apply elem_of_nil in Hp'); vm_compute in Hp'; discriminate.
  - repeat constructor; apply (bool_decide_unpack _); vm_compute; exact I.
  - vm_compute. reflexivity.
Qed.

(** C5, as stated, fails: a group that lists a path twice.  It is the
    only group, so each path occurs in at most one group; the kept path
    is [/t/a]; and [/t/b], which the loop appends at each of its
    occurrences, is in the plan twice. *)
Lemma plan_exclusivity_counterexample :
  let duplicates := [(py "h", [py "/t/b"; py "/t/b"; py "/t/a"])] in
  in_one_group duplicates ∧
  keep_path_of None [py "/t/b"; py "/t/b"; py "/t/a"] = Some (py "/t/a") ∧
  smart_dedupe duplicates [py "/t/"] None = Some [py "/t/b"; py "/t/b"] ∧
  ¬ NoDup [py "/t/b"; py "/t/b"].
Proof.
  cbn zeta. split_and!.
  - intros i j g g' path Hi Hj _ _.
    destruct i as [|i], j as [|j]; simpl in Hi, Hj; done.
  - vm_compute. reflexivity.
  - vm_compute. reflexivity.
  - intros [Hnin _]%NoDup_cons. apply Hnin. left.
Qed.

(** A keep preference that returns a path of another group: the path it
    keeps for the first group is planned with the second. *)
Example stray_keep_is_planned :
  let stray := λ paths : list pystr,
    if bool_decide (py "/t/a" ∈ paths) then Some (py "/t/c")
    else Some (py "/t/d") in
  let duplicates :=
    [(py "h1", [py "/t/a"; py "/t/b"]); (py "h2", [py "/t/c"; py "/t/d"])] in
  keep_path_of (Some stray) [py "/t/a"; py "/t/b"] = Some (py "/t/c") ∧
  smart_dedupe duplicates [py "/t/"] (Some stray) =
  Some [py "/t/a"; py "/t/b"; py "/t/c"].
Proof. split; vm_compute; reflexivity. Qed.

(** C6, as the code has it.  With no target folder, no path matches:
    every group is skipped and the plan is empty, whatever the keep
    preference. *)
Theorem empty_targets_empty_plan (duplicates : list (pystr * list pystr))
    (keep_preference : option (list pystr → option pystr)) :
  smart_dedupe duplicates [] keep_preference = Some [].
Proof.
  unfold smart_dedupe.
  induction duplicates as [|[hash_val paths] duplicates IH]; [done|].
  cbn [smart_dedupe_items].
  destruct (length paths <? 2)%nat; [apply IH|].
  rewrite (filter_none (λ p, Is_true (any_startswith [] p)) paths);
    [apply IH|].
  intros p _ H. exact H.
Qed.

(** C6, as stated, fails: a group of two paths and no target folder.  The
    kept path is [/a/x.txt]; the other member is not planned. *)
Lemma empty_targets_counterexample :
  let paths := [py "/b/x.txt"; py "/a/x.txt"] in
  smart_dedupe [(py "h", paths)] [] None = Some [] ∧
  keep_path_of None paths = Some (py "/a/x.txt") ∧
  py "/b/x.txt" ∈ paths ∧
  py "/b/x.txt" ≠ py "/a/x.txt" ∧
  ¬ (∀ plan, smart_dedupe [(py "h", paths)] [] None = Some plan →
             py "/b/x.txt" ∈ plan).
Proof.
  simpl. split_and!.
  - reflexivity.
  - vm_compute. reflexivity.
  - left.
  - discriminate.
  - intros H. specialize (H [] eq_refl). by apply elem_of_nil in H.
Qed.

(** The empty string as the only target folder is the way to lift the
    restriction: every path starts with it. *)
Lemma empty_string_target_matches (path : pystr) :
  any_startswith [py ""] path = true.
Proof.
  unfold any_startswith. cbn [existsb].
  change (py "") with (@nil N). by rewrite startswith_empty.
Qed.

End SmartDedupeFacts.

(** ** The plan file *)

Module TextFileFacts.
Import TextFile.

(** A code point that UTF-8 encodes: a Unicode scalar value. *)
Definition is_scalar (c : N) : bool := (c <? 0x110000) && negb (is_surrogate c).

Lemma utf8_encode_char_scalar (c : N) :
  is_scalar c = true → is_Some (utf8_encode_char c).
Proof.
  unfold is_scalar, utf8_encode_char. intros [Hlt Hs]%andb_true_iff.
  apply negb_true_iff in Hs. rewrite Hs, Hlt.
  repeat case_match; eauto.
Qed.

Ltac n_cases :=
  repeat match goal with
         | |- context [?a <? ?b] => destruct (N.ltb_spec a b)
         | |- context [?a <=? ?b] => destruct (N.leb_spec a b)
         | H : context [?a <? ?b] |- _ => destruct (N.ltb_spec a b)
         | H : context [?a <=? ?b] |- _ => destruct (N.leb_spec a b)
         end.

(** The digits of [c] in base 64, named and made opaque for [lia]. *)
Local Ltac base64_digits c :=
  let H0 := fresh "Hd0" in
  let H1 := fresh "Hd1" in
  let H2 := fresh "Hd2" in
  assert (c = 64 * (c / 64) + c mod 64) as H0 by apply N.Div0.div_mod;
  assert (c / 64 = 64 * (c / 4096) + (c / 64) mod 64) as H1
    by (rewrite (N.Div0.div_mod (c / 64) 64) at 1;
        rewrite N.Div0.div_div; reflexivity);
  assert (c / 4096 = 64 * (c / 262144) + (c / 4096) mod 64) as H2
    by (rewrite (N.Div0.div_mod (c / 4096) 64) at 1;
        rewrite N.Div0.div_div; reflexivity);
  pose proof (N.mod_lt c 64 ltac:(discriminate));
  pose proof (N.mod_lt (c / 64) 64 ltac:(discriminate));
  pose proof (N.mod_lt (c / 4096) 64 ltac:(discriminate));
  set (r0 := c mod 64) in *; set (q1 := c / 64) in *;
  set (r1 := q1 mod 64) in *; set (q2 := c / 4096) in *;
  set (r2 := q2 mod 64) in *; set (q3 := c / 262144) in *;
  clearbody r0 r1 r2 q3 q2 q1.

(** Decoding undoes the encoding of one character. *)
Lemma utf8_decode_encode_char (c : N) (b rest : bytes) :
  utf8_encode_char c = Some b →
  utf8_decode (b ++ rest) = cons c <$> utf8_decode rest.
Proof.
  unfold utf8_encode_char, is_surrogate.
  destruct (N.ltb_spec c 0x80).
  { intros [= <-]. simpl. destruct (N.ltb_spec c 128); [done | lia]. }
  destruct (N.ltb_spec c 0x800).
  { intros [= <-]. cbn [app utf8_decode]. unfold is_continuation.
    base64_digits c.
    replace (0xC0 + q1 - 0xC0) with q1 by lia.
    replace (0x80 + r0 - 0x80) with r0 by lia.
    replace (q1 * 64 + r0) with c by lia.
    n_cases; simpl; try done; lia. }
  destruct (N.ltb_spec c 0x10000).
  { destruct ((0xD800 <=? c) && (c <? 0xE000)) eqn:Hs; [done|].
    intros [= <-]. cbn [app utf8_decode].
    unfold is_continuation, is_surrogate.
    base64_digits c.
    replace (0xE0 + q2 - 0xE0) with q2 by lia.
    replace (0x80 + r1 - 0x80) with r1 by lia.
    replace (0x80 + r0 - 0x80) with r0 by lia.
    replace (q2 * 4096 + r1 * 64 + r0) with c by lia.
    rewrite Hs.
    n_cases; simpl; try done; lia. }
  destruct (N.ltb_spec c 0x110000); [|done].
  intros [= <-]. cbn [app utf8_decode]. unfold is_continuation.
  base64_digits c.
  replace (0xF0 + q3 - 0xF0) with q3 by lia.
  replace (0x80 + r2 - 0x80) with r2 by lia.
  replace (0x80 + r1 - 0x80) with r1 by lia.
  replace (0x80 + r0 - 0x80) with r0 by lia.
  replace (q3 * 262144 + r2 * 4096 + r1 * 64 + r0) with c by lia.
  n_cases; simpl; try done; lia.
Qed.

Lemma utf8_decode_encode (s : pystr) (bs : bytes) :
  utf8_encode s = Some bs → utf8_decode bs = Some s.
Proof.
  revert bs. induction s as [|c s IH]; intros bs; simpl.
  - by intros [= <-].
  - destruct (utf8_encode_char c) as [b|] eqn:Hc; [|done].
    destruct (utf8_encode s) as [bs'|]; [|done].
    intros [= <-]. rewrite (utf8_decode_encode_char c b bs' Hc).
    by rewrite (IH bs' eq_refl).
Qed.

Lemma utf8_encode_scalar (s : pystr) :
  Forall (λ c, is_scalar c = true) s → is_Some (utf8_encode s).
Proof.
  induction 1 as [|c s Hc _ [bs IH]]; simpl; [eauto|].
  destruct (utf8_encode_char_scalar c Hc) as [b ->]. rewrite IH. eauto.
Qed.

Lemma utf8_encode_app (s t : pystr) :
  utf8_encode (s ++ t) =
  match utf8_encode s, utf8_encode t with
  | Some a, Some b => Some (a ++ b)
  | _, _ => None
  end.
Proof.
  induction s as [|c s IH]; simpl.
  - by destruct (utf8_encode t).
  - rewrite IH. destruct (utf8_encode_char c), (utf8_encode s),
      (utf8_encode t); simpl; try done. by rewrite app_assoc.
Qed.

(** A text without carriage return is read as it is. *)
Lemma universal_newlines_id (t : pystr) :
  13 ∉ t → universal_newlines t = t.
Proof.
  induction t as [|c t IH]; [done|]. intros Hn. simpl.
  apply not_elem_of_cons in Hn as [Hc Ht].
  destruct (N.eqb_spec c 13); [congruence|]. by rewrite IH.
Qed.

Lemma lines_from_line (line p rest : pystr) :
  10 ∉ p →
  lines_from line (p ++ 10 :: rest) = (line ++ p ++ [10]) :: lines_from [] rest.
Proof.
  revert line. induction p as [|c p IH]; intros line Hn; simpl.
  - done.
  - apply not_elem_of_cons in Hn as [Hc Hp].
    destruct (N.eqb_spec c 10); [congruence|].
    rewrite IH by done. by rewrite <- app_assoc.
Qed.

(** The lines of a text made of lines. *)
Lemma lines_from_lines (l : list pystr) :
  Forall (λ p, 10 ∉ p) l →
  lines_from [] (l ≫= λ p, p ++ [10]) = (λ p, p ++ [10]) <$> l.
Proof.
  induction 1 as [|p l Hp _ IH]; [done|].
  rewrite bind_cons, fmap_cons, <- app_assoc. cbn [app].
  rewrite lines_from_line by done. by rewrite IH.
Qed.

Lemma lstrip_head (s : pystr) (c : N) :
  isspace c = false → lstrip (c :: s) = c :: s.
Proof. intros H. simpl. by rewrite H. Qed.

Lemma rstrip_line (p : pystr) (last_ : N) :
  last p = Some last_ → isspace last_ = false → rstrip (p ++ [10]) = p.
Proof.
  intros [p' ->]%last_Some Hl. unfold rstrip.
  rewrite !rev_unit. cbn [lstrip]. change (isspace 10) with true.
  cbn match. rewrite Hl. cbn [rev]. by rewrite rev_involutive.
Qed.

(** [strip] takes the line end off a line that neither starts nor ends
    with white space. *)
Lemma strip_line (p : pystr) (first last_ : N) :
  head p = Some first → last p = Some last_ →
  isspace first = false → isspace last_ = false →
  strip (p ++ [10]) = p.
Proof.
  intros Hh Hl Hf Hla. unfold strip.
  destruct p as [|c p]; [done|]. injection Hh as ->.
  rewrite <- app_comm_cons, lstrip_head by done.
  rewrite app_comm_cons. by apply rstrip_line with last_.
Qed.

End TextFileFacts.

Module PlanFileFacts.
Import PyFacts TextFile TextFileFacts.
Import SmartDedupe BatchDelete.

(** A path the plan file gives back as it is: not empty, no white space
    at either end, no line break inside, and only characters UTF-8
    encodes. *)
Definition plain_path (p : pystr) : bool :=
  match head p, last p with
  | Some first, Some last_ =>
      negb (isspace first) && negb (isspace last_) &&
      forallb (λ c, negb (c =? 10) && negb (c =? 13) && is_scalar c) p
  | _, _ => false
  end.

Lemma plain_path_spec (p : pystr) :
  plain_path p = true →
  ∃ first last_,
    head p = Some first ∧ last p = Some last_ ∧
    isspace first = false ∧ isspace last_ = false ∧
    (10 ∉ p) ∧ (13 ∉ p) ∧ Forall (λ c, is_scalar c = true) p.
Proof.
  unfold plain_path.
  destruct (head p) as [first|]; [|done].
  destruct (last p) as [last_|]; [|done].
  intros [[Hf Hl]%andb_true_iff Hall]%andb_true_iff.
  apply negb_true_iff in Hf, Hl.
  exists first, last_. split_and!; try done.
  - intros Hin%list_elem_of_In. eapply forallb_forall in Hall; [|done].
    discriminate Hall.
  - intros Hin%list_elem_of_In. eapply forallb_forall in Hall; [|done].
    discriminate Hall.
  - apply Forall_forall. intros c Hin%list_elem_of_In.
    eapply forallb_forall in Hall; [|done].
    by apply andb_true_iff in Hall as [_ ?].
Qed.

Lemma write_all_lines (l : list pystr) :
  write_all ((λ path, path ++ [10]) <$> l) =
  utf8_encode (l ≫= λ path, path ++ [10]).
Proof.
  induction l as [|p l IH]; [done|].
  rewrite fmap_cons, bind_cons, utf8_encode_app. cbn [write_all].
  rewrite IH. by destruct (utf8_encode (p ++ [10])), (utf8_encode _).
Qed.

Lemma plan_text_scalar (l : list pystr) :
  Forall (λ p, plain_path p = true) l →
  Forall (λ c, is_scalar c = true) (l ≫= λ path, path ++ [10]).
Proof.
  induction 1 as [|p l Hp _ IH]; [constructor|].
  rewrite bind_cons. apply plain_path_spec in Hp as (?&?&?&?&?&?&?&?&Hs).
  rewrite !Forall_app. split_and!; [done| |done].
  by repeat constructor.
Qed.

Lemma plan_text_no_return (l : list pystr) :
  Forall (λ p, plain_path p = true) l → 13 ∉ l ≫= λ path, path ++ [10].
Proof.
  induction 1 as [|p l Hp _ IH]; [by intros ?%elem_of_nil|].
  rewrite bind_cons. apply plain_path_spec in Hp as (?&?&?&?&?&?&?&H13&?).
  rewrite !elem_of_app, list_elem_of_singleton. intros [[?|?]|?]; done.
Qed.

Lemma strip_plain_lines (l : list pystr) :
  Forall (λ p, plain_path p = true) l →
  strip <$> filter (λ line, strip line ≠ []) ((λ p, p ++ [10]) <$> l) = l.
Proof.
  induction 1 as [|p l Hp _ IH]; [done|].
  pose proof Hp as (first & last_ & Hh & Hl & Hf & Hla & _)%plain_path_spec.
  rewrite fmap_cons.
  assert (strip (p ++ [10]) = p) as Hstrip by eauto using strip_line.
  rewrite filter_cons_True.
  - rewrite fmap_cons, Hstrip. f_equal. exact IH.
  - rewrite Hstrip. intros ->. done.
Qed.

(** C7, as the code has it.  The plan file gives back the paths of the
    plan in sorted order (the writer sorts them), so in the order of the
    plan when the plan is sorted, provided every path is plain:
    [read_paths] strips each line and drops the empty ones.  Spaces
    inside a path and Unicode characters are kept. *)
Theorem plan_file_round_trip (to_delete : list pystr) :
  Forall (λ p, plain_path p = true) to_delete →
  ∃ content,
    write_plan to_delete = Some content ∧
    read_paths content = Some (sorted to_delete) ∧
    length (sorted to_delete) = length to_delete ∧
    (StronglySorted str_le to_delete → sorted to_delete = to_delete).
Proof.
  intros Hplain.
  assert (Forall (λ p, plain_path p = true) (sorted to_delete)) as Hs.
  { by rewrite sorted_permutation. }
  unfold write_plan. rewrite write_all_lines.
  destruct (utf8_encode_scalar _ (plan_text_scalar _ Hs)) as [content Hc].
  exists content. split_and!; [done| |apply length_sorted|].
  - unfold read_paths, read_lines.
    rewrite (utf8_decode_encode _ _ Hc). cbn [mbind option_bind].
    rewrite universal_newlines_id by (by apply plan_text_no_return).
    rewrite lines_from_lines.
    + by rewrite strip_plain_lines.
    + eapply Forall_impl; [exact Hs|]. intros p Hp.
      by apply plain_path_spec in Hp as (?&?&?&?&?&?&?&?&?).
  - intros Hsorted. by apply sorted_unique.
Qed.

(** Two paths with spaces and with characters of two, three and four
    bytes: [/Fotos/été 2024/niño.jpg] and [/日本 😀/a b.txt]. *)
Definition example_plan : list pystr :=
  [ py "/Fotos/" ++ [233; 116; 233] ++ py " 2024/ni" ++ [241] ++ py "o.jpg";
    [47; 0x65E5; 0x672C; 32; 0x1F600] ++ py "/a b.txt" ].

Lemma plan_file_round_trip_witness :
  ∃ content,
    write_plan example_plan = Some content ∧
    read_paths content = Some (sorted example_plan) ∧
    length (sorted example_plan) = length example_plan ∧
    (StronglySorted str_le example_plan → sorted example_plan = example_plan).
Proof.
  apply (plan_file_round_trip example_plan).
  apply (bool_decide_unpack _). vm_compute. exact I.
Defined.

(** C7, as stated, fails on a path that ends with a space (the reader
    strips it) and on a plan that is not sorted (the writer sorts it). *)
Lemma plan_file_counterexample :
  (∃ content,
     write_plan [py "/docs/report "] = Some content ∧
     read_paths content = Some [py "/docs/report"] ∧
     [py "/docs/report"] ≠ [py "/docs/report "]) ∧
  (∃ content,
     write_plan [py "/b.txt"; py "/a.txt"] = Some content ∧
     read_paths content = Some [py "/a.txt"; py "/b.txt"] ∧
     [py "/a.txt"; py "/b.txt"] ≠ [py "/b.txt"; py "/a.txt"]).
Proof.
  split; eexists; (split; [vm_compute; reflexivity|]);
    (split; [vm_compute; reflexivity | discriminate]).
Qed.

End PlanFileFacts.

(** ** The deleters *)

Module ChunkFacts.

Lemma range_step_0 (step : nat) : (0 < step)%nat → range_step 0 step = [].
Proof.
  intros H. unfold range_step.
  replace ((0 + step - 1) / step)%nat with 0%nat; [done|].
  symmetry. apply Nat.div_small. lia.
Qed.

Lemma range_step_pos (total step : nat) :
  (0 < step)%nat → (0 < total)%nat →
  range_step total step =
  0%nat :: ((λ i, step + i)%nat <$> range_step (total - step) step).
Proof.
  intros Hs Ht. unfold range_step.
  assert ((total + step - 1) / step = S ((total - step + step - 1) / step))%nat
    as ->.
  { destruct (decide (total ≤ step)%nat).
    - replace (total - step)%nat with 0%nat by lia.
      replace ((0 + step - 1) / step)%nat with 0%nat
        by (symmetry; apply Nat.div_small; lia).
      replace (total + step - 1)%nat with (total - 1 + 1 * step)%nat by lia.
      rewrite Nat.div_add by lia. rewrite Nat.div_small by lia. done.
    - replace (total + step - 1)%nat
        with (total - step + step - 1 + 1 * step)%nat by lia.
      rewrite Nat.div_add by lia. lia. }
  cbn [seq fmap list_fmap]. f_equal.
  rewrite <- seq_shift, <- !list_fmap_compose.
  apply list_fmap_ext. intros _ k _. simpl. lia.
Qed.

(** The first chunk is the first [batch_size] paths, the others are the
    chunks of the rest. *)
Lemma chunks_cons (batch_size : nat) (paths : list pystr) :
  (0 < batch_size)%nat → paths ≠ [] →
  chunks batch_size paths =
  take batch_size paths :: chunks batch_size (drop batch_size paths).
Proof.
  intros Hs Hp. unfold chunks.
  rewrite range_step_pos; [|done|destruct paths; simpl; [done|lia]].
  rewrite fmap_cons, drop_0. f_equal.
  rewrite <- list_fmap_compose, length_drop.
  apply list_fmap_ext. intros _ i _. simpl. by rewrite drop_drop.
Qed.

Lemma chunks_nil (batch_size : nat) :
  (0 < batch_size)%nat → chunks batch_size [] = [].
Proof. intros H. unfold chunks. simpl. by rewrite range_step_0. Qed.

(** An induction on the chunks of a list. *)
Lemma chunks_ind (batch_size : nat) (P : list pystr → Prop) :
  (0 < batch_size)%nat →
  P [] →
  (∀ paths, paths ≠ [] → P (drop batch_size paths) → P paths) →
  ∀ paths, P paths.
Proof.
  intros Hs Hnil Hstep paths.
  remember (length paths) as n eqn:Hn. revert paths Hn.
  induction n as [n IH] using lt_wf_ind. intros paths ->.
  destruct paths as [|p paths]; [done|].
  apply Hstep; [done|]. eapply IH; [|done].
  rewrite length_drop. simpl. lia.
Qed.

(** The chunks, joined, are the plan. *)
Lemma chunks_concat (batch_size : nat) (paths : list pystr) :
  (0 < batch_size)%nat → concat (chunks batch_size paths) = paths.
Proof.
  intros Hs. pattern paths. apply (chunks_ind batch_size); [done| |].
  - by rewrite chunks_nil.
  - clear paths. intros paths Hne IH.
    rewrite chunks_cons by done. simpl. rewrite IH. apply take_drop.
Qed.

Lemma chunks_subset (batch_size : nat) (paths batch : list pystr) :
  (0 < batch_size)%nat → batch ∈ chunks batch_size paths → batch ⊆ paths.
Proof.
  intros Hs Hin path Hp. rewrite <- (chunks_concat batch_size paths Hs).
  apply list_elem_of_In, in_concat. exists batch.
  split; by apply list_elem_of_In.
Qed.

(** Chunking splits the plan into slices of [batch_size] paths, the last
    one of what is left: the slices, joined, are the plan, and none is
    empty or longer than [batch_size]. *)
Theorem chunks_partition (batch_size : nat) (paths : list pystr) :
  (0 < batch_size)%nat →
  concat (chunks batch_size paths) = paths ∧
  Forall (λ batch, (0 < length batch ≤ batch_size)%nat)
         (chunks batch_size paths).
Proof.
  intros Hs. split; [by apply chunks_concat|].
  pattern paths. apply (chunks_ind batch_size); [done| |].
  - rewrite chunks_nil by done. constructor.
  - clear paths. intros paths Hne IH. rewrite chunks_cons by done.
    constructor; [|done]. rewrite length_take.
    destruct paths; [done|]. simpl. lia.
Qed.

Lemma chunks_partition_witness :
  concat (chunks 2 [py "/a"; py "/b"; py "/c"]) = [py "/a"; py "/b"; py "/c"] ∧
  Forall (λ batch, (0 < length batch ≤ 2)%nat)
         (chunks 2 [py "/a"; py "/b"; py "/c"]).
Proof. apply (chunks_partition 2 [py "/a"; py "/b"; py "/c"]). lia. Defined.

End ChunkFacts.

Module BatchDeleteFacts.
Import ChunkFacts BatchDelete.

Section Client.
Context {W : Type} `{!DeleteClient W}.

(** The paths of the plan are gone from the remote, in every state [gone]
    holds of, and stay so: deleting one raises an [ApiError] whose text
    has [not_found]. *)
Definition already_absent (gone : W → Prop) (plan : list pystr) : Prop :=
  ∀ path w, gone w → path ∈ plan →
    ∃ str_e w', files_delete_v2 path w = (Raises (ApiError str_e), w') ∧
                gone w' ∧
                contains (py "not_found") str_e = true.

(** [n] runs of [batch_delete], one after the other: what each returns. *)
Fixpoint rerun (n : nat) (paths : list pystr) (batch_size : Z) (w : W)
    : list (outcome (nat * nat)) :=
  match n with
  | O => []
  | S n' =>
      let '(r, w') := batch_delete paths batch_size w in
      r :: rerun n' paths batch_size w'
  end.

Lemma delete_paths_absent gone plan batch deleted failed w :
  already_absent gone plan → batch ⊆ plan → gone w →
  ∃ w', delete_paths batch deleted failed w =
        (Done (deleted + length batch, failed)%nat, w') ∧ gone w'.
Proof.
  intros Habs. revert deleted w.
  induction batch as [|path batch IH]; intros deleted w Hsub Hw; simpl.
  - exists w. by rewrite Nat.add_0_r.
  - destruct (Habs path w) as (str_e & w1 & -> & Hw1 & ->);
      [done|apply Hsub; left|].
    destruct (IH (S deleted) w1) as (w' & -> & Hw'); [|done|].
    + intros p Hp. apply Hsub. by right.
    + exists w'. split; [|done]. do 2 f_equal. f_equal. lia.
Qed.

Lemma delete_batches_absent gone plan batches deleted failed w :
  already_absent gone plan → Forall (λ batch, batch ⊆ plan) batches →
  gone w →
  ∃ w', delete_batches batches deleted failed w =
        (Done (deleted + length (concat batches), failed)%nat, w') ∧ gone w'.
Proof.
  intros Habs Hall. revert deleted w.
  induction Hall as [|batch batches Hb _ IH]; intros deleted w Hw; simpl.
  - exists w. by rewrite Nat.add_0_r.
  - destruct (delete_paths_absent gone plan batch deleted failed w)
      as (w1 & -> & Hw1); [done..|].
    destruct (IH (deleted + length batch)%nat w1) as (w' & -> & Hw'); [done|].
    exists w'. split; [|done]. rewrite length_app. do 2 f_equal. f_equal. lia.
Qed.

Lemma batch_delete_absent gone plan batch_size w :
  (0 < batch_size)%Z → already_absent gone plan → gone w →
  ∃ w', batch_delete plan batch_size w = (Done (length plan, 0%nat), w') ∧
        gone w'.
Proof.
  intros Hs Habs Hw. unfold batch_delete.
  destruct (Z.eqb_spec batch_size 0); [lia|].
  destruct (Z.ltb_spec batch_size 0); [lia|].
  destruct (delete_batches_absent gone plan
              (chunks (Z.to_nat batch_size) plan) 0 0 w)
    as (w' & -> & Hw'); [done| |done|].
  - apply Forall_forall. intros batch Hb.
    eapply chunks_subset; [|done]. lia.
  - exists w'. rewrite chunks_concat by lia. done.
Qed.

Lemma rerun_absent gone n plan batch_size w :
  (0 < batch_size)%Z → already_absent gone plan → gone w →
  rerun n plan batch_size w = replicate n (Done (length plan, 0%nat)).
Proof.
  intros Hs Habs. revert w. induction n as [|n IH]; intros w Hw; simpl;
    [done|].
  destruct (batch_delete_absent gone plan batch_size w) as (w' & -> & Hw');
    [done..|].
  by rewrite IH.
Qed.

End Client.

End BatchDeleteFacts.

Module BatchDeleteFastFacts.
Import ChunkFacts BatchDeleteFast.

Section Client.
Context {W : Type} `{!BatchClient W} `{!StrLower}.

(** The batches submitted, in order. *)
Definition submitted (evs : list event) : list (list pystr) :=
  omap (λ ev, match ev with Submitted batch => Some batch | _ => None end) evs.

(** An entry that fails because the target is no longer there. *)
Definition absent_entry (entry : DeleteBatchResultEntry) : Prop :=
  ∃ error, entry = EntryFailure error ∧
           contains (py "not_found") (lower error) = true.

(** The job [async_job_id] is in progress for [n] polls and complete, with
    [entries], at the next. *)
Inductive job_completes (async_job_id : pystr)
    : nat → W → list DeleteBatchResultEntry → W → Prop :=
| job_complete w entries w' :
    files_delete_batch_check async_job_id w = (Returns (JobComplete entries), w') →
    job_completes async_job_id 0 w entries w'
| job_in_progress n w w1 entries w' :
    files_delete_batch_check async_job_id w = (Returns JobInProgress, w1) →
    job_completes async_job_id n w1 entries w' →
    job_completes async_job_id (S n) w entries w'.

(** The batch is answered with [entries], at once or by a job that
    completes within [fuel] polls. *)
Inductive answered (fuel : nat) (batch : list pystr) (w : W)
    (entries : list DeleteBatchResultEntry) (w' : W) : Prop :=
| answered_at_once :
    files_delete_batch batch w = (Returns (Some (LaunchComplete entries)), w') →
    answered fuel batch w entries w'
| answered_by_job async_job_id w1 n :
    files_delete_batch batch w = (Returns (Some (LaunchAsyncJobId async_job_id)), w1) →
    job_completes async_job_id n w1 entries w' → (n < fuel)%nat →
    answered fuel batch w entries w'.

(** The paths of the plan are gone from the remote, in every state [gone]
    holds of, and stay so: every batch of them is answered with one
    [not_found] failure for each path. *)
Definition answers_absent (fuel : nat) (gone : W → Prop) (plan : list pystr)
    : Prop :=
  ∀ batch w, gone w → batch ⊆ plan →
    ∃ entries w', answered fuel batch w entries w' ∧ gone w' ∧
                  length entries = length batch ∧
                  Forall absent_entry entries.

(** [n] runs of [batch_delete_fast], one after the other. *)
Fixpoint rerun_fast (n fuel : nat) (paths : list pystr) (batch_size : Z)
    (w : W) : list (outcome W) :=
  match n with
  | O => []
  | S n' =>
      let r := batch_delete_fast fuel paths batch_size w in
      r :: match r with
           | Done st | Raised _ st => rerun_fast n' fuel paths batch_size (world st)
           | Diverges => []
           end
  end.

Lemma process_entries_counted idx entries paths deleted :
  Forall (λ entry, entry = EntrySuccess ∨ absent_entry entry) entries →
  (idx + length entries ≤ length paths)%nat →
  process_entries idx entries paths deleted = Some (deleted + length entries)%nat.
Proof.
  intros Hall. revert idx deleted.
  induction Hall as [|entry entries He _ IH]; intros idx deleted Hlen; simpl.
  - by rewrite Nat.add_0_r.
  - simpl in Hlen.
    destruct He as [->|(error & -> & ->)].
    + rewrite IH by lia. f_equal. lia.
    + destruct (lookup_lt_is_Some_2 paths idx) as [p ->]; [lia|].
      rewrite IH by lia. f_equal. lia.
Qed.

Lemma process_batch_result_counted entries paths :
  Forall (λ entry, entry = EntrySuccess ∨ absent_entry entry) entries →
  (length entries ≤ length paths)%nat →
  process_batch_result entries paths = Some (length entries).
Proof.
  intros. unfold process_batch_result.
  by rewrite process_entries_counted.
Qed.

Lemma poll_completes fuel async_job_id batch n w entries w' st :
  job_completes async_job_id n w entries w' → (n < fuel)%nat →
  world st = w →
  ∃ evs, poll fuel async_job_id batch st =
         count_result entries batch
           (State (deleted st) (failed st) (events st ++ evs) w') ∧
         submitted evs = [].
Proof.
  intros Hjob. revert fuel st.
  induction Hjob as [w entries w' Hc|n w w1 entries w' Hc _ IH];
    intros fuel st Hlt <-; (destruct fuel as [|fuel]; [lia|]); simpl.
  - rewrite Hc. exists [Slept 1; Polled async_job_id].
    split; [|done]. unfold set_world, log. simpl.
    by rewrite <- app_assoc.
  - rewrite Hc.
    edestruct (IH fuel) as (evs & -> & Hsub); [lia|reflexivity|].
    exists ([Slept 1; Polled async_job_id] ++ evs). split.
    + simpl. do 2 f_equal. by rewrite <- !app_assoc.
    + done.
Qed.

(** A batch of absent paths adds its length to [deleted] and nothing to
    [failed]. *)
Lemma one_batch_absent fuel gone plan batch_num num_batches batch st :
  answers_absent fuel gone plan → batch ⊆ plan → gone (world st) →
  ∃ st', one_batch fuel batch_num num_batches batch st = Done st' ∧
         deleted st' = (deleted st + length batch)%nat ∧
         failed st' = failed st ∧ gone (world st').
Proof.
  intros Habs Hsub Hw.
  destruct (Habs batch (world st) Hw Hsub)
    as (entries & w' & Hans & Hw' & Hlen & Hall).
  assert (process_batch_result entries batch = Some (length batch)) as Hcount.
  { rewrite <- Hlen. apply process_batch_result_counted; [|lia].
    eapply Forall_impl; [done|]. auto. }
  unfold one_batch, try_batch. simpl.
  destruct Hans as [Hnow|async_job_id w1 n Hlater Hjob Hn].
  - rewrite Hnow. unfold count_result. rewrite Hcount.
    destruct (batch_num <? num_batches)%Z; eexists; split; done.
  - rewrite Hlater.
    edestruct (poll_completes fuel async_job_id batch n w1 entries w')
      as (evs & -> & _); [done..|reflexivity|].
    unfold count_result. rewrite Hcount.
    destruct (batch_num <? num_batches)%Z; eexists; split; done.
Qed.

Lemma batches_from_absent fuel gone plan paths batch_size num_batches
    starts st :
  answers_absent fuel gone plan →
  Forall (λ i, take batch_size (drop i paths) ⊆ plan) starts →
  gone (world st) →
  ∃ st', batches_from fuel paths batch_size num_batches starts st = Done st' ∧
         deleted st' =
           (deleted st +
            length (concat ((λ i, take batch_size (drop i paths)) <$> starts)))%nat ∧
         failed st' = failed st ∧ gone (world st').
Proof.
  intros Habs Hall. revert st.
  induction Hall as [|i starts Hi _ IH]; intros st Hw; simpl.
  - eexists. split; [done|]. split; [simpl; lia|done].
  - edestruct (one_batch_absent fuel gone plan) as (st1 & -> & Hd1 & Hf1 & Hw1);
      [done..|].
    destruct (IH st1 Hw1) as (st' & -> & Hd & Hf & Hw').
    eexists. split; [done|]. rewrite Hd, Hd1, Hf, Hf1, length_app.
    split; [|done]. rewrite <- Nat.add_assoc. done.
Qed.

Lemma batch_delete_fast_absent fuel gone plan batch_size w :
  (0 < batch_size)%Z → answers_absent fuel gone plan → gone w →
  ∃ st, batch_delete_fast fuel plan batch_size w = Done st ∧
        deleted st = length plan ∧ failed st = 0%nat ∧ gone (world st).
Proof.
  intros Hs Habs Hw. unfold batch_delete_fast.
  destruct (Z.eqb_spec batch_size 0); [lia|].
  destruct (Z.ltb_spec batch_size 0); [lia|].
  edestruct (batches_from_absent fuel gone plan plan)
    as (st & -> & Hd & Hf & Hw'); [done| |exact Hw|].
  - apply Forall_forall. intros i Hi.
    apply (chunks_subset (Z.to_nat batch_size)); [lia|].
    unfold chunks. apply list_elem_of_fmap. eauto.
  - exists st. split; [done|]. rewrite Hd, Hf. simpl.
    change (_ <$> range_step _ _) with (chunks (Z.to_nat batch_size) plan).
    rewrite chunks_concat by lia. done.
Qed.

Lemma rerun_fast_absent n fuel gone plan batch_size w :
  (0 < batch_size)%Z → answers_absent fuel gone plan → gone w →
  length (rerun_fast n fuel plan batch_size w) = n ∧
  Forall (λ r, ∃ st, r = Done st ∧ deleted st = length plan ∧
                     failed st = 0%nat)
         (rerun_fast n fuel plan batch_size w).
Proof.
  intros Hs Habs. revert w. induction n as [|n IH]; intros w Hw; simpl.
  - split; [done|constructor].
  - destruct (batch_delete_fast_absent fuel gone plan batch_size w)
      as (st & -> & Hd & Hf & Hw'); [done..|].
    destruct (IH (world st) Hw') as [Hlen Hall].
    split; [by rewrite Hlen|]. constructor; eauto.
Qed.

(** *** Every chunk is submitted *)

(** No batch goes on for ever, and none raises anything but an
    [ApiError]. *)
Definition settles (fuel : nat) : Prop :=
  ∀ batch_num num_batches batch st,
    match try_batch fuel batch_num num_batches batch st with
    | Done _ | Raised (ApiError _) _ => True
    | Raised _ _ | Diverges => False
    end.

(** A property of the state a piece of the script ends in. *)
Definition ends_with (P : state W → Prop) (r : outcome W) : Prop :=
  match r with
  | Done st | Raised _ st => P st
  | Diverges => True
  end.

Lemma submitted_app (evs evs' : list event) :
  submitted (evs ++ evs') = submitted evs ++ submitted evs'.
Proof. apply omap_app. Qed.

Lemma count_result_ends entries batch st :
  ends_with (λ st', events st' = events st)
    (count_result entries batch st).
Proof. unfold count_result. by destruct (process_batch_result _ _). Qed.

Lemma poll_submitted fuel async_job_id batch st :
  ends_with (λ st', submitted (events st') = submitted (events st))
    (poll fuel async_job_id batch st).
Proof.
  revert st. induction fuel as [|fuel IH]; intros st; simpl; [done|].
  destruct (files_delete_batch_check _ _) as [[check|e] w]; simpl.
  - destruct check as [entries| |].
    + pose proof (count_result_ends entries batch
        (set_world w (log (Polled async_job_id) (log (Slept 1) st)))) as H'.
      destruct (count_result _ _ _); simpl in *; try done;
        rewrite H', !submitted_app; simpl; by rewrite !app_nil_r.
    + simpl. rewrite !submitted_app. simpl. by rewrite !app_nil_r.
    + specialize (IH (set_world w (log (Polled async_job_id) (log (Slept 1) st)))).
      destruct (poll _ _ _ _); simpl in *; try done;
        rewrite IH, !submitted_app; simpl; by rewrite !app_nil_r.
  - rewrite !submitted_app. simpl. by rewrite !app_nil_r.
Qed.

(** A batch, however it ends, is submitted once. *)
Lemma try_batch_submitted fuel batch_num num_batches batch st :
  ends_with (λ st', submitted (events st') = submitted (events st) ++ [batch])
    (try_batch fuel batch_num num_batches batch st).
Proof.
  unfold try_batch.
  destruct (files_delete_batch _ _) as [[result|e] w]; simpl.
  - assert (ends_with
              (λ st', submitted (events st') = submitted (events st) ++ [batch])
              match result with
              | Some (LaunchComplete entries) =>
                  count_result entries batch
                    (set_world w (log (Submitted batch) st))
              | Some (LaunchAsyncJobId async_job_id) =>
                  poll fuel async_job_id batch
                    (set_world w (log (Submitted batch) st))
              | Some LaunchOther | None =>
                  Done (set_world w (log (Submitted batch) st))
              end) as Hhandled.
    { destruct result as [[entries|async_job_id|]|].
      - pose proof (count_result_ends entries batch
          (set_world w (log (Submitted batch) st))) as H'.
        destruct (count_result _ _ _); simpl in *; try done;
          by rewrite H', submitted_app.
      - pose proof (poll_submitted fuel async_job_id batch
          (set_world w (log (Submitted batch) st))) as H'.
        destruct (poll _ _ _ _); simpl in *; try done;
          by rewrite H', submitted_app.
      - simpl. by rewrite submitted_app.
      - simpl. by rewrite submitted_app. }
    destruct (match result with Some _ => _ | None => _ end); simpl in *;
      try done.
    destruct (batch_num <? num_batches)%Z; simpl; [|done].
    rewrite submitted_app, Hhandled. simpl. by rewrite app_nil_r.
  - by rewrite submitted_app.
Qed.

Lemma one_batch_settles fuel batch_num num_batches batch st :
  settles fuel →
  ∃ st', one_batch fuel batch_num num_batches batch st = Done st' ∧
         submitted (events st') = submitted (events st) ++ [batch].
Proof.
  intros Hsettles. unfold one_batch.
  pose proof (Hsettles batch_num num_batches batch st) as Hs.
  pose proof (try_batch_submitted fuel batch_num num_batches batch st) as He.
  destruct (try_batch _ _ _ _ _) as [st'|e st'|]; simpl in *; [eauto| |done].
  destruct e; try done. eexists. split; [done|].
  simpl. rewrite submitted_app, He. simpl. by rewrite app_nil_r.
Qed.

Lemma batches_from_settles fuel paths batch_size num_batches starts st :
  settles fuel →
  ∃ st', batches_from fuel paths batch_size num_batches starts st = Done st' ∧
         submitted (events st') =
         submitted (events st) ++
         ((λ i, take batch_size (drop i paths)) <$> starts).
Proof.
  intros Hsettles. revert st.
  induction starts as [|i starts IH]; intros st; simpl.
  - exists st. by rewrite app_nil_r.
  - destruct (one_batch_settles fuel
                (Z.of_nat i / Z.of_nat batch_size + 1) num_batches
                (take batch_size (drop i paths)) st Hsettles)
      as (st1 & -> & H1).
    destruct (IH st1) as (st' & -> & H').
    exists st'. split; [done|]. rewrite H', H1. by rewrite <- app_assoc.
Qed.

(** A submission that raises an [ApiError]: the batch is counted as
    failed, the deleter sleeps five seconds, and the loop goes on. *)
Lemma one_batch_api_error fuel batch_num num_batches batch st str_e w' :
  files_delete_batch batch (world st) = (Raises (ApiError str_e), w') →
  one_batch fuel batch_num num_batches batch st =
  Done (State (deleted st) (failed st + length batch)
              (events st ++ [Submitted batch; Slept 5]) w').
Proof.
  intros Hraise. unfold one_batch, try_batch. simpl. rewrite Hraise.
  unfold log, add_failed, set_world. simpl. by rewrite <- app_assoc.
Qed.

(** A batch that ends normally and is not the last is followed by a
    sleep of two seconds. *)
Lemma try_batch_delay fuel batch_num num_batches batch st st' :
  try_batch fuel batch_num num_batches batch st = Done st' →
  (batch_num <? num_batches)%Z = true →
  last (events st') = Some (Slept 2).
Proof.
  unfold try_batch. intros Htry Hlt.
  destruct (files_delete_batch _ _) as [[result|e] w]; [|done].
  destruct (match result with Some _ => _ | None => _ end); try done.
  rewrite Hlt in Htry. injection Htry as <-. simpl. apply last_snoc.
Qed.

End Client.

End BatchDeleteFastFacts.

Module DeleterClaims.
Import ChunkFacts BatchDelete BatchDeleteFast.
Import BatchDeleteFacts BatchDeleteFastFacts Remotes.

(** C4.  Idempotent deletion.  A failure whose text has [not_found] is
    counted as deleted, by [process_batch_result] for every batch and by
    [batch_delete] for every path.  So on a plan whose paths are all gone
    from the remote, each of [n] successive runs of either deleter returns
    [deleted = len(plan)] and [failed = 0]. *)
Theorem idempotent_deletion {W1 W2 : Type} `{!DeleteClient W1}
    `{!BatchClient W2} `{!StrLower}
    (gone1 : W1 → Prop) (gone2 : W2 → Prop) (plan : list pystr)
    (batch_size batch_size' : Z) (fuel n : nat) (w1 : W1) (w2 : W2) :
  (0 < batch_size)%Z → (0 < batch_size')%Z →
  already_absent gone1 plan → gone1 w1 →
  answers_absent fuel gone2 plan → gone2 w2 →
  (∀ entries paths,
     Forall (λ entry, entry = EntrySuccess ∨ absent_entry entry) entries →
     (length entries ≤ length paths)%nat →
     process_batch_result entries paths = Some (length entries)) ∧
  rerun n plan batch_size w1 =
    replicate n (BatchDelete.Done (length plan, 0%nat)) ∧
  length (rerun_fast n fuel plan batch_size' w2) = n ∧
  Forall (λ r, ∃ st, r = Done st ∧ deleted st = length plan ∧
                     failed st = 0%nat)
         (rerun_fast n fuel plan batch_size' w2).
Proof.
  intros Hs Hs' Habs1 Hw1 Habs2 Hw2. split_and!.
  - apply process_batch_result_counted.
  - by apply (rerun_absent gone1).
  - by apply (rerun_fast_absent n fuel gone2).
  - by apply (rerun_fast_absent n fuel gone2).
Qed.

(** A plan of three paths, none of which the remote holds. *)
Definition gone_plan : list pystr :=
  [py "/old/a.txt"; py "/old/b.txt"; py "/old/c.txt"].

Definition gone_from (plan w : list pystr) : Prop := ∀ path, path ∈ plan → path ∉ w.

Lemma store_already_absent (plan : list pystr) :
  @already_absent _ store_delete_client (gone_from plan) plan.
Proof.
  intros path w Hw Hin. exists not_found_error, w.
  unfold files_delete_v2, store_delete_client.
  destruct (decide (path ∈ w)) as [Hp|_]; [by apply Hw in Hp|].
  split_and!; [done..|]. vm_compute. reflexivity.
Qed.

Lemma store_answers_absent (fuel : nat) (plan : list pystr) :
  @answers_absent _ store_batch_client ascii_lower fuel (gone_from plan) plan.
Proof.
  intros batch w Hw Hsub. eexists _, _. split_and!.
  - by apply answered_at_once.
  - intros path Hin Hp. apply list_elem_of_filter in Hp as [_ Hp].
    by apply (Hw path).
  - by rewrite length_fmap.
  - apply Forall_fmap, Forall_forall. intros path Hin. simpl.
    destruct (decide (path ∈ w)) as [Hp|_]; [by apply Hw in Hp; [|auto]|].
    exists not_found_error. split; [done|]. vm_compute. reflexivity.
Qed.

Lemma idempotent_deletion_witness :
  (∀ entries paths,
     Forall (λ entry, entry = EntrySuccess ∨
                      @absent_entry ascii_lower entry) entries →
     (length entries ≤ length paths)%nat →
     @process_batch_result ascii_lower entries paths = Some (length entries)) ∧
  @rerun _ store_delete_client 3 gone_plan 100 [py "/new/d.txt"] =
    replicate 3 (BatchDelete.Done (3%nat, 0%nat)) ∧
  length (@rerun_fast _ store_batch_client ascii_lower 3 0 gone_plan 2
            [py "/new/d.txt"]) = 3%nat ∧
  Forall (λ r, ∃ st, r = Done st ∧ deleted st = 3%nat ∧ failed st = 0%nat)
         (@rerun_fast _ store_batch_client ascii_lower 3 0 gone_plan 2
            [py "/new/d.txt"]).
Proof.
  apply (@idempotent_deletion _ _ store_delete_client store_batch_client
           ascii_lower (gone_from gone_plan) (gone_from gone_plan)
           gone_plan 100 2 0 3 [py "/new/d.txt"] [py "/new/d.txt"]).
  - lia.
  - lia.
  - apply store_already_absent.
  - intros path Hin Hp. apply list_elem_of_singleton in Hp. subst path.
    revert Hin. apply (bool_decide_unpack _). vm_compute. exact I.
  - apply store_answers_absent.
  - intros path Hin Hp. apply list_elem_of_singleton in Hp. subst path.
    revert Hin. apply (bool_decide_unpack _). vm_compute. exact I.
Defined.

End DeleterClaims.

(** ** catalog-dropbox.py: the crawl *)

Module CrawlFacts.
Import Catalog.

Section Crawler.
Context {W : Type} `{!ListClient W} `{!Json} `{!StrLower}.

(** The files and the folders of a list of entries, as the crawl
    accumulates them. *)
Definition files_in (entries : list Metadata) : list FileInfo :=
  omap (λ entry,
          match entry with
          | FileMetadata path_display name size client_modified content_hash =>
              Some (file_info path_display name size client_modified content_hash)
          | _ => None
          end) entries.

Definition folders_in (entries : list Metadata) : list FolderInfo :=
  omap (λ entry,
          match entry with
          | FolderMetadata path_display name =>
              Some {| folder_path := path_display; folder_name := name |}
          | _ => None
          end) entries.

(** The first fetch of a crawl. *)
Definition first_fetch (path : pystr) (resume_checkpoint : option Checkpoint)
    (w : W) : reply ListFolderResult * W :=
  match resume_checkpoint with
  | Some checkpoint => files_list_folder_continue (cp_cursor checkpoint) w
  | None => files_list_folder path w
  end.

(** What a crawl starts from. *)
Definition resumed_files (resume_checkpoint : option Checkpoint) : list FileInfo :=
  match resume_checkpoint with
  | Some checkpoint => cp_files checkpoint
  | None => []
  end.

Definition resumed_folders (resume_checkpoint : option Checkpoint)
    : list FolderInfo :=
  match resume_checkpoint with
  | Some checkpoint => cp_folders checkpoint
  | None => []
  end.

(** [follows w result pages ending w']: with [result] in hand and the
    remote in state [w], the listing goes through [pages], of which
    [result] is the first, and ends with the last page ([None]) or with a
    fetch that raises ([Some e]), the remote in state [w']. *)
Inductive follows (w : W) (result : ListFolderResult)
    : list ListFolderResult → option raised → W → Prop :=
| follows_last :
    has_more result = false →
    follows w result [result] None w
| follows_raise e w' :
    has_more result = true →
    files_list_folder_continue (cursor result) w = (Raises e, w') →
    follows w result [result] (Some e) w'
| follows_next result' w1 pages ending w' :
    has_more result = true →
    files_list_folder_continue (cursor result) w = (Returns result', w1) →
    follows w1 result' pages ending w' →
    follows w result (result :: pages) ending w'.

(** The same from the first fetch, which may raise too. *)
Inductive crawls (path : pystr) (resume_checkpoint : option Checkpoint) (w : W)
    : list ListFolderResult → option raised → W → Prop :=
| crawls_raise e w' :
    first_fetch path resume_checkpoint w = (Raises e, w') →
    crawls path resume_checkpoint w [] (Some e) w'
| crawls_pages result w1 pages ending w' :
    first_fetch path resume_checkpoint w = (Returns result, w1) →
    follows w1 result pages ending w' →
    crawls path resume_checkpoint w pages ending w'.

Lemma files_in_app (es es' : list Metadata) :
  files_in (es ++ es') = files_in es ++ files_in es'.
Proof. apply omap_app. Qed.

Lemma folders_in_app (es es' : list Metadata) :
  folders_in (es ++ es') = folders_in es ++ folders_in es'.
Proof. apply omap_app. Qed.

(** A page adds its files and its folders, and leaves the remote as it
    is. *)
Lemma absorb_accumulates (result_cursor : pystr) (entries : list Metadata)
    (st : crawl W) :
  all_files (absorb result_cursor entries st) =
    all_files st ++ files_in entries ∧
  all_folders (absorb result_cursor entries st) =
    all_folders st ++ folders_in entries ∧
  world (absorb result_cursor entries st) = world st.
Proof.
  revert st. induction entries as [|entry entries IH]; intros st.
  - simpl. by rewrite !app_nil_r.
  - destruct entry as [pd n s m h|pd n|pd n]; cbn [absorb].
    + cbn [all_files all_folders checkpoint_file world].
      set (st1 := Crawl (all_files st ++ [file_info pd n s m h])
                    (all_folders st) (checkpoint_file st) (world st)).
      assert (∀ st2, all_files st2 = all_files st1 →
                     all_folders st2 = all_folders st1 →
                     world st2 = world st1 →
                all_files (absorb result_cursor entries st2) =
                  all_files st ++ files_in (FileMetadata pd n s m h :: entries) ∧
                all_folders (absorb result_cursor entries st2) =
                  all_folders st ++
                  folders_in (FileMetadata pd n s m h :: entries) ∧
                world (absorb result_cursor entries st2) = world st) as Hany.
      { intros st2 E1 E2 E3. destruct (IH st2) as (Hf & Hd & Hw).
        rewrite Hf, Hd, Hw, E1, E2, E3. simpl. by rewrite <- app_assoc. }
      destruct (_ =? 0)%Z; [destruct result_cursor|]; by apply Hany.
    + destruct (IH (Crawl (all_files st)
                      (all_folders st ++
                         [{| folder_path := pd; folder_name := n |}])
                      (checkpoint_file st) (world st))) as (Hf & Hd & Hw).
      rewrite Hf, Hd, Hw. simpl. by rewrite <- app_assoc.
    + destruct (IH st) as (Hf & Hd & Hw). by rewrite Hf, Hd, Hw.
Qed.

Lemma last_cons_cons {A} (x y : A) (l : list A) :
  last (x :: y :: l) = last (y :: l).
Proof. done. Qed.

Lemma follows_nonempty w result pages ending w' :
  follows w result pages ending w' → ∃ pages', pages = result :: pages'.
Proof. destruct 1; eauto. Qed.

(** The loop goes through the pages of the listing and ends as the
    listing does, with the files and folders of all the pages. *)
Lemma scan_follows fuel w result pages ending w' st :
  follows w result pages ending w' → (length pages ≤ fuel)%nat →
  world st = w →
  ∃ f',
    scan fuel result st =
    let st' :=
      Crawl (all_files st ++ files_in (pages ≫= entries))
            (all_folders st ++ folders_in (pages ≫= entries)) f' w' in
    match ending with
    | None => ScanComplete st'
    | Some e => ScanRaised e (last pages) st'
    end.
Proof.
  intros Hfollows. revert fuel st.
  induction Hfollows as [w result Hmore|w result e w' Hmore Hfetch
                        |w result result' w1 pages ending w' Hmore Hfetch Hnext IH];
    intros fuel st Hfuel Hw; (destruct fuel as [|fuel]; [simpl in Hfuel; lia|]);
    cbn [scan];
    destruct (absorb_accumulates (cursor result) (entries result) st)
      as (Hf & Hd & Hw1);
    rewrite Hmore; cbn [negb].
  - exists (checkpoint_file (absorb (cursor result) (entries result) st)).
    change ([result] ≫= entries) with (entries result ++ []).
    cbn zeta. rewrite !app_nil_r, <- Hf, <- Hd, <- Hw, <- Hw1.
    by destruct (absorb _ _ _).
  - rewrite Hw1, Hw, Hfetch.
    exists (checkpoint_file (absorb (cursor result) (entries result) st)).
    change ([result] ≫= entries) with (entries result ++ []).
    cbn zeta. by rewrite !app_nil_r, <- Hf, <- Hd.
  - rewrite Hw1, Hw, Hfetch.
    edestruct (IH fuel) as (f' & ->); [simpl in Hfuel; lia|reflexivity|].
    exists f'. cbn [all_files all_folders].
    rewrite bind_cons, files_in_app, folders_in_app, Hf, Hd, <- !app_assoc.
    destruct (follows_nonempty _ _ _ _ _ Hnext) as [pages' ->].
    by rewrite last_cons_cons.
Qed.

(** The [try] block goes through the pages of the crawl. *)
Lemma try_scan_crawls fuel path resume_checkpoint f w pages ending w' :
  crawls path resume_checkpoint w pages ending w' →
  (length pages ≤ fuel)%nat →
  ∃ f',
    (pages = [] → f' = f) ∧
    try_scan fuel path resume_checkpoint f w =
    let st' :=
      Crawl (resumed_files resume_checkpoint ++ files_in (pages ≫= entries))
            (resumed_folders resume_checkpoint ++
             folders_in (pages ≫= entries)) f' w' in
    match ending with
    | None => ScanComplete st'
    | Some e => ScanRaised e (last pages) st'
    end.
Proof.
  intros Hcrawl Hfuel.
  destruct Hcrawl as [e w' Hfirst|result w1 pages ending w' Hfirst Hfollows].
  - exists f. split; [done|]. unfold try_scan.
    destruct resume_checkpoint as [checkpoint|]; simpl in *;
      rewrite Hfirst; by rewrite ?app_nil_r.
  - unfold try_scan.
    destruct resume_checkpoint as [checkpoint|]; simpl in Hfirst;
      rewrite Hfirst.
    + destruct (scan_follows fuel w1 result pages ending w'
                  (Crawl (cp_files checkpoint) (cp_folders checkpoint) f w1))
        as (f' & ->); [done..|].
      exists f'. split; [|done].
      by destruct (follows_nonempty _ _ _ _ _ Hfollows) as [? ->].
    + destruct (scan_follows fuel w1 result pages ending w' (Crawl [] [] f w1))
        as (f' & ->); [done..|].
      exists f'. split; [|done].
      by destruct (follows_nonempty _ _ _ _ _ Hfollows) as [? ->].
Qed.

(** A crawl that goes through all the pages returns their files and
    folders, after those it resumed from, and clears the checkpoint. *)
Lemma get_folder_stats_complete fuel path resume_checkpoint f w pages w' :
  crawls path resume_checkpoint w pages None w' →
  (length pages ≤ fuel)%nat →
  get_folder_stats fuel path resume_checkpoint f w =
  (Returned (resumed_files resume_checkpoint ++ files_in (pages ≫= entries))
            (resumed_folders resume_checkpoint ++
             folders_in (pages ≫= entries)),
   None, w').
Proof.
  intros Hcrawl Hfuel. unfold get_folder_stats.
  by destruct (try_scan_crawls fuel path resume_checkpoint f w pages None w')
    as (f' & _ & ->).
Qed.

(** A crawl that a fetch error ends returns the empty pair.  When a page
    had been fetched, and its cursor is not empty, the checkpoint file
    holds that cursor and what was accumulated; when none had, the file
    is as it was. *)
Lemma get_folder_stats_raised fuel path resume_checkpoint f w pages e w' :
  crawls path resume_checkpoint w pages (Some e) w' →
  e ≠ KeyboardInterrupt →
  (length pages ≤ fuel)%nat →
  (∀ result, last pages = Some result → cursor result ≠ []) →
  get_folder_stats fuel path resume_checkpoint f w =
  (Returned [] [],
   match last pages with
   | Some result =>
       Some (json_dump
               (checkpoint_of (cursor result) (now_isoformat w')
                  (resumed_files resume_checkpoint ++
                   files_in (pages ≫= entries))
                  (resumed_folders resume_checkpoint ++
                   folders_in (pages ≫= entries))))
   | None => f
   end,
   w').
Proof.
  intros Hcrawl He Hfuel Hcursor. unfold get_folder_stats.
  destruct (try_scan_crawls fuel path resume_checkpoint f w pages (Some e) w')
    as (f' & Hf' & ->); [done..|]. cbn zeta.
  destruct (last pages) as [result|] eqn:Hlast.
  - specialize (Hcursor result eq_refl).
    destruct (cursor result) as [|c cur] eqn:Hc; [done|].
    by destruct e.
  - apply last_None in Hlast. rewrite (Hf' Hlast). by destruct e.
Qed.

(** An interrupt is not caught: the file is as the last checkpoint of
    the loop left it. *)
Lemma get_folder_stats_interrupted fuel path resume_checkpoint f w pages w' :
  crawls path resume_checkpoint w pages (Some KeyboardInterrupt) w' →
  (length pages ≤ fuel)%nat →
  ∃ f', get_folder_stats fuel path resume_checkpoint f w =
        (Propagated KeyboardInterrupt, f', w').
Proof.
  intros Hcrawl Hfuel. unfold get_folder_stats.
  destruct (try_scan_crawls fuel path resume_checkpoint f w pages
              (Some KeyboardInterrupt) w') as (f' & _ & ->); [done..|].
  by exists f'.
Qed.

End Crawler.

End CrawlFacts.

Module CrawlClaims.
Import Catalog CrawlFacts Remotes.

(** *** The checkpoint file *)

Lemma load_saved `{!Json} cursor timestamp files folders f :
  load_checkpoint (save_checkpoint cursor timestamp files folders f) =
  Some (checkpoint_of cursor timestamp files folders).
Proof. apply json_load_dump. Qed.

(** C2, as the code has it.  [save_checkpoint] writes in place: it opens
    the file for writing, which empties it, and dumps the document into
    it.  Stopped before the file is opened, it leaves the previous
    checkpoint; stopped after, it leaves a document cut short, which does
    not load, until the last character is written: from then on the file
    loads as the new checkpoint.  So a load gives the previous checkpoint,
    none, or the new one whole, with the number of files it announces;
    never one that was written in part. *)
Theorem interrupted_save_loads `{!Json} (progress : save_progress)
    (cursor timestamp : pystr) (files : list FileInfo)
    (folders : list FolderInfo) (f : file) :
  let new := checkpoint_of cursor timestamp files folders in
  let left := save_checkpoint_until progress cursor timestamp files folders f in
  load_checkpoint left =
    match progress with
    | BeforeOpen => load_checkpoint f
    | Opened written =>
        if (written <? length (json_dump new))%nat then None else Some new
    end ∧
  (∀ checkpoint,
     load_checkpoint left = Some checkpoint →
     (progress = BeforeOpen ∧ load_checkpoint f = Some checkpoint) ∨
     (checkpoint = new ∧ cp_files_count checkpoint = length (cp_files checkpoint))).
Proof.
  intros new left.
  assert (load_checkpoint left =
          match progress with
          | BeforeOpen => load_checkpoint f
          | Opened written =>
              if (written <? length (json_dump new))%nat then None else Some new
          end) as Hload.
  { subst left. destruct progress as [|written]; [done|]. simpl. fold new.
    destruct (Nat.ltb_spec written (length (json_dump new))).
    - apply json_load_cut with new.
      + apply prefix_take.
      + intros Heq. apply (f_equal length) in Heq.
        rewrite length_take in Heq. lia.
    - rewrite take_ge by lia. apply json_load_dump. }
  split; [exact Hload|].
  intros checkpoint. rewrite Hload.
  destruct progress as [|written]; [by left|].
  destruct (_ <? _)%nat; [done|]. intros [= <-]. by right.
Qed.

(** C2, as stated, fails: a checkpoint is in the file, and the save of
    the next one stops right after the file is opened.  The load gives
    neither the previous checkpoint nor the new one. *)
Lemma interrupted_save_counterexample :
  let old := @checkpoint_of (py "cursor-1") (py "2025-11-15T07:00:00") [] [] in
  let f := @save_checkpoint compact_json
             (py "cursor-1") (py "2025-11-15T07:00:00") [] [] None in
  let new_files := [@file_info ascii_lower (py "/a.txt") (py "a.txt") 5 None None] in
  let new := @checkpoint_of (py "cursor-2") (py "2025-11-15T07:10:00")
               new_files [] in
  let f' := @save_checkpoint_until compact_json (Opened 0)
              (py "cursor-2") (py "2025-11-15T07:10:00") new_files [] f in
  @load_checkpoint compact_json f = Some old ∧
  f' = Some [] ∧
  @load_checkpoint compact_json f' = None ∧
  @load_checkpoint compact_json f' ≠ Some old ∧
  @load_checkpoint compact_json f' ≠ Some new.
Proof.
  cbn zeta. split_and!.
  - apply (@load_saved compact_json).
  - reflexivity.
  - reflexivity.
  - discriminate.
  - discriminate.
Qed.

(** *** A crawl that fails *)

Section Crawler.
Context {W : Type} `{!ListClient W} `{!Json} `{!StrLower}.

(** C3, as the code has it.  When a fetch raises an exception, the crawl
    returns, and: if a page had been fetched, and its cursor is not empty,
    the checkpoint file loads as the checkpoint of that cursor, the last
    known-good one, with the files and folders accumulated; if the first
    fetch is the one that raised, no checkpoint is written and the file
    is as it was. *)
Theorem failing_crawl_checkpoint (fuel : nat) (path : pystr)
    (resume_checkpoint : option Checkpoint) (f : file) (w : W)
    (pages : list ListFolderResult) (e : raised) (w' : W) :
  crawls path resume_checkpoint w pages (Some e) w' →
  e ≠ KeyboardInterrupt →
  (length pages ≤ fuel)%nat →
  (∀ result, last pages = Some result → cursor result ≠ []) →
  ∃ f',
    get_folder_stats fuel path resume_checkpoint f w = (Returned [] [], f', w') ∧
    match last pages with
    | Some result =>
        load_checkpoint f' =
        Some (checkpoint_of (cursor result) (now_isoformat w')
                (resumed_files resume_checkpoint ++ files_in (pages ≫= entries))
                (resumed_folders resume_checkpoint ++
                 folders_in (pages ≫= entries)))
    | None => f' = f
    end.
Proof.
  intros Hcrawl He Hfuel Hcursor. eexists. split.
  - by eapply get_folder_stats_raised.
  - destruct (last pages); [apply json_load_dump | done].
Qed.

(** C10.  When a fetch raises an exception, [get_folder_stats] returns
    the pair of empty lists, whatever the pages it had gone through; so
    does a crawl that goes through all the pages of a store with no file
    and no folder; and [main] returns 1 on that pair. *)
Theorem failed_crawl_returns_empty (fuel : nat) (path : pystr)
    (resume_checkpoint : option Checkpoint) (f : file) (w : W)
    (pages : list ListFolderResult) (e : raised) (w' : W) :
  crawls path resume_checkpoint w pages (Some e) w' →
  e ≠ KeyboardInterrupt →
  (length pages ≤ fuel)%nat →
  (get_folder_stats fuel path resume_checkpoint f w).1.1 = Returned [] [] ∧
  (∀ f0 w0 pages0 w0',
     crawls path None w0 pages0 None w0' →
     (length pages0 ≤ fuel)%nat →
     files_in (pages0 ≫= entries) = [] →
     folders_in (pages0 ≫= entries) = [] →
     (get_folder_stats fuel path None f0 w0).1.1 = Returned [] []) ∧
  main_after_scan [] [] = Some 1%Z.
Proof.
  intros Hcrawl He Hfuel. split_and!.
  - unfold get_folder_stats.
    destruct (try_scan_crawls fuel path resume_checkpoint f w pages (Some e) w')
      as (f' & _ & ->); [done..|]. cbn zeta.
    by destruct e.
  - intros f0 w0 pages0 w0' Hcrawl0 Hfuel0 Hfiles Hfolders.
    rewrite (get_folder_stats_complete fuel path None f0 w0 pages0 w0')
      by done.
    by rewrite Hfiles, Hfolders.
  - done.
Qed.

End Crawler.

(** A store of three pages, the third fetch of which fails. *)
Definition three_pages : list (list Metadata) :=
  [ [numbered_file 0; FolderMetadata (py "/f") (py "f"); numbered_file 1];
    [numbered_file 2];
    [numbered_file 3] ].

Definition timeout : raised := OtherException (py "ReadTimeout").

Lemma three_pages_crawl :
  @crawls _ (paged_client three_pages) [] None (Some (2%nat, timeout))
    [page three_pages 0; page three_pages 1] (Some timeout) None.
Proof.
  eapply crawls_pages; [reflexivity|].
  eapply follows_next; [reflexivity|reflexivity|].
  eapply follows_raise; reflexivity.
Qed.

Lemma failing_crawl_checkpoint_witness :
  ∃ f',
    @get_folder_stats _ (paged_client three_pages) compact_json ascii_lower
      5 [] None None (Some (2%nat, timeout)) = (Returned [] [], f', None) ∧
    @load_checkpoint compact_json f' =
    Some (@checkpoint_of (page_cursor 2) (py "2025-11-15T07:34:16")
            (@files_in ascii_lower (three_pages !!! 0%nat ++ three_pages !!! 1%nat))
            [{| folder_path := py "/f"; folder_name := py "f" |}]).
Proof.
  destruct (@failing_crawl_checkpoint _ (paged_client three_pages)
              compact_json ascii_lower 5 [] None None (Some (2%nat, timeout))
              [page three_pages 0; page three_pages 1] timeout None)
    as (f' & Hrun & Hload).
  - exact three_pages_crawl.
  - discriminate.
  - simpl. lia.
  - intros result [= <-]. discriminate.
  - exists f'. split; [exact Hrun | exact Hload].
Defined.

(** C3, as stated, fails: the first fetch of a fresh crawl raises.  No
    checkpoint is written, and there is none to resume from. *)
Lemma failing_crawl_counterexample :
  @get_folder_stats _ (paged_client three_pages) compact_json ascii_lower
    5 [] None None (Some (0%nat, ApiError (py "too_many_requests")))
  = (Returned [] [], None, None) ∧
  @load_checkpoint compact_json None = None.
Proof. split; reflexivity. Qed.

Lemma failed_crawl_returns_empty_witness :
  (@get_folder_stats _ (paged_client three_pages) compact_json ascii_lower
     5 [] None None (Some (2%nat, timeout))).1.1 = Returned [] [] ∧
  (∀ f0 w0 pages0 w0',
     @crawls _ (paged_client three_pages) [] None w0 pages0 None w0' →
     (length pages0 ≤ 5)%nat →
     @files_in ascii_lower (pages0 ≫= entries) = [] →
     folders_in (pages0 ≫= entries) = [] →
     (@get_folder_stats _ (paged_client three_pages) compact_json ascii_lower
        5 [] None f0 w0).1.1 = Returned [] []) ∧
  main_after_scan [] [] = Some 1%Z.
Proof.
  apply (@failed_crawl_returns_empty _ (paged_client three_pages)
           compact_json ascii_lower 5 [] None None (Some (2%nat, timeout))
           [page three_pages 0; page three_pages 1] timeout None).
  - exact three_pages_crawl.
  - discriminate.
  - simpl. lia.
Defined.

(** A crawl of an empty store and a crawl that failed after three files
    return the same pair. *)
Example empty_store_and_failure_alike :
  (@get_folder_stats _ (paged_client [[]]) compact_json ascii_lower
     5 [] None None None).1.1 = Returned [] [] ∧
  (@get_folder_stats _ (paged_client three_pages) compact_json ascii_lower
     5 [] None None (Some (2%nat, timeout))).1.1 = Returned [] [].
Proof. split; reflexivity. Qed.

End CrawlClaims.

(** *** Resuming *)

Module ResumeFacts.
Import Catalog CrawlFacts Remotes.

Section Crawler.
Context {W : Type} `{!ListClient W} `{!Json} `{!StrLower}.

Lemma absorb_app (result_cursor : pystr) (es es' : list Metadata)
    (st : crawl W) :
  absorb result_cursor (es ++ es') st =
  absorb result_cursor es' (absorb result_cursor es st).
Proof.
  revert st. induction es as [|entry es IH]; intros st; [done|].
  destruct entry; cbn [app absorb]; [|apply IH..].
  destruct (_ =? 0)%Z; [destruct result_cursor|]; apply IH.
Qed.

(** Entries that do not take the number of files to a multiple of the
    checkpoint interval are accumulated, and no checkpoint is written. *)
Lemma absorb_quiet (result_cursor : pystr) (entries : list Metadata)
    (st : crawl W) :
  (Z.of_nat (length (all_files st)) mod CHECKPOINT_INTERVAL +
   Z.of_nat (length (files_in entries)) < CHECKPOINT_INTERVAL)%Z →
  absorb result_cursor entries st =
  Crawl (all_files st ++ files_in entries)
        (all_folders st ++ folders_in entries)
        (checkpoint_file st) (world st).
Proof.
  unfold CHECKPOINT_INTERVAL. revert st.
  induction entries as [|entry entries IH]; intros st Hlt.
  - simpl. rewrite !app_nil_r. by destruct st.
  - destruct entry as [pd n s m h|pd n|pd n]; cbn [absorb];
      unfold CHECKPOINT_INTERVAL.
    + cbn [all_files all_folders checkpoint_file world].
      change (files_in (FileMetadata pd n s m h :: entries))
        with (file_info pd n s m h :: files_in entries) in *.
      cbn [length] in Hlt.
      assert (Z.of_nat (length (all_files st ++ [file_info pd n s m h]))
              mod 10000 =
              Z.of_nat (length (all_files st)) mod 10000 + 1)%Z as Hmod.
      { rewrite length_app. cbn [length].
        replace (Z.of_nat (length (all_files st) + 1))
          with (Z.of_nat (length (all_files st)) + 1)%Z by lia.
        pose proof (Z.mod_pos_bound (Z.of_nat (length (all_files st))) 10000
                      ltac:(lia)).
        rewrite Zplus_mod, (Z.mod_small 1) by lia.
        apply Z.mod_small. lia. }
      destruct (Z.eqb_spec
                  (Z.of_nat (length (all_files st ++ [file_info pd n s m h]))
                   mod 10000) 0) as [Hz|_].
      { pose proof (Z.mod_pos_bound (Z.of_nat (length (all_files st))) 10000
                      ltac:(lia)). lia. }
      rewrite IH; cbn [all_files all_folders checkpoint_file world].
      * by rewrite <- app_assoc.
      * lia.
    + rewrite IH; cbn [all_files all_folders checkpoint_file world].
      * change (folders_in (FolderMetadata pd n :: entries))
          with ({| folder_path := pd; folder_name := n |} :: folders_in entries).
        by rewrite <- app_assoc.
      * exact Hlt.
    + by rewrite IH.
Qed.

(** The file that takes the number of files to a multiple of the
    interval is followed by a checkpoint, with the cursor of the page the
    file is in. *)
Lemma absorb_checkpoint (c : N) (cur : pystr) pd n s m h (st : crawl W) :
  (Z.of_nat (length (all_files st)) mod CHECKPOINT_INTERVAL =
   CHECKPOINT_INTERVAL - 1)%Z →
  absorb (c :: cur) [FileMetadata pd n s m h] st =
  checkpoint_now (c :: cur)
    (Crawl (all_files st ++ [file_info pd n s m h]) (all_folders st)
           (checkpoint_file st) (world st)).
Proof.
  unfold CHECKPOINT_INTERVAL. intros Hmod. cbn [absorb].
  unfold CHECKPOINT_INTERVAL.
  cbn [all_files all_folders checkpoint_file world].
  rewrite length_app. cbn [length].
  replace (Z.of_nat (length (all_files st) + 1))
    with (Z.of_nat (length (all_files st)) + 1)%Z by lia.
  rewrite Zplus_mod, Hmod. by change ((10000 - 1 + 1 mod 10000) mod 10000)%Z with 0%Z.
Qed.

End Crawler.

Lemma length_files_in_numbered `{!StrLower} (start len : nat) :
  length (files_in (numbered_file <$> seq start len)) = len.
Proof.
  revert start. induction len as [|len IH]; intros start; [done|].
  cbn [seq fmap list_fmap]. change (numbered_file start :: ?l) with ([numbered_file start] ++ l).
  rewrite files_in_app, length_app, IH. done.
Qed.

Lemma folders_in_numbered (start len : nat) :
  folders_in (numbered_file <$> seq start len) = [].
Proof.
  revert start. induction len as [|len IH]; intros start; [done|].
  cbn [seq fmap list_fmap]. change (numbered_file start :: ?l) with ([numbered_file start] ++ l).
  by rewrite folders_in_app, IH.
Qed.

(** The crawl of the two-page store, for a number of files [n] in the
    first page that is the checkpoint interval. *)
Section TwoPages.
Context `{!Json} `{!StrLower}.
Variable n : nat.
Hypothesis interval : Z.of_nat n = CHECKPOINT_INTERVAL.

Let first_files : list FileInfo := files_in (numbered_file <$> seq 0 n).
Let skipped : FileInfo := file_info (py "/f/" ++ [N.of_nat n]) [N.of_nat n] 1 None None.
Let final : FileInfo :=
  file_info (py "/f/" ++ [N.of_nat (S n)]) [N.of_nat (S n)] 1 None None.
Let saved : Checkpoint :=
  checkpoint_of (page_cursor 1) (py "2025-11-15T07:34:16") first_files [].

Let dbx : ListClient (option (nat * raised)) := paged_client (two_page_store n).
Local Existing Instance dbx.

Lemma first_page_absorbed (w : option (nat * raised)) :
  absorb (page_cursor 1) ((numbered_file <$> seq 0 n) ++ [numbered_file n])
    (Crawl [] [] None w) =
  Crawl (first_files ++ [skipped]) [] (Some (json_dump saved)) w.
Proof.
  unfold CHECKPOINT_INTERVAL in interval.
  subst first_files saved skipped dbx. clear final.
  destruct n as [|m]; [discriminate|].
  rewrite seq_S, fmap_app, !absorb_app. cbn [Nat.add fmap list_fmap].
  rewrite (absorb_quiet (page_cursor 1) (numbered_file <$> seq 0 m));
    cbn [all_files all_folders checkpoint_file world].
  2:{ rewrite length_files_in_numbered. unfold CHECKPOINT_INTERVAL.
      change (Z.of_nat (length (@nil FileInfo)) mod 10000)%Z with 0%Z. lia. }
  rewrite folders_in_numbered. cbn [app].
  change (page_cursor 1) with [99; N.of_nat 1].
  change (numbered_file m)
    with (FileMetadata (py "/f/" ++ [N.of_nat m]) [N.of_nat m] 1 None None).
  rewrite absorb_checkpoint; cbn [all_files all_folders checkpoint_file world].
  2:{ rewrite length_files_in_numbered. unfold CHECKPOINT_INTERVAL.
      rewrite Z.mod_small; lia. }
  unfold checkpoint_now. cbn [all_files all_folders checkpoint_file world].
  rewrite absorb_quiet; cbn [all_files all_folders checkpoint_file world].
  2:{ rewrite length_app, length_files_in_numbered. cbn [length].
      unfold CHECKPOINT_INTERVAL.
      replace (Z.of_nat (m + 1)) with 10000%Z by lia.
      change (10000 mod 10000)%Z with 0%Z.
      change (Z.of_nat (length (files_in [numbered_file (S m)]))) with 1%Z.
      lia. }
  unfold save_checkpoint. rewrite files_in_app. reflexivity.
Qed.

Lemma two_page_first :
  page (two_page_store n) 0 =
  {| entries := (numbered_file <$> seq 0 n) ++ [numbered_file n];
     cursor := page_cursor 1;
     has_more := true |}.
Proof. reflexivity. Qed.

Lemma two_page_second :
  page (two_page_store n) 1 =
  {| entries := [numbered_file (S n)];
     cursor := page_cursor 2;
     has_more := false |}.
Proof. reflexivity. Qed.

Lemma fetch_first (path : pystr) (w : option (nat * raised)) :
  files_list_folder path w = serve (two_page_store n) 0 w.
Proof. reflexivity. Qed.

Lemma fetch_second (w : option (nat * raised)) :
  files_list_folder_continue (page_cursor 1) w = serve (two_page_store n) 1 w.
Proof. reflexivity. Qed.

Lemma second_page_absorbed (files : list FileInfo) (f : file)
    (w : option (nat * raised)) :
  (Z.of_nat (length files) mod CHECKPOINT_INTERVAL + 1 < CHECKPOINT_INTERVAL)%Z →
  absorb (page_cursor 2) [numbered_file (S n)] (Crawl files [] f w) =
  Crawl (files ++ [final]) [] f w.
Proof. intros Hlt. by rewrite absorb_quiet. Qed.

(** The crawl is interrupted while it fetches the second page: the
    checkpoint file is the one written after the file [n - 1], in the
    middle of the first page, with the cursor of the second page. *)
Lemma interrupted_run :
  get_folder_stats 2 [] None None (Some (1%nat, KeyboardInterrupt)) =
  (Propagated KeyboardInterrupt, Some (json_dump saved), None).
Proof.
  unfold get_folder_stats, try_scan.
  rewrite fetch_first. cbn [serve]. rewrite two_page_first. cbn [scan].
  cbn [entries cursor has_more negb].
  rewrite first_page_absorbed.
  cbn [all_files all_folders checkpoint_file world].
  rewrite fetch_second. reflexivity.
Qed.

(** The crawl resumed from that checkpoint: the file [n] is not in what
    it returns. *)
Lemma resumed_run :
  get_folder_stats 2 [] (Some saved) (Some (json_dump saved)) None =
  (Returned (first_files ++ [final]) [], None, None).
Proof.
  unfold get_folder_stats, try_scan. cbn [cp_cursor saved checkpoint_of].
  rewrite fetch_second. cbn [serve]. rewrite two_page_second. cbn [scan].
  cbn [entries cursor has_more negb cp_files cp_folders saved checkpoint_of].
  rewrite second_page_absorbed; [reflexivity|].
  subst first_files. rewrite length_files_in_numbered, interval.
  unfold CHECKPOINT_INTERVAL. change (10000 mod 10000)%Z with 0%Z. lia.
Qed.

(** The crawl that nothing interrupts. *)
Lemma uninterrupted_run :
  get_folder_stats 2 [] None None None =
  (Returned (first_files ++ [skipped] ++ [final]) [], None, None).
Proof.
  unfold get_folder_stats, try_scan.
  rewrite fetch_first. cbn [serve]. rewrite two_page_first. cbn [scan].
  cbn [entries cursor has_more negb].
  rewrite first_page_absorbed.
  cbn [all_files all_folders checkpoint_file world].
  rewrite fetch_second. cbn [serve]. rewrite two_page_second. cbn [scan].
  cbn [entries cursor has_more negb].
  rewrite second_page_absorbed.
  - by rewrite <- app_assoc.
  - subst first_files. rewrite length_app, length_files_in_numbered.
    cbn [length]. replace (Z.of_nat (n + 1)) with (Z.of_nat n + 1)%Z by lia.
    rewrite interval. unfold CHECKPOINT_INTERVAL.
    change ((10000 + 1) mod 10000)%Z with 1%Z. lia.
Qed.

Lemma resumed_differs :
  first_files ++ [final] ≠ first_files ++ [skipped] ++ [final].
Proof.
  intros Heq. apply (f_equal length) in Heq.
  rewrite !length_app in Heq. simpl in Heq. lia.
Qed.

End TwoPages.

End ResumeFacts.

Module ResumeClaims.
Import Catalog CrawlFacts ResumeFacts Remotes.

(** C1 fails on the code.  A store is listed in two pages: the first has
    one file more than the checkpoint interval, the second has one file.
    The checkpoint written after the file that fills the interval is
    written in the middle of the first page, with the cursor of that
    page, which resumes at the second.  The crawl is interrupted while it
    fetches the second page (an interrupt is not caught, so no other
    checkpoint is written), and run again from the checkpoint: the last
    file of the first page is in the list of the crawl that nothing
    interrupts, and not in the list of the resumed crawl. *)
Theorem resume_skips_rest_of_page `{!Json} `{!StrLower} :
  let n := Z.to_nat CHECKPOINT_INTERVAL in
  let dbx := paged_client (two_page_store n) in
  let first_files := files_in (numbered_file <$> seq 0 n) in
  let skipped := files_in [numbered_file n] in
  let final := files_in [numbered_file (S n)] in
  ∃ checkpoint,
    get_folder_stats 2 [] None None (Some (1%nat, KeyboardInterrupt)) =
      (Propagated KeyboardInterrupt, Some (json_dump checkpoint), None) ∧
    load_checkpoint (Some (json_dump checkpoint)) = Some checkpoint ∧
    cp_cursor checkpoint = page_cursor 1 ∧
    cp_files checkpoint = first_files ∧
    get_folder_stats 2 [] (Some checkpoint) (Some (json_dump checkpoint)) None =
      (Returned (first_files ++ final) [], None, None) ∧
    get_folder_stats 2 [] None None None =
      (Returned (first_files ++ skipped ++ final) [], None, None) ∧
    first_files ++ final ≠ first_files ++ skipped ++ final.
Proof.
  intros n dbx first_files skipped final.
  assert (Z.of_nat n = CHECKPOINT_INTERVAL) as Hn by (by apply Z2Nat.id).
  exists (checkpoint_of (page_cursor 1) (py "2025-11-15T07:34:16") first_files []).
  split_and!.
  - exact (interrupted_run n Hn).
  - apply json_load_dump.
  - reflexivity.
  - reflexivity.
  - exact (resumed_run n Hn).
  - exact (uninterrupted_run n Hn).
  - exact (resumed_differs n).
Qed.

Section Crawler.
Context {W : Type} `{!ListClient W} `{!Json} `{!StrLower}.

(** Resuming after a fetch error loses nothing.  A crawl goes through
    [pages1] and a fetch raises; the checkpoint written then has the
    cursor of the last page fetched.  The crawl run again from it goes
    through [pages2] to the end: it returns the files and folders of
    [pages1 ++ pages2], as a crawl that goes through all these pages in
    one run does. *)
Theorem resume_after_fetch_error (fuel : nat) (path : pystr) (f : file)
    (w w1 w2 : W) (pages1 pages2 : list ListFolderResult) (e : raised)
    (result : ListFolderResult) :
  crawls path None w pages1 (Some e) w1 →
  e ≠ KeyboardInterrupt →
  last pages1 = Some result → cursor result ≠ [] →
  (length pages1 ≤ fuel)%nat → (length pages2 ≤ fuel)%nat →
  ∃ f1 checkpoint,
    get_folder_stats fuel path None f w = (Returned [] [], f1, w1) ∧
    load_checkpoint f1 = Some checkpoint ∧
    cp_cursor checkpoint = cursor result ∧
    (crawls path (Some checkpoint) w1 pages2 None w2 →
     get_folder_stats fuel path (Some checkpoint) f1 w1 =
     (Returned (files_in ((pages1 ++ pages2) ≫= entries))
               (folders_in ((pages1 ++ pages2) ≫= entries)), None, w2)) ∧
    (∀ f0 w0 w0',
       crawls path None w0 (pages1 ++ pages2) None w0' →
       get_folder_stats (fuel + fuel) path None f0 w0 =
       (Returned (files_in ((pages1 ++ pages2) ≫= entries))
                 (folders_in ((pages1 ++ pages2) ≫= entries)), None, w0')).
Proof.
  intros Hcrawl He Hlast Hcursor Hfuel1 Hfuel2.
  pose proof (get_folder_stats_raised fuel path None f w pages1 e w1
                Hcrawl He Hfuel1) as Hrun.
  rewrite Hlast in Hrun.
  set (checkpoint :=
         checkpoint_of (cursor result) (now_isoformat w1)
           (files_in (pages1 ≫= entries)) (folders_in (pages1 ≫= entries))).
  exists (Some (json_dump checkpoint)), checkpoint. split_and!.
  - apply Hrun. intros r Hr. congruence.
  - apply json_load_dump.
  - reflexivity.
  - intros Hresume.
    rewrite (get_folder_stats_complete fuel path (Some checkpoint)
               (Some (json_dump checkpoint)) w1 pages2 w2) by done.
    cbn [resumed_files resumed_folders cp_files cp_folders checkpoint
         checkpoint_of].
    by rewrite bind_app, files_in_app, folders_in_app.
  - intros f0 w0 w0' Hfull.
    rewrite (get_folder_stats_complete _ path None f0 w0 _ w0' Hfull); [done|].
    rewrite length_app. lia.
Qed.

End Crawler.

Lemma resume_after_fetch_error_witness :
  ∃ f1 checkpoint,
    @get_folder_stats _ (paged_client CrawlClaims.three_pages) compact_json ascii_lower
      5 [] None None (Some (2%nat, CrawlClaims.timeout))
      = (Returned [] [], f1, None) ∧
    @load_checkpoint compact_json f1 = Some checkpoint ∧
    @get_folder_stats _ (paged_client CrawlClaims.three_pages) compact_json ascii_lower
      5 [] (Some checkpoint) f1 None =
    (Returned (@files_in ascii_lower (concat CrawlClaims.three_pages))
              (folders_in (concat CrawlClaims.three_pages)), None, None) ∧
    @get_folder_stats _ (paged_client CrawlClaims.three_pages) compact_json ascii_lower
      10 [] None None None =
    (Returned (@files_in ascii_lower (concat CrawlClaims.three_pages))
              (folders_in (concat CrawlClaims.three_pages)), None, None).
Proof.
  destruct (@resume_after_fetch_error _ (paged_client CrawlClaims.three_pages)
              compact_json ascii_lower 5 [] None
              (Some (2%nat, CrawlClaims.timeout))
              None None [page CrawlClaims.three_pages 0; page CrawlClaims.three_pages 1]
              [page CrawlClaims.three_pages 2] CrawlClaims.timeout (page CrawlClaims.three_pages 1))
    as (f1 & checkpoint & Hrun & Hload & Hcursor & Hresume & Hfull).
  - exact CrawlClaims.three_pages_crawl.
  - discriminate.
  - reflexivity.
  - discriminate.
  - simpl. lia.
  - simpl. lia.
  - exists f1, checkpoint. split_and!; [exact Hrun | exact Hload | |].
    + apply Hresume. eapply crawls_pages.
      * unfold first_fetch. rewrite Hcursor. reflexivity.
      * by apply follows_last.
    + apply (Hfull None None None). eapply crawls_pages; [reflexivity|].
      eapply follows_next; [reflexivity|reflexivity|].
      eapply follows_next; [reflexivity|reflexivity|].
      by apply follows_last.
Defined.

End ResumeClaims.

(** ** catalog-dropbox.py: the analysis *)

Module AnalysisFacts.
Import Catalog Remotes.

Section Analysis.
Context `{!Clock}.

(** The text [analyze_files] gives to [fromisoformat]: none when the
    timestamp is [None] or empty. *)
Definition timestamp (f : FileInfo) : option pystr :=
  match modified f with
  | Some ((_ :: _) as text) => Some (replace_char 90 (py "+00:00") text)
  | _ => None
  end.

(** A file whose timestamp, if it has one, is read by [fromisoformat]. *)
Definition timestamp_parses (f : FileInfo) : Prop :=
  match timestamp f with
  | Some text => is_Some (fromisoformat text)
  | None => True
  end.

(** The age bucket of a file: none when it has no timestamp. *)
Definition age_key (f : FileInfo) : option pystr :=
  text ← timestamp f;
  day ← fromisoformat text;
  Some (age_bucket (age_days day)).

(** What a counter dict holds for [key], when the files counted under a
    key are those [key_of] gives it to: their number and the sum of their
    sizes, and no entry when there is none. *)
Definition sum_sizes (files : list FileInfo) : Z :=
  foldr (λ f total, size f + total)%Z 0%Z files.

Definition tally (key_of : FileInfo → option pystr) (files : list FileInfo)
    (key : pystr) : option (Z * Z) :=
  match filter (λ f, key_of f = Some key) files with
  | [] => None
  | counted => Some (Z.of_nat (length counted), sum_sizes counted)
  end.

Definition counts (d : gmap pystr (Z * Z)) (key_of : FileInfo → option pystr)
    (files : list FileInfo) : Prop :=
  ∀ key, d !! key = tally key_of files key.

Lemma sum_sizes_app (fs fs' : list FileInfo) :
  sum_sizes (fs ++ fs') = (sum_sizes fs + sum_sizes fs')%Z.
Proof. induction fs as [|f fs IH]; simpl; [done|]. rewrite IH. lia. Qed.

Lemma counts_empty key_of : counts ∅ key_of [].
Proof. intros key. by rewrite lookup_empty. Qed.

Lemma counts_bump d key_of files f key :
  counts d key_of files → key_of f = Some key →
  counts (bump key (size f) d) key_of (files ++ [f]).
Proof.
  intros Hd Hkey k. unfold bump, tally. rewrite filter_app.
  specialize (Hd k). unfold tally in Hd.
  destruct (decide (key = k)) as [->|Hne].
  - rewrite filter_cons_True, filter_nil by done.
    rewrite Hd.
    destruct (filter _ files) as [|c counted] eqn:E; simpl.
    + rewrite lookup_insert_eq. do 2 f_equal; lia.
    + rewrite lookup_insert_eq, length_app, sum_sizes_app. simpl.
      do 2 f_equal; lia.
  - rewrite filter_cons_False, filter_nil, app_nil_r by congruence.
    destruct (default _ _). by rewrite lookup_insert_ne.
Qed.

Lemma counts_skip d key_of files f :
  counts d key_of files → key_of f = None →
  counts d key_of (files ++ [f]).
Proof.
  intros Hd Hkey k. unfold tally. rewrite filter_app.
  rewrite filter_cons_False, filter_nil, app_nil_r by congruence.
  apply Hd.
Qed.

#[global] Instance timestamp_parses_dec (f : FileInfo) :
  Decision (timestamp_parses f).
Proof. unfold timestamp_parses. destruct (timestamp f); apply _. Defined.

Lemma age_key_parses (f : FileInfo) :
  timestamp_parses f →
  match timestamp f with
  | Some text =>
      ∃ day, fromisoformat text = Some day ∧
             age_key f = Some (age_bucket (age_days day))
  | None => age_key f = None
  end.
Proof.
  unfold timestamp_parses, age_key.
  destruct (timestamp f) as [text|]; [|done].
  intros [day Hday]. exists day. split; [done|]. simpl. by rewrite Hday.
Qed.

(** One file: the three dicts count it, the age dict only if it has a
    timestamp; a timestamp that is not read raises. *)
Lemma analyze_file_counts (f : FileInfo) (a : Analysis) (files : list FileInfo) :
  counts (by_extension a) (λ f, Some (extension_key f)) files →
  counts (by_folder a) (λ f, Some (folder_key f)) files →
  counts (by_age a) age_key files →
  timestamp_parses f →
  ∃ a', analyze_file f a = Some a' ∧
        counts (by_extension a') (λ f, Some (extension_key f)) (files ++ [f]) ∧
        counts (by_folder a') (λ f, Some (folder_key f)) (files ++ [f]) ∧
        counts (by_age a') age_key (files ++ [f]) ∧
        total_files a' = total_files a ∧
        total_size_bytes a' = total_size_bytes a.
Proof.
  intros Hext Hfolder Hage Hparses. unfold analyze_file.
  pose proof (age_key_parses f Hparses) as Hkey.
  unfold timestamp in Hkey.
  destruct (modified f) as [[|c text]|] eqn:Hm.
  - eexists. split; [done|]. simpl. split_and!; try done.
    + by apply counts_bump.
    + by apply counts_bump.
    + by apply counts_skip.
  - destruct Hkey as (day & -> & Hk).
    eexists. split; [done|]. simpl. split_and!; try done.
    + by apply counts_bump.
    + by apply counts_bump.
    + by apply counts_bump.
  - eexists. split; [done|]. simpl. split_and!; try done.
    + by apply counts_bump.
    + by apply counts_bump.
    + by apply counts_skip.
Qed.

Lemma analyze_file_raises (f : FileInfo) (a : Analysis) :
  ¬ timestamp_parses f → analyze_file f a = None.
Proof.
  unfold timestamp_parses, timestamp, analyze_file.
  destruct (modified f) as [[|c text]|]; [by intros []| |by intros []].
  destruct (fromisoformat _); [|done]. intros []. eauto.
Qed.

Lemma analyze_loop_counts (files done : list FileInfo) (a : Analysis) :
  counts (by_extension a) (λ f, Some (extension_key f)) done →
  counts (by_folder a) (λ f, Some (folder_key f)) done →
  counts (by_age a) age_key done →
  Forall timestamp_parses files →
  ∃ a', analyze_loop files a = Some a' ∧
        counts (by_extension a') (λ f, Some (extension_key f)) (done ++ files) ∧
        counts (by_folder a') (λ f, Some (folder_key f)) (done ++ files) ∧
        counts (by_age a') age_key (done ++ files) ∧
        total_files a' = total_files a ∧
        total_size_bytes a' = total_size_bytes a.
Proof.
  intros Hext Hfolder Hage Hall. revert done a Hext Hfolder Hage.
  induction Hall as [|f files Hf _ IH]; intros done a Hext Hfolder Hage.
  - exists a. rewrite app_nil_r. by simpl.
  - destruct (analyze_file_counts f a done) as (a1 & Ha1 & ? & ? & ? & Ht & Hs);
      [done..|].
    destruct (IH (done ++ [f]) a1) as (a' & Ha' & ? & ? & ? & Ht' & Hs');
      [done..|].
    exists a'. simpl. rewrite Ha1, Ha'.
    rewrite <- !app_assoc in *. simpl in *.
    split_and!; try done; congruence.
Qed.

Lemma analyze_loop_raises (files : list FileInfo) (a : Analysis) :
  ¬ Forall timestamp_parses files → analyze_loop files a = None.
Proof.
  revert a. induction files as [|f files IH]; intros a Hnot.
  - destruct Hnot. constructor.
  - simpl. destruct (analyze_file f a) as [a'|] eqn:Ha; [|done].
    apply IH. intros Hall. apply Hnot. constructor; [|done].
    destruct (decide (timestamp_parses f)) as [|Hf]; [done|].
    by rewrite analyze_file_raises in Ha.
Qed.

(** C9, as the code has it.  A file whose timestamp is [None] or empty
    has no age: it is left out of the age buckets and counted under its
    extension and its top-level folder.  When every timestamp that is
    there is read by [fromisoformat], the analysis returns, and each dict
    holds, for each key, the number and the total size of the files of
    that key.  When one is not read, [fromisoformat] raises and
    [analyze_files] raises with it: the analysis returns nothing. *)
Theorem analysis_and_timestamps (files : list FileInfo) :
  (∀ f, modified f = None ∨ modified f = Some [] →
        timestamp_parses f ∧ age_key f = None) ∧
  (Forall timestamp_parses files →
   ∃ a, analyze_files files = Some a ∧
        total_files a = length files ∧
        total_size_bytes a = sum_sizes files ∧
        counts (by_extension a) (λ f, Some (extension_key f)) files ∧
        counts (by_folder a) (λ f, Some (folder_key f)) files ∧
        counts (by_age a) age_key files) ∧
  (¬ Forall timestamp_parses files → analyze_files files = None).
Proof.
  split_and!.
  - intros f [Hm|Hm]; unfold timestamp_parses, age_key, timestamp;
      by rewrite Hm.
  - intros Hall. unfold analyze_files.
    edestruct (analyze_loop_counts files []) as (a & -> & ? & ? & ? & Ht & Hs);
      [apply counts_empty..|done|].
    simpl in *. eexists. split; [done|]. simpl. by rewrite Ht, Hs.
  - intros Hnot. unfold analyze_files. by rewrite analyze_loop_raises.
Qed.

(** *** The duplicate groups *)

(** The paths of the files whose hash is [h], in the order of the list. *)
Definition paths_with_hash (h : pystr) (files : list FileInfo) : list pystr :=
  path <$> filter (λ f, hash f = Some h) files.

(** What the dict of groups holds before the last filter: for each hash
    that is not empty and that a file has, the paths of the files that
    have it. *)
Definition groups (d : list (pystr * list pystr)) (files : list FileInfo)
    : Prop :=
  NoDup d.*1 ∧
  ∀ h, (list_to_map d : gmap pystr (list pystr)) !! h =
       if decide (h = []) then None
       else match paths_with_hash h files with
            | [] => None
            | paths => Some paths
            end.

Lemma append_to_keys key x (d : list (pystr * list pystr)) :
  (append_to key x d).*1 = if decide (key ∈ d.*1) then d.*1 else d.*1 ++ [key].
Proof.
  induction d as [|[k xs] d IH].
  - cbn. destruct (decide (key ∈ [])) as [Hin|_]; [|done].
    by apply elem_of_nil in Hin.
  - cbn [append_to]. rewrite !fmap_cons. cbn [fst].
    destruct (decide (k = key)) as [->|Hne].
    + rewrite fmap_cons. cbn [fst].
      destruct (decide (key ∈ key :: d.*1)) as [_|Hnin]; [done|].
      destruct Hnin. left.
    + rewrite fmap_cons, IH. cbn [fst].
      destruct (decide (key ∈ d.*1)) as [Hin|Hnin];
        destruct (decide (key ∈ k :: d.*1)) as [Hin'|Hnin']; try done.
      * destruct Hnin'. by right.
      * apply elem_of_cons in Hin' as [?|?]; congruence.
Qed.

Lemma append_to_NoDup key x (d : list (pystr * list pystr)) :
  NoDup d.*1 → NoDup (append_to key x d).*1.
Proof.
  intros Hd. rewrite append_to_keys. destruct (decide _) as [|Hnin]; [done|].
  apply NoDup_app. split_and!; [done| |apply NoDup_singleton].
  intros k Hk ->%list_elem_of_singleton. done.
Qed.

Lemma append_to_map key x (d : list (pystr * list pystr)) :
  (list_to_map (append_to key x d) : gmap pystr (list pystr)) =
  <[key := default [] ((list_to_map d : gmap pystr (list pystr)) !! key) ++ [x]]>
    (list_to_map d).
Proof.
  induction d as [|[k xs] d IH]; simpl; [done|].
  destruct (decide (k = key)) as [->|Hne]; simpl.
  - by rewrite lookup_insert_eq, insert_insert_eq.
  - rewrite IH, lookup_insert_ne by done. by apply insert_insert_ne.
Qed.

Lemma paths_with_hash_snoc h files f :
  paths_with_hash h (files ++ [f]) =
  paths_with_hash h files ++ (if decide (hash f = Some h) then [path f] else []).
Proof.
  unfold paths_with_hash. rewrite filter_app, fmap_app. f_equal.
  destruct (decide _); [by rewrite filter_cons_True | by rewrite filter_cons_False].
Qed.

Lemma groups_append d files f c h :
  groups d files → hash f = Some (c :: h) →
  groups (append_to (c :: h) (path f) d) (files ++ [f]).
Proof.
  intros [Hnodup Hd] Hhash. split; [by apply append_to_NoDup|].
  intros k. rewrite append_to_map, paths_with_hash_snoc, Hhash.
  destruct (decide (c :: h = k)) as [<-|Hne].
  - rewrite lookup_insert_eq, Hd. repeat case_decide; try done.
    by destruct (paths_with_hash (c :: h) files).
  - rewrite lookup_insert_ne, Hd by done.
    repeat case_decide; try congruence; by rewrite app_nil_r.
Qed.

Lemma groups_skip d files f :
  groups d files → hash f = None ∨ hash f = Some [] →
  groups d (files ++ [f]).
Proof.
  intros [Hnodup Hd] Hhash. split; [done|].
  intros k. rewrite Hd, paths_with_hash_snoc.
  repeat case_decide; try done; [|by rewrite app_nil_r].
  destruct Hhash; congruence.
Qed.

Lemma analyze_file_groups f a a' files :
  analyze_file f a = Some a' → groups (duplicates a) files →
  groups (duplicates a') (files ++ [f]).
Proof.
  unfold analyze_file. intros Ha Hg.
  destruct (match modified f with Some _ => _ | None => _ end); [|done].
  injection Ha as <-. simpl.
  destruct (hash f) as [[|c h]|] eqn:Hh.
  - apply groups_skip; auto.
  - by apply groups_append.
  - apply groups_skip; auto.
Qed.

Lemma analyze_loop_groups files done a a' :
  analyze_loop files a = Some a' → groups (duplicates a) done →
  groups (duplicates a') (done ++ files).
Proof.
  revert done a. induction files as [|f files IH]; intros done a; simpl.
  - intros [= <-]. by rewrite app_nil_r.
  - destruct (analyze_file f a) as [a1|] eqn:Ha1; [|done].
    intros Hloop Hg. rewrite (cons_middle f done files), app_assoc.
    eapply IH; [done|]. by eapply analyze_file_groups.
Qed.

Lemma NoDup_keys_filter (keep : pystr * list pystr → bool)
    (d : list (pystr * list pystr)) :
  NoDup d.*1 → NoDup (List.filter keep d).*1.
Proof.
  induction d as [|kv d IH]; [done|]. rewrite fmap_cons.
  intros [Hnin Hd]%NoDup_cons. simpl. destruct (keep kv); [|by apply IH].
  rewrite fmap_cons. apply NoDup_cons. split; [|by apply IH].
  intros (kv' & Hk & Hin)%list_elem_of_fmap. apply Hnin.
  apply list_elem_of_fmap. exists kv'. split; [done|].
  apply list_elem_of_In in Hin. apply filter_In in Hin as [Hin _].
  by apply list_elem_of_In.
Qed.

(** Duplicate grouping.  In the analysis, the groups are keyed by distinct
    hashes, and a list of paths is the group of a hash exactly when the
    hash is not empty, the paths are those of all the files that have
    that hash, and there are two of them or more. *)
Theorem duplicate_groups (files : list FileInfo) (a : Analysis) :
  analyze_files files = Some a →
  NoDup (duplicates a).*1 ∧
  ∀ h paths,
    (h, paths) ∈ duplicates a ↔
    h ≠ [] ∧ paths = paths_with_hash h files ∧ (2 ≤ length paths)%nat.
Proof.
  unfold analyze_files.
  destruct (analyze_loop files _) as [a0|] eqn:Hloop; [|done].
  intros [= <-]. simpl.
  apply (analyze_loop_groups files []) in Hloop as [Hnodup Hd];
    [|split; [constructor|by intros h; destruct (decide (h = []))]].
  simpl in Hd. split.
  - by apply NoDup_keys_filter.
  - intros h paths.
    assert ((h, paths) ∈
              List.filter (λ kv, (1 <? length kv.2)%nat) (duplicates a0) ↔
            (h, paths) ∈ duplicates a0 ∧ (1 < length paths)%nat) as ->.
    { rewrite !list_elem_of_In, filter_In. simpl. by rewrite Nat.ltb_lt. }
    rewrite (elem_of_list_to_map (M:=gmap pystr)) by done. rewrite Hd.
    destruct (decide (h = [])) as [->|Hh]; [by split; [intros []|intros []]|].
    split.
    + intros [Hp Hlen].
      destruct (paths_with_hash h files) eqn:E; [done|].
      injection Hp as <-. split_and!; [done..|lia].
    + intros (_ & -> & Hlen).
      destruct (paths_with_hash h files) eqn:E; [simpl in Hlen; lia|].
      split; [done|lia].
Qed.

End Analysis.

(** Three files: one with a timestamp, one without, one whose timestamp
    is not a date. *)
Definition dated : FileInfo :=
  {| path := py "/docs/a.txt"; name := py "a.txt"; size := 10;
     modified := Some (py "2025-11-01T10:00:00Z"); hash := Some (py "h1");
     extension := py ".txt" |}.

Definition undated : FileInfo :=
  {| path := py "/docs/b.txt"; name := py "b.txt"; size := 20;
     modified := None; hash := Some (py "h1"); extension := py ".txt" |}.

Definition misdated : FileInfo :=
  {| path := py "/c"; name := py "c"; size := 5;
     modified := Some (py "yesterday"); hash := None; extension := [] |}.

(** The file without a timestamp is counted under [.txt] and [/docs], and
    in no age bucket. *)
Example analysis_without_timestamp :
  ∃ a, @analyze_files calendar_clock [dated; undated] = Some a ∧
       by_extension a !! py ".txt" = Some (2, 30)%Z ∧
       by_folder a !! py "/docs" = Some (2, 30)%Z ∧
       map_to_list (by_age a) = [(py "Last 30 days", (1, 10)%Z)] ∧
       duplicates a = [(py "h1", [py "/docs/a.txt"; py "/docs/b.txt"])].
Proof. eexists. split; [vm_compute; reflexivity|]. split_and!; reflexivity. Qed.

(** Three files, two of which have the same hash: one group. *)
Definition lone : FileInfo :=
  {| path := py "/docs/c.txt"; name := py "c.txt"; size := 50;
     modified := None; hash := Some (py "h2"); extension := py ".txt" |}.

Lemma duplicate_groups_witness :
  ∃ a, @analyze_files calendar_clock [dated; undated; lone] = Some a ∧
       duplicates a = [(py "h1", [py "/docs/a.txt"; py "/docs/b.txt"])] ∧
       NoDup (duplicates a).*1 ∧
       ∀ h paths,
         (h, paths) ∈ duplicates a ↔
         h ≠ [] ∧ paths = paths_with_hash h [dated; undated; lone] ∧
         (2 ≤ length paths)%nat.
Proof.
  eexists. split; [vm_compute; reflexivity|]. split; [reflexivity|].
  apply (@duplicate_groups calendar_clock [dated; undated; lone]).
  vm_compute. reflexivity.
Defined.

(** C9, as stated, fails: with a timestamp that is not a date among the
    files, the analysis raises, and counts none of them. *)
Lemma malformed_timestamp_counterexample :
  @fromisoformat calendar_clock (py "yesterday") = None ∧
  @analyze_files calendar_clock [dated; undated; misdated] = None ∧
  ¬ (∃ a, @analyze_files calendar_clock [dated; undated; misdated] = Some a).
Proof.
  split_and!; [reflexivity | vm_compute; reflexivity |].
  intros [a Ha]. vm_compute in Ha. discriminate.
Qed.

End AnalysisFacts.

(** ** The credential files *)

Module CredentialFacts.
Import TextFile TextFileFacts PlanFileFacts Credentials.

(** A text that is written and read back as it is: no line break inside
    and only characters UTF-8 encodes. *)
Definition plain_line (s : pystr) : bool :=
  forallb (λ c, negb (c =? 10) && negb (c =? 13) && is_scalar c) s.

Lemma plain_line_spec (s : pystr) :
  plain_line s = true →
  (10 ∉ s) ∧ (13 ∉ s) ∧ Forall (λ c, is_scalar c = true) s.
Proof.
  unfold plain_line. rewrite forallb_forall. intros Hall. split_and!.
  - intros Hin%list_elem_of_In. by apply Hall in Hin.
  - intros Hin%list_elem_of_In. by apply Hall in Hin.
  - apply Forall_forall. intros c Hin%list_elem_of_In.
    apply Hall in Hin. by apply andb_true_iff in Hin as [_ ?].
Qed.

(** What is written is read back, when it has no carriage return. *)
Lemma read_text_written (text : pystr) (content : bytes) :
  utf8_encode text = Some content → 13 ∉ text →
  read_text content = Some text.
Proof.
  intros Henc Hcr. unfold read_text.
  rewrite (utf8_decode_encode text content Henc). simpl.
  by rewrite universal_newlines_id.
Qed.

Lemma rstrip_last (s : pystr) (last_ : N) :
  last s = Some last_ → isspace last_ = false → rstrip s = s.
Proof.
  intros [s' ->]%last_Some Hl. unfold rstrip.
  rewrite rev_unit. cbn [lstrip]. rewrite Hl.
  by rewrite <- rev_unit, rev_involutive.
Qed.

(** A text that neither starts nor ends with white space is not changed
    by [strip]. *)
Lemma strip_id (s : pystr) (first last_ : N) :
  head s = Some first → last s = Some last_ →
  isspace first = false → isspace last_ = false → strip s = s.
Proof.
  intros Hh Hl Hf Hla. unfold strip.
  destruct s as [|c s]; [done|]. injection Hh as ->.
  rewrite lstrip_head by done. by apply rstrip_last with last_.
Qed.

Lemma split_from_piece (sep : N) (piece p : pystr) :
  sep ∉ p → split_from sep piece p = [piece ++ p].
Proof.
  revert piece. induction p as [|c p IH]; intros piece Hn; simpl.
  - by rewrite app_nil_r.
  - apply not_elem_of_cons in Hn as [Hc Hp].
    destruct (N.eqb_spec c sep); [congruence|].
    rewrite IH by done. by rewrite <- app_assoc.
Qed.

Lemma split_from_sep (sep : N) (piece p rest : pystr) :
  sep ∉ p →
  split_from sep piece (p ++ sep :: rest) =
  (piece ++ p) :: split_from sep [] rest.
Proof.
  revert piece. induction p as [|c p IH]; intros piece Hn; simpl.
  - rewrite N.eqb_refl. by rewrite app_nil_r.
  - apply not_elem_of_cons in Hn as [Hc Hp].
    destruct (N.eqb_spec c sep); [congruence|].
    rewrite IH by done. by rewrite <- app_assoc.
Qed.

(** The token file gives back the token it was given.  A token that
    [strip] leaves as it is (the one [main] saves is the stripped answer
    to its prompt), that has no carriage return and whose characters
    UTF-8 encodes, saved by [save_token], is what [load_token] returns
    when the variable [DROPBOX_TOKEN] is unset or empty. *)
Theorem token_round_trip (token : pystr) (environ_token : option pystr) :
  environ_token = None ∨ environ_token = Some [] →
  strip token = token →
  13 ∉ token →
  Forall (λ c, is_scalar c = true) token →
  load_token environ_token (Some (left_by (save_token token))) =
  Read (Some token).
Proof.
  intros Henv Hstrip Hcr Hscalar.
  destruct (utf8_encode_scalar token Hscalar) as [content Henc].
  unfold save_token, write_text. rewrite Henc. cbn [left_by].
  unfold load_token.
  rewrite (read_text_written token content Henc Hcr), Hstrip.
  by destruct Henv as [-> | ->].
Qed.

Lemma token_round_trip_witness :
  load_token None (Some (left_by (save_token (py "sl.B1a-xyz")))) =
  Read (Some (py "sl.B1a-xyz")).
Proof.
  apply (token_round_trip (py "sl.B1a-xyz") None).
  - by left.
  - vm_compute. reflexivity.
  - apply (bool_decide_unpack _). vm_compute. exact I.
  - apply Forall_forall. intros c Hc.
    repeat (apply elem_of_cons in Hc as [->|Hc]; [vm_compute; reflexivity|]).
    by apply elem_of_nil in Hc.
Defined.

(** A token with a carriage return inside does not come back: reading
    turns it into a line feed. *)
Example token_with_carriage_return :
  load_token None (Some (left_by (save_token [97; 13; 98]))) =
  Read (Some [97; 10; 98]).
Proof. vm_compute. reflexivity. Qed.

(** The refresh-token file, as [setup_oauth] writes it, is read back
    by [load_dropbox_client], which builds its client from the three
    values whatever the variable [DROPBOX_TOKEN] and the token file hold.
    The application key and the refresh token are not empty and have no
    white space at either end; none of the three values has a line break
    inside. *)
Theorem refresh_token_round_trip (app_key app_secret refresh_token : pystr)
    (environ_token : option pystr) (token_file : option bytes) :
  plain_path app_key = true →
  plain_line app_secret = true →
  plain_path refresh_token = true →
  load_dropbox_client
    (Some (left_by (save_refresh_token app_key app_secret refresh_token)))
    environ_token token_file =
  Read (Some (RefreshClient app_key app_secret refresh_token)).
Proof.
  intros Hk Hs Hr.
  apply plain_path_spec in Hk
    as (k0 & k1 & Hkh & _ & Hk0 & _ & Hk10 & Hk13 & Hksc).
  apply plain_line_spec in Hs as (Hs10 & Hs13 & Hssc).
  apply plain_path_spec in Hr
    as (r0 & r1 & _ & Hrl & _ & Hr1 & Hr10 & Hr13 & Hrsc).
  set (text := app_key ++ [10] ++ app_secret ++ [10] ++ refresh_token).
  assert (Forall (λ c, is_scalar c = true) text) as Hscalar.
  { unfold text. rewrite !Forall_app. split_and!; try done;
      by repeat constructor. }
  assert (13 ∉ text) as Hcr.
  { unfold text. rewrite !elem_of_app, !list_elem_of_singleton.
    intros [?|[?|[?|[?|?]]]]; done. }
  destruct (utf8_encode_scalar text Hscalar) as [content Henc].
  unfold save_refresh_token, write_text. fold text. rewrite Henc.
  cbn [left_by]. unfold load_dropbox_client.
  rewrite (read_text_written text content Henc Hcr).
  assert (strip text = text) as ->.
  { apply strip_id with k0 r1; try done.
    - unfold text. destruct app_key; [done|]. exact Hkh.
    - unfold text. rewrite !app_assoc.
      destruct (last_Some refresh_token r1) as [[r' ->] _]; [done|].
      rewrite app_assoc. apply last_snoc. }
  unfold split, text. cbn [app].
  rewrite (split_from_sep 10 [] app_key) by done.
  rewrite (split_from_sep 10 [] app_secret) by done.
  rewrite (split_from_piece 10 [] refresh_token) by done.
  done.
Qed.

Lemma refresh_token_round_trip_witness :
  load_dropbox_client
    (Some (left_by (save_refresh_token (py "key1") (py "s3cret") (py "r-tok"))))
    (Some (py "sl.access")) None =
  Read (Some (RefreshClient (py "key1") (py "s3cret") (py "r-tok"))).
Proof.
  apply (refresh_token_round_trip (py "key1") (py "s3cret") (py "r-tok")
           (Some (py "sl.access")) None); vm_compute; reflexivity.
Defined.

(** An empty application key makes a file of two lines once stripped:
    the refresh token is not used and the access token is. *)
Example empty_app_key_falls_back :
  load_dropbox_client
    (Some (left_by (save_refresh_token (py "") (py "s3cret") (py "r-tok"))))
    (Some (py "sl.access")) None =
  Read (Some (TokenClient (py "sl.access"))).
Proof. vm_compute. reflexivity. Qed.

End CredentialFacts.

(** ** catalog-dropbox.py: the totals of the analysis *)

Module InventoryFacts.
Import PyFacts Catalog Remotes AnalysisFacts CredentialFacts.
Import SmartDedupe SmartDedupeFacts.

(** The sum of the entries of a counter dict: the counts and the sizes. *)
Definition add_counter (v acc : Z * Z) : Z * Z :=
  (v.1 + acc.1, v.2 + acc.2)%Z.

Definition total_of (d : counters) : Z * Z :=
  map_fold (λ _, add_counter) (0, 0)%Z d.

Lemma add_counter_comm (v v' acc : Z * Z) :
  add_counter v (add_counter v' acc) = add_counter v' (add_counter v acc).
Proof. unfold add_counter. simpl. f_equal; lia. Qed.

Lemma total_of_insert (d : counters) (key : pystr) (v : Z * Z) :
  d !! key = None → total_of (<[key := v]> d) = add_counter v (total_of d).
Proof.
  intros Hnone. unfold total_of. apply map_fold_insert_L; [|done].
  intros. apply add_counter_comm.
Qed.

(** One more file under a key: one more in the counts, its size more in
    the sizes. *)
Lemma total_of_bump (key : pystr) (size : Z) (d : counters) :
  total_of (bump key size d) = add_counter (1, size)%Z (total_of d).
Proof.
  unfold bump. destruct (d !! key) as [[count total]|] eqn:Hkey; simpl.
  - rewrite <- insert_delete_eq.
    rewrite total_of_insert by apply lookup_delete_eq.
    rewrite <- (insert_delete_id d key (count, total)) at 2 by done.
    rewrite total_of_insert by apply lookup_delete_eq.
    unfold add_counter. simpl. f_equal; lia.
  - rewrite total_of_insert by done. unfold add_counter. simpl.
    f_equal; lia.
Qed.

(** The files that have a timestamp. *)
Definition has_timestamp (f : FileInfo) : bool :=
  match modified f with
  | Some (_ :: _) => true
  | _ => false
  end.

Section Analysis.
Context `{!Clock}.

Lemma analyze_file_totals (f : FileInfo) (a a' : Analysis) :
  analyze_file f a = Some a' →
  total_of (by_extension a') =
    add_counter (1, size f)%Z (total_of (by_extension a)) ∧
  total_of (by_folder a') =
    add_counter (1, size f)%Z (total_of (by_folder a)) ∧
  total_of (by_age a') =
    (if has_timestamp f
     then add_counter (1, size f)%Z (total_of (by_age a))
     else total_of (by_age a)) ∧
  total_files a' = total_files a ∧
  total_size_bytes a' = total_size_bytes a.
Proof.
  unfold analyze_file, has_timestamp.
  destruct (modified f) as [[|c text]|].
  - intros [= <-]. simpl. by rewrite !total_of_bump.
  - destruct (fromisoformat _) as [day|]; [|done].
    intros [= <-]. simpl. by rewrite !total_of_bump.
  - intros [= <-]. simpl. by rewrite !total_of_bump.
Qed.

Lemma analyze_loop_totals (files : list FileInfo) (a a' : Analysis) :
  analyze_loop files a = Some a' →
  total_of (by_extension a') =
    add_counter (Z.of_nat (length files), sum_sizes files)
      (total_of (by_extension a)) ∧
  total_of (by_folder a') =
    add_counter (Z.of_nat (length files), sum_sizes files)
      (total_of (by_folder a)) ∧
  total_of (by_age a') =
    add_counter (Z.of_nat (length (List.filter has_timestamp files)),
                 sum_sizes (List.filter has_timestamp files))
      (total_of (by_age a)) ∧
  total_files a' = total_files a ∧
  total_size_bytes a' = total_size_bytes a.
Proof.
  revert a. induction files as [|f files IH]; intros a; simpl.
  - intros [= <-]. unfold add_counter. simpl.
    by destruct (total_of (by_extension a)), (total_of (by_folder a)),
      (total_of (by_age a)).
  - destruct (analyze_file f a) as [a1|] eqn:Ha1; [|done].
    intros Hloop.
    apply analyze_file_totals in Ha1 as (He1 & Hf1 & Ha1 & Ht1 & Hs1).
    apply IH in Hloop as (He & Hf & Ha & Ht & Hs).
    rewrite He, Hf, Ha, Ht, Hs, He1, Hf1, Ha1, Ht1, Hs1.
    unfold add_counter.
    destruct (has_timestamp f); simpl; split_and!; try done; f_equal; lia.
Qed.

(** The breakdowns add up.  In the analysis [analyze_files] returns, the
    counts of the extensions add up to the number of files and their
    sizes to the total size; so do those of the top-level folders; those
    of the age buckets add up to the number and the size of the files
    that have a timestamp. *)
Theorem breakdowns_add_up (files : list FileInfo) (a : Analysis) :
  analyze_files files = Some a →
  total_files a = length files ∧
  total_size_bytes a = sum_sizes files ∧
  total_of (by_extension a) =
    (Z.of_nat (total_files a), total_size_bytes a) ∧
  total_of (by_folder a) =
    (Z.of_nat (total_files a), total_size_bytes a) ∧
  total_of (by_age a) =
    (Z.of_nat (length (List.filter has_timestamp files)),
     sum_sizes (List.filter has_timestamp files)).
Proof.
  unfold analyze_files.
  destruct (analyze_loop files _) as [a0|] eqn:Hloop; [|done].
  intros [= <-]. simpl.
  apply analyze_loop_totals in Hloop as (He & Hf & Ha & Ht & Hs).
  simpl in *. rewrite He, Hf, Ha, Ht, Hs.
  unfold total_of, add_counter. rewrite !map_fold_empty. simpl.
  rewrite !Z.add_0_r. done.
Qed.

End Analysis.

Lemma breakdowns_add_up_witness :
  ∃ a, @analyze_files calendar_clock [dated; undated; lone] = Some a ∧
       total_files a = 3%nat ∧
       total_size_bytes a = 80%Z ∧
       total_of (by_extension a) = (3, 80)%Z ∧
       total_of (by_folder a) = (3, 80)%Z ∧
       total_of (by_age a) = (1, 10)%Z.
Proof.
  eexists. split; [vm_compute; reflexivity|].
  apply (@breakdowns_add_up calendar_clock [dated; undated; lone]).
  vm_compute. reflexivity.
Defined.

(** *** The top-level folder *)

(** The key under which [analyze_files] counts a file in [by_folder] is
    a slash and what stands between the first slash of the path and the
    next one, or the end of the path: [/Photos] for
    [/Photos/2020/a.jpg], and [/notes.txt] for the file [/notes.txt] of
    the root, which is counted as a folder of its own.  A path without a
    slash is counted under [/]. *)
Theorem top_level_folder (f : FileInfo) :
  (47 ∉ path f → folder_key f = [47]) ∧
  (∀ before top rest,
     path f = before ++ 47 :: top ++ rest →
     47 ∉ before → 47 ∉ top →
     rest = [] ∨ head rest = Some 47 →
     folder_key f = 47 :: top).
Proof.
  unfold folder_key, split. split.
  - intros Hn. by rewrite (split_from_piece 47 [] (path f)).
  - intros before top rest -> Hb Ht Hrest.
    rewrite (split_from_sep 47 [] before) by done.
    destruct Hrest as [->|Hrest].
    + rewrite app_nil_r. by rewrite (split_from_piece 47 [] top).
    + destruct rest as [|c rest]; [done|]. injection Hrest as ->.
      by rewrite (split_from_sep 47 [] top).
Qed.

Example top_level_folder_of_nested :
  folder_key
    {| path := py "/Photos/2020/a.jpg"; name := py "a.jpg"; size := 1;
       modified := None; hash := None; extension := py ".jpg" |} =
  py "/Photos".
Proof. reflexivity. Qed.

Example top_level_folder_of_root_file :
  folder_key
    {| path := py "/notes.txt"; name := py "notes.txt"; size := 1;
       modified := None; hash := None; extension := py ".txt" |} =
  py "/notes.txt".
Proof. reflexivity. Qed.

(** *** From the inventory to the plan *)

Section Pipeline.
Context `{!Clock}.

Lemma elem_of_paths_with_hash (h p : pystr) (files : list FileInfo) :
  p ∈ paths_with_hash h files ↔
  ∃ f, f ∈ files ∧ hash f = Some h ∧ path f = p.
Proof.
  unfold paths_with_hash. rewrite list_elem_of_fmap. split.
  - intros (f & -> & [Hh Hf]%list_elem_of_filter). eauto.
  - intros (f & Hf & Hh & <-). exists f. split; [done|].
    by apply list_elem_of_filter.
Qed.

Lemma NoDup_paths_with_hash (h : pystr) (files : list FileInfo) :
  NoDup (path <$> files) → NoDup (paths_with_hash h files).
Proof.
  unfold paths_with_hash. induction files as [|f files IH]; [done|].
  rewrite fmap_cons. intros [Hnin Hnd]%NoDup_cons.
  destruct (decide (hash f = Some h)).
  - rewrite filter_cons_True, fmap_cons by done.
    apply NoDup_cons. split; [|auto].
    intros (f' & Hp & [_ Hf']%list_elem_of_filter)%list_elem_of_fmap.
    apply Hnin. apply list_elem_of_fmap. eauto.
  - rewrite filter_cons_False by done. auto.
Qed.

(** Two files of the inventory with the same path are the same file. *)
Lemma same_path_same_file (files : list FileInfo) (f f' : FileInfo) :
  NoDup (path <$> files) → f ∈ files → f' ∈ files → path f = path f' →
  f = f'.
Proof.
  induction files as [|g files IH]; [by intros _ ?%elem_of_nil|].
  rewrite fmap_cons. intros [Hnin Hnd]%NoDup_cons Hf Hf' Hp.
  apply elem_of_cons in Hf as [->|Hf], Hf' as [->|Hf']; auto.
  - destruct Hnin. rewrite Hp. by apply list_elem_of_fmap_2.
  - destruct Hnin. rewrite <- Hp. by apply list_elem_of_fmap_2.
Qed.

(** The groups of the analysis share no path when the inventory has no
    path twice. *)
Lemma NoDup_groups (d : list (pystr * list pystr)) (files : list FileInfo) :
  NoDup (path <$> files) → NoDup d.*1 →
  (∀ h paths, (h, paths) ∈ d → paths = paths_with_hash h files) →
  NoDup (d ≫= snd).
Proof.
  intros Hfiles. induction d as [|[h paths] d IH]; [constructor|].
  rewrite fmap_cons, bind_cons. cbn [fst snd].
  intros [Hnin Hnd]%NoDup_cons Hd.
  apply NoDup_app. split_and!.
  - rewrite (Hd h paths) by left. by apply NoDup_paths_with_hash.
  - intros p Hp ([h' paths'] & Hp' & Hg)%list_elem_of_bind. simpl in Hp'.
    rewrite (Hd h paths) in Hp by left.
    rewrite (Hd h' paths') in Hp' by (by right).
    apply elem_of_paths_with_hash in Hp as (f & Hf & Hh & Hpf).
    apply elem_of_paths_with_hash in Hp' as (f' & Hf' & Hh' & Hpf').
    assert (f = f') as <- by (eapply same_path_same_file; eauto; congruence).
    assert (h = h') as <- by congruence.
    apply Hnin. apply list_elem_of_fmap. by exists (h, paths').
  - apply IH; [done|]. intros h' paths' Hin. apply Hd. by right.
Qed.

Lemma analysis_groups (files : list FileInfo) (a : Analysis) :
  analyze_files files = Some a →
  NoDup (duplicates a).*1 ∧
  ∀ h paths, (h, paths) ∈ duplicates a →
    paths = paths_with_hash h files ∧ (2 ≤ length paths)%nat.
Proof.
  unfold analyze_files.
  destruct (analyze_loop files _) as [a0|] eqn:Hloop; [|done].
  intros [= <-]. simpl.
  apply (analyze_loop_groups files []) in Hloop as [Hnodup Hd];
    [|split; [constructor|by intros h; destruct (decide (h = []))]].
  simpl in Hd. split; [by apply NoDup_keys_filter|].
  intros h paths [Hin Hlen]%list_elem_of_In%filter_In.
  apply list_elem_of_In in Hin. simpl in Hlen. apply Nat.ltb_lt in Hlen.
  rewrite (elem_of_list_to_map (M:=gmap pystr)) in Hin by done.
  rewrite Hd in Hin. case_decide; [done|].
  destruct (paths_with_hash h files) eqn:E; [done|].
  injection Hin as <-. split; [done|lia].
Qed.

(** No content is lost.  From an inventory in which no path occurs twice,
    the duplicate groups of the analysis, given to [smart_dedupe] with
    any target folders and a keep preference that selects a member of
    each group, give a plan in which no path occurs twice and every path
    is that of a file of the inventory, of which the inventory has
    another file with the same hash that the plan leaves alone. *)
Theorem planned_files_have_a_kept_copy (files : list FileInfo) (a : Analysis)
    (target_folders : list pystr)
    (keep_preference : option (list pystr → option pystr)) :
  analyze_files files = Some a →
  NoDup (path <$> files) →
  selects_member keep_preference →
  ∃ plan,
    smart_dedupe (duplicates a) target_folders keep_preference = Some plan ∧
    NoDup plan ∧
    ∀ p, p ∈ plan →
      ∃ f kept,
        f ∈ files ∧ path f = p ∧
        kept ∈ files ∧ hash kept = hash f ∧ is_Some (hash f) ∧
        path kept ≠ p ∧ path kept ∉ plan.
Proof.
  intros Ha Hfiles Hsel.
  apply analysis_groups in Ha as [Hkeys Hgroups].
  assert (NoDup (duplicates a ≫= snd)) as Hdisjoint.
  { apply NoDup_groups with files; [done..|].
    intros h paths Hin. by apply Hgroups. }
  eexists. split; [by apply smart_dedupe_plan|].
  split; [by apply NoDup_plan|].
  intros p ([h paths] & Hdel & Hg)%list_elem_of_bind.
  destruct (Hgroups h paths Hg) as [Hpaths Hlen].
  destruct (Hsel paths Hlen) as (keep & Hkeep & Hmem).
  apply elem_of_group_deletions in Hdel as (Hp & _ & Hne). simpl in Hp, Hne.
  rewrite Hpaths in Hp, Hmem.
  apply elem_of_paths_with_hash in Hp as (f & Hf & Hh & Hpf).
  apply elem_of_paths_with_hash in Hmem as (kept & Hk & Hkh & Hkp).
  exists f, kept. split_and!; try done.
  - congruence.
  - rewrite Hkp. intros ->. congruence.
  - rewrite Hkp.
    intros ([h' paths'] & Hdel' & Hg')%list_elem_of_bind.
    apply elem_of_group_deletions in Hdel' as (Hp' & _ & Hne').
    simpl in Hp', Hne'.
    assert (snd (h, paths) = snd (h', paths')) as Heq.
    { eapply shared_path_same_group; eauto. simpl.
      rewrite Hpaths. apply elem_of_paths_with_hash. eauto. }
    simpl in Heq. subst paths'. congruence.
Qed.

End Pipeline.

Lemma planned_files_have_a_kept_copy_witness :
  ∃ a plan,
    @analyze_files calendar_clock [dated; undated; lone] = Some a ∧
    smart_dedupe (duplicates a) [py "/docs/"] None = Some plan ∧
    plan = [py "/docs/b.txt"] ∧
    NoDup plan ∧
    ∀ p, p ∈ plan →
      ∃ f kept,
        f ∈ [dated; undated; lone] ∧ path f = p ∧
        kept ∈ [dated; undated; lone] ∧ hash kept = hash f ∧
        is_Some (hash f) ∧ path kept ≠ p ∧ path kept ∉ plan.
Proof.
  destruct (@planned_files_have_a_kept_copy calendar_clock
              [dated; undated; lone]
              {| total_files := 3; total_size_bytes := 80;
                 by_extension := {[ py ".txt" := (3, 80)%Z ]};
                 by_age := {[ py "Last 30 days" := (1, 10)%Z ]};
                 duplicates := [(py "h1", [py "/docs/a.txt"; py "/docs/b.txt"])];
                 by_folder := {[ py "/docs" := (3, 80)%Z ]} |}
              [py "/docs/"] None)
    as (plan & Hplan & Hnodup & Hkept).
  - vm_compute. reflexivity.
  - apply (bool_decide_unpack _). vm_compute. exact I.
  - exact default_selects_member.
  - eexists _, plan. split; [vm_compute; reflexivity|].
    split; [exact Hplan|]. split; [|by split].
    vm_compute in Hplan. by injection Hplan as <-.
Defined.

End InventoryFacts.

(** ** catalog-dropbox.py and smart-dedupe.py: what is announced and
    what is planned *)

Module RecommendationFacts.
Import PyFacts Catalog Remotes AnalysisFacts InventoryFacts.
Import SmartDedupe SmartDedupeFacts Recommendations.

Lemma filter_all {A} (P : A → Prop) `{!∀ x, Decision (P x)} (l : list A) :
  (∀ x, x ∈ l → P x) → filter P l = l.
Proof.
  induction l as [|x l IH]; intros Hall; [done|].
  rewrite filter_cons_True by (apply Hall; left).
  f_equal. apply IH. intros y Hy. apply Hall. by right.
Qed.

(** All the paths of a group but the kept one: one less than the group
    has, when all of them pass the other test; fewer if not. *)
Lemma length_filter_but_one (Q : pystr → Prop) `{!∀ p, Decision (Q p)}
    (paths : list pystr) (keep : pystr) :
  NoDup paths → keep ∈ paths →
  (length (filter (λ p, p ≠ keep ∧ Q p) paths) ≤ length paths - 1)%nat ∧
  ((∀ p, p ∈ paths → Q p) →
   length (filter (λ p, p ≠ keep ∧ Q p) paths) = (length paths - 1)%nat).
Proof.
  induction paths as [|x paths IH]; [by intros _ ?%elem_of_nil|].
  intros [Hx Hnd]%NoDup_cons Hin.
  destruct (decide (x = keep)) as [->|Hne].
  - rewrite filter_cons_False by (by intros []).
    simpl. rewrite Nat.sub_0_r. split; [apply length_filter|].
    intros HQ. rewrite filter_all; [done|].
    intros p Hp. split; [by intros ->|]. apply HQ. by right.
  - apply elem_of_cons in Hin as [?|Hin]; [congruence|].
    destruct (IH Hnd Hin) as [Hle Heq].
    assert (0 < length paths)%nat by (destruct paths; [by apply elem_of_nil in Hin|simpl; lia]).
    split.
    + rewrite filter_cons. case_decide; simpl; lia.
    + intros HQ. rewrite filter_cons_True by (split; [done|apply HQ; left]).
      simpl. rewrite Heq by (intros p Hp; apply HQ; by right). lia.
Qed.

Lemma length_group_deletions target_folders keep_preference hash_val paths :
  selects_member keep_preference →
  NoDup paths → (2 ≤ length paths)%nat →
  (length (group_deletions target_folders keep_preference (hash_val, paths))
   ≤ length paths - 1)%nat ∧
  ((∀ p, p ∈ paths → Is_true (any_startswith target_folders p)) →
   length (group_deletions target_folders keep_preference (hash_val, paths))
   = (length paths - 1)%nat).
Proof.
  intros Hsel Hnd Hlen. unfold group_deletions. simpl.
  destruct (Nat.ltb_spec (length paths) 2); [lia|].
  destruct (Hsel paths Hlen) as (keep & -> & Hin).
  by apply length_filter_but_one.
Qed.

Lemma length_bind {A B} (f : A → list B) (l : list A) :
  length (l ≫= f) = foldr (λ x total, length (f x) + total)%nat 0%nat l.
Proof.
  induction l as [|x l IH]; [done|].
  by rewrite bind_cons, length_app, IH.
Qed.

Section Analysis.
Context `{!Clock}.

(** What the catalog announces bounds what is planned.  For an inventory
    in which no path occurs twice, the number of copies the [Duplicates]
    recommendation gives as its [file_count] is at least the number of
    paths of any plan [smart_dedupe] makes from the duplicate groups of
    the analysis, and is that number when every path of the groups is in
    a target folder (as with the empty prefix). *)
Theorem announced_copies_bound_the_plan (files : list FileInfo) (a : Analysis)
    (target_folders : list pystr)
    (keep_preference : option (list pystr → option pystr)) :
  analyze_files files = Some a →
  NoDup (path <$> files) →
  selects_member keep_preference →
  ∃ plan,
    smart_dedupe (duplicates a) target_folders keep_preference = Some plan ∧
    (Z.of_nat (length plan) ≤ dup_files (duplicates a))%Z ∧
    ((∀ p, p ∈ duplicates a ≫= snd →
           Is_true (any_startswith target_folders p)) →
     Z.of_nat (length plan) = dup_files (duplicates a)).
Proof.
  intros Ha Hfiles Hsel.
  apply analysis_groups in Ha as [_ Hgroups].
  eexists. split; [by apply smart_dedupe_plan|].
  rewrite length_bind. unfold dup_files.
  induction (duplicates a) as [|[h paths] d IH]; [done|].
  destruct (Hgroups h paths) as [Hpaths Hlen]; [left|].
  assert (NoDup paths) as Hnd
    by (rewrite Hpaths; by apply NoDup_paths_with_hash).
  destruct (length_group_deletions target_folders keep_preference h paths)
    as [Hle Heq]; [done..|].
  destruct IH as [IHle IHeq].
  { intros h' paths' Hin. apply Hgroups. by right. }
  cbn [foldr snd]. split.
  - lia.
  - intros Hall. rewrite Heq, Nat2Z.inj_add, IHeq.
    + lia.
    + intros p Hp. apply Hall. rewrite bind_cons. apply elem_of_app. by right.
    + intros p Hp. apply Hall. rewrite bind_cons. apply elem_of_app. by left.
Qed.

End Analysis.

Lemma announced_copies_bound_the_plan_witness :
  ∃ a plan,
    @analyze_files calendar_clock [dated; undated; lone] = Some a ∧
    dup_files (duplicates a) = 1%Z ∧
    smart_dedupe (duplicates a) [py ""] None = Some plan ∧
    (Z.of_nat (length plan) ≤ dup_files (duplicates a))%Z ∧
    ((∀ p, p ∈ duplicates a ≫= snd → Is_true (any_startswith [py ""] p)) →
     Z.of_nat (length plan) = dup_files (duplicates a)).
Proof.
  destruct (@announced_copies_bound_the_plan calendar_clock
              [dated; undated; lone]
              {| total_files := 3; total_size_bytes := 80;
                 by_extension := {[ py ".txt" := (3, 80)%Z ]};
                 by_age := {[ py "Last 30 days" := (1, 10)%Z ]};
                 duplicates := [(py "h1", [py "/docs/a.txt"; py "/docs/b.txt"])];
                 by_folder := {[ py "/docs" := (3, 80)%Z ]} |}
              [py ""] None)
    as (plan & Hplan & Hle & Heq).
  - vm_compute. reflexivity.
  - apply (bool_decide_unpack _). vm_compute. exact I.
  - exact default_selects_member.
  - eexists _, plan. split; [vm_compute; reflexivity|].
    split; [reflexivity|]. by split.
Defined.

(** *** The bytes announced and the bytes planned *)

(** The size the inventory gives for a path, and the bytes of a plan. *)
Definition size_of (all_files : list FileInfo) (p : pystr) : Z :=
  default 0%Z (size <$> path_to_file all_files !! p).

Definition plan_size (all_files : list FileInfo) (plan : list pystr) : Z :=
  foldr (λ p total, size_of all_files p + total)%Z 0%Z plan.

Lemma path_to_file_snoc (files : list FileInfo) (f : FileInfo) :
  path_to_file (files ++ [f]) = <[path f := f]> (path_to_file files).
Proof. unfold path_to_file. by rewrite foldl_app. Qed.

(** In an inventory without a path twice, the dict gives each file back
    for its path. *)
Lemma path_to_file_lookup (files : list FileInfo) (f : FileInfo) :
  NoDup (path <$> files) → f ∈ files → path_to_file files !! path f = Some f.
Proof.
  induction files as [|g files IH] using rev_ind; [by intros _ ?%elem_of_nil|].
  rewrite fmap_app, path_to_file_snoc. simpl.
  intros (Hnd & Hdisj & _)%NoDup_app [Hf|Hf%list_elem_of_singleton]%elem_of_app.
  - rewrite lookup_insert_ne; [by apply IH|].
    intros Heq. apply (Hdisj (path f)); [by apply list_elem_of_fmap_2|].
    rewrite Heq. left.
  - subst g. apply lookup_insert_eq.
Qed.

Lemma omap_path_to_file (files group : list FileInfo) :
  NoDup (path <$> files) → group ⊆ files →
  omap (λ p, path_to_file files !! p) (path <$> group) = group.
Proof.
  intros Hnd. induction group as [|f group IH]; intros Hsub; [done|].
  rewrite fmap_cons. cbn [omap list_omap].
  rewrite path_to_file_lookup; [|done|apply Hsub; left].
  f_equal. apply IH. intros x Hx. apply Hsub. by right.
Qed.

Lemma sum_constant {A} (g : A → Z) (s : Z) (l : list A) :
  (∀ x, x ∈ l → g x = s) →
  foldr (λ x total, g x + total)%Z 0%Z l = (Z.of_nat (length l) * s)%Z.
Proof.
  induction l as [|x l IH]; intros Hall; [done|].
  cbn [foldr length]. rewrite IH, (Hall x) by (by left || (intros; apply Hall; by right)).
  lia.
Qed.

Lemma plan_size_app (files : list FileInfo) (plan plan' : list pystr) :
  plan_size files (plan ++ plan') =
  (plan_size files plan + plan_size files plan')%Z.
Proof.
  unfold plan_size. induction plan as [|p plan IH]; simpl; [done|].
  rewrite IH. lia.
Qed.

Lemma foldl_sum {A} (F : A → Z) (z : Z) (l : list A) :
  foldl (λ total x, total + F x)%Z z l =
  (z + foldr (λ x total, F x + total) 0 l)%Z.
Proof.
  revert z. induction l as [|x l IH]; intros z; simpl; [lia|].
  rewrite IH. lia.
Qed.

Section Sizes.
Context `{!Clock}.

(** The bytes of one group: as the recommendation counts them, and as
    the plan has them. *)
Lemma group_size_planned (files : list FileInfo) (h : pystr)
    (target_folders : list pystr)
    (keep_preference : option (list pystr → option pystr)) :
  NoDup (path <$> files) →
  selects_member keep_preference →
  (∀ f f', f ∈ files → f' ∈ files → hash f = Some h → hash f' = Some h →
           size f = size f') →
  (2 ≤ length (paths_with_hash h files))%nat →
  (∀ p, p ∈ paths_with_hash h files →
        Is_true (any_startswith target_folders p)) →
  plan_size files
    (group_deletions target_folders keep_preference
       (h, paths_with_hash h files)) =
  group_size (path_to_file files) (paths_with_hash h files).
Proof.
  intros Hnd Hsel Hsame Hlen Hall.
  assert (NoDup (paths_with_hash h files)) as Hnodup
    by (by apply NoDup_paths_with_hash).
  unfold paths_with_hash in *.
  remember (filter (λ f, hash f = Some h) files) as group eqn:Hgroup.
  assert (group ⊆ files) as Hsub.
  { subst group. intros f [_ ?]%list_elem_of_filter. done. }
  assert (∀ f, f ∈ group → hash f = Some h) as Hhash.
  { subst group. intros f [? _]%list_elem_of_filter. done. }
  clear Hgroup. rewrite length_fmap in Hlen.
  destruct group as [|first group']; [simpl in Hlen; lia|].
  assert (∀ f, f ∈ first :: group' → size f = size first) as Hsize.
  { intros f Hf. apply Hsame; auto. apply Hsub. left. apply Hhash. left. }
  unfold group_size. rewrite omap_path_to_file by done.
  rewrite (sum_constant size (size first)) by done.
  unfold plan_size.
  rewrite (sum_constant (size_of files) (size first)).
  - destruct (length_group_deletions target_folders keep_preference h
                (path <$> first :: group')) as [_ ->]; try done.
    + by rewrite length_fmap.
    + rewrite length_fmap. rewrite Nat2Z.inj_sub by lia. lia.
  - intros p (Hp & _)%elem_of_group_deletions. cbn [snd] in Hp.
    apply list_elem_of_fmap in Hp as (f & -> & Hf).
    unfold size_of. rewrite path_to_file_lookup by auto. simpl. by apply Hsize.
Qed.

(** The bytes announced are the bytes planned.  For an inventory in which
    no path occurs twice and files with the same hash have the same size,
    and target folders that hold every path of the duplicate groups, the
    bytes the [Duplicates] recommendation counts as wasted ([dup_size],
    before it is turned into gigabytes) are the bytes of the files in the
    plan of [smart_dedupe], whatever member of each group the keep
    preference selects. *)
Theorem announced_bytes_are_planned (files : list FileInfo) (a : Analysis)
    (target_folders : list pystr)
    (keep_preference : option (list pystr → option pystr)) :
  analyze_files files = Some a →
  NoDup (path <$> files) →
  selects_member keep_preference →
  (∀ f f' h, f ∈ files → f' ∈ files → hash f = Some h → hash f' = Some h →
             size f = size f') →
  (∀ p, p ∈ duplicates a ≫= snd → Is_true (any_startswith target_folders p)) →
  ∃ plan,
    smart_dedupe (duplicates a) target_folders keep_preference = Some plan ∧
    plan_size files plan = dup_size (duplicates a) files.
Proof.
  intros Ha Hfiles Hsel Hsame Hall.
  apply analysis_groups in Ha as [_ Hgroups].
  eexists. split; [by apply smart_dedupe_plan|].
  unfold dup_size. rewrite foldl_sum, Z.add_0_l.
  induction (duplicates a) as [|[h paths] d IH]; [done|].
  destruct (Hgroups h paths) as [Hpaths Hlen]; [left|].
  rewrite bind_cons, plan_size_app. cbn [foldr snd].
  rewrite IH.
  - f_equal. subst paths. apply group_size_planned; try done.
    + intros f f' Hf Hf'. by apply Hsame.
    + intros p Hp. apply Hall. rewrite bind_cons. apply elem_of_app. by left.
  - intros h' paths' Hin. apply Hgroups. by right.
  - intros p Hp. apply Hall. rewrite bind_cons. apply elem_of_app. by right.
Qed.

End Sizes.

(** Two copies of a file of 7 bytes, and another file. *)
Definition copies : list FileInfo :=
  [ {| path := py "/a/x.bin"; name := py "x.bin"; size := 7;
       modified := None; hash := Some (py "h7"); extension := py ".bin" |};
    {| path := py "/b/x.bin"; name := py "x.bin"; size := 7;
       modified := None; hash := Some (py "h7"); extension := py ".bin" |};
    {| path := py "/b/y.bin"; name := py "y.bin"; size := 9;
       modified := None; hash := Some (py "h9"); extension := py ".bin" |} ].

Lemma announced_bytes_are_planned_witness :
  ∃ a plan,
    @analyze_files calendar_clock copies = Some a ∧
    smart_dedupe (duplicates a) [py ""] None = Some plan ∧
    dup_size (duplicates a) copies = 7%Z ∧
    plan_size copies plan = dup_size (duplicates a) copies.
Proof.
  destruct (@announced_bytes_are_planned calendar_clock copies
              {| total_files := 3; total_size_bytes := 23;
                 by_extension := {[ py ".bin" := (3, 23)%Z ]};
                 by_age := ∅;
                 duplicates := [(py "h7", [py "/a/x.bin"; py "/b/x.bin"])];
                 by_folder := {[ py "/a" := (1, 7)%Z; py "/b" := (2, 16)%Z ]} |}
              [py ""] None)
    as (plan & Hplan & Hsize).
  - vm_compute. reflexivity.
  - apply (bool_decide_unpack _). vm_compute. exact I.
  - exact default_selects_member.
  - intros f f' h Hf Hf' Hh Hh'.
    unfold copies in Hf, Hf'.
    repeat (apply elem_of_cons in Hf as [->|Hf]);
      try (by apply elem_of_nil in Hf);
      repeat (apply elem_of_cons in Hf' as [->|Hf']);
      try (by apply elem_of_nil in Hf');
      try reflexivity; vm_compute in Hh, Hh'; congruence.
  - intros p _. by rewrite empty_string_target_matches.
  - eexists _, plan. split; [vm_compute; reflexivity|].
    split; [exact Hplan|]. split; [vm_compute; reflexivity|exact Hsize].
Defined.

End RecommendationFacts.

(** ** catalog-dropbox.py: the crawl that ends, and the one cut short *)

Module CrawlMoreFacts.
Import Catalog CrawlFacts ResumeFacts Remotes CrawlClaims.

Section Crawler.
Context {W : Type} `{!ListClient W} `{!Json} `{!StrLower}.

(** A complete crawl returns the listing.  When the listing goes through
    its pages to the last one, [get_folder_stats] returns the files and
    the folders of all the pages, in the order of the listing, after
    those of the checkpoint it resumed from; entries that are neither
    files nor folders are left out; and the checkpoint file is
    removed. *)
Theorem crawl_returns_listing (fuel : nat) (path : pystr)
    (resume_checkpoint : option Checkpoint) (f : file) (w : W)
    (pages : list ListFolderResult) (w' : W) :
  crawls path resume_checkpoint w pages None w' →
  (length pages ≤ fuel)%nat →
  get_folder_stats fuel path resume_checkpoint f w =
  (Returned (resumed_files resume_checkpoint ++ files_in (pages ≫= entries))
            (resumed_folders resume_checkpoint ++
             folders_in (pages ≫= entries)),
   None, w') ∧
  load_checkpoint (get_folder_stats fuel path resume_checkpoint f w).1.2 = None.
Proof.
  intros Hcrawl Hfuel.
  by rewrite (get_folder_stats_complete fuel path resume_checkpoint f w pages w').
Qed.

(** The loop writes no checkpoint while the number of files stays under
    the next multiple of the interval. *)
Lemma scan_quiet fuel w result pages ending w' st :
  follows w result pages ending w' → (length pages ≤ fuel)%nat →
  world st = w →
  (Z.of_nat (length (all_files st)) mod CHECKPOINT_INTERVAL +
   Z.of_nat (length (files_in (pages ≫= entries))) < CHECKPOINT_INTERVAL)%Z →
  scan fuel result st =
  let st' :=
    Crawl (all_files st ++ files_in (pages ≫= entries))
          (all_folders st ++ folders_in (pages ≫= entries))
          (checkpoint_file st) w' in
  match ending with
  | None => ScanComplete st'
  | Some e => ScanRaised e (last pages) st'
  end.
Proof.
  intros Hfollows. revert fuel st.
  induction Hfollows as [w result Hmore|w result e w' Hmore Hfetch
                        |w result result' w1 pages ending w' Hmore Hfetch Hnext IH];
    intros fuel st Hfuel Hw Hquiet;
    (destruct fuel as [|fuel]; [simpl in Hfuel; lia|]);
    cbn [scan].
  - change ([result] ≫= entries) with (entries result ++ []) in *.
    rewrite app_nil_r in *.
    rewrite absorb_quiet by done. rewrite Hmore. cbn. by rewrite Hw.
  - change ([result] ≫= entries) with (entries result ++ []) in *.
    rewrite app_nil_r in *.
    rewrite absorb_quiet by done. rewrite Hmore. cbn.
    by rewrite Hw, Hfetch.
  - rewrite bind_cons, files_in_app, length_app in Hquiet.
    rewrite absorb_quiet by lia. rewrite Hmore. cbn [negb world].
    rewrite Hw, Hfetch.
    rewrite IH; [| simpl in Hfuel; lia | done |].
    + cbn [all_files all_folders checkpoint_file].
      rewrite bind_cons, files_in_app, folders_in_app, <- !app_assoc.
      destruct (follows_nonempty _ _ _ _ _ Hnext) as [pages' ->].
      by rewrite last_cons_cons.
    + cbn [all_files]. rewrite length_app, Nat2Z.inj_add.
      unfold CHECKPOINT_INTERVAL in *.
      pose proof (Z.mod_pos_bound (Z.of_nat (length (all_files st))) 10000
                    ltac:(lia)) as Hbound.
      rewrite <- Zplus_mod_idemp_l.
      set (r := (Z.of_nat (length (all_files st)) mod 10000)%Z) in *.
      clearbody r. rewrite Z.mod_small by lia. lia.
Qed.

(** An interrupt before the next multiple of the interval leaves no
    checkpoint.  A crawl that starts with [k] files (none when it starts
    afresh) and is interrupted, by a [KeyboardInterrupt] in a fetch,
    before its files reach the next multiple of [CHECKPOINT_INTERVAL],
    leaves the checkpoint file as it found it: what the run has scanned
    is not saved. *)
Theorem interrupt_before_interval (fuel : nat) (path : pystr)
    (resume_checkpoint : option Checkpoint) (f : file) (w : W)
    (pages : list ListFolderResult) (w' : W) :
  crawls path resume_checkpoint w pages (Some KeyboardInterrupt) w' →
  (length pages ≤ fuel)%nat →
  (Z.of_nat (length (resumed_files resume_checkpoint)) mod CHECKPOINT_INTERVAL +
   Z.of_nat (length (files_in (pages ≫= entries))) < CHECKPOINT_INTERVAL)%Z →
  get_folder_stats fuel path resume_checkpoint f w =
  (Propagated KeyboardInterrupt, f, w').
Proof.
  intros Hcrawl Hfuel Hquiet. unfold get_folder_stats, try_scan.
  inversion Hcrawl as [e w1 Hfirst|result w1 pages1 ending w2 Hfirst Hfollows];
    subst.
  - destruct resume_checkpoint as [checkpoint|]; simpl in Hfirst;
      by rewrite Hfirst.
  - destruct resume_checkpoint as [checkpoint|]; simpl in Hfirst, Hquiet;
      rewrite Hfirst.
    + by rewrite (scan_quiet fuel w1 result pages (Some KeyboardInterrupt) w').
    + by rewrite (scan_quiet fuel w1 result pages (Some KeyboardInterrupt) w').
Qed.

End Crawler.

(** The store of three pages, listed to the end. *)
Lemma three_pages_listed :
  @crawls _ (paged_client three_pages) [] None None
    [page three_pages 0; page three_pages 1; page three_pages 2] None None.
Proof.
  eapply crawls_pages; [reflexivity|].
  eapply follows_next; [reflexivity|reflexivity|].
  eapply follows_next; [reflexivity|reflexivity|].
  eapply follows_last; reflexivity.
Qed.

Lemma crawl_returns_listing_witness :
  @get_folder_stats _ (paged_client three_pages) compact_json ascii_lower
    5 [] None (Some (py "stale")) None =
  (Returned
     (@files_in ascii_lower (concat three_pages))
     [{| folder_path := py "/f"; folder_name := py "f" |}],
   None, None) ∧
  @load_checkpoint compact_json
    (@get_folder_stats _ (paged_client three_pages) compact_json ascii_lower
       5 [] None (Some (py "stale")) None).1.2 = None.
Proof.
  apply (@crawl_returns_listing _ (paged_client three_pages) compact_json
           ascii_lower 5 [] None (Some (py "stale")) None
           [page three_pages 0; page three_pages 1; page three_pages 2] None).
  - exact three_pages_listed.
  - simpl. lia.
Defined.

(** The store of three pages, interrupted at the third fetch. *)
Lemma three_pages_interrupted :
  @crawls _ (paged_client three_pages) [] None (Some (2%nat, KeyboardInterrupt))
    [page three_pages 0; page three_pages 1] (Some KeyboardInterrupt) None.
Proof.
  eapply crawls_pages; [reflexivity|].
  eapply follows_next; [reflexivity|reflexivity|].
  eapply follows_raise; reflexivity.
Qed.

Lemma interrupt_before_interval_witness :
  @get_folder_stats _ (paged_client three_pages) compact_json ascii_lower
    5 [] None None (Some (2%nat, KeyboardInterrupt)) =
  (Propagated KeyboardInterrupt, None, None).
Proof.
  apply (@interrupt_before_interval _ (paged_client three_pages) compact_json
           ascii_lower 5 [] None None (Some (2%nat, KeyboardInterrupt))
           [page three_pages 0; page three_pages 1] None).
  - exact three_pages_interrupted.
  - simpl. lia.
  - vm_compute. reflexivity.
Defined.

End CrawlMoreFacts.

(** ** smart-dedupe.py: the keep preferences *)

Module PolicyFacts.
Import PyFacts SmartDedupe SmartDedupeFacts.

Lemma first_sorted_least (paths : list pystr) (keep : pystr) :
  first_sorted paths = Some keep →
  ∀ p, p ∈ paths → str_leb keep p = true.
Proof.
  unfold first_sorted. intros Hk p Hp%elem_of_sorted.
  pose proof (sorted_strongly paths) as Hs.
  destruct (sorted paths) as [|k rest]; [done|]. injection Hk as ->.
  apply StronglySorted_inv in Hs as [_ Hall].
  apply elem_of_cons in Hp as [->|Hp]; [apply str_leb_refl|].
  rewrite Forall_forall in Hall. apply Is_true_true. by apply Hall.
Qed.

(** The smallest of the paths that have a property, when one has it. *)
Lemma first_sorted_filter_least (P : pystr → Prop) `{!∀ p, Decision (P p)}
    (paths : list pystr) (q : pystr) :
  q ∈ paths → P q →
  filter P paths ≠ [] ∧
  ∃ keep, first_sorted (filter P paths) = Some keep ∧
          keep ∈ paths ∧ P keep ∧
          ∀ p, p ∈ paths → P p → str_leb keep p = true.
Proof.
  intros Hq HPq.
  assert (filter P paths ≠ []) as Hne.
  { intros Hnil. by apply (filter_nil_not_elem_of P paths q). }
  split; [done|].
  destruct (first_sorted_member (filter P paths) Hne) as (keep & Hk & Hin).
  apply list_elem_of_filter in Hin as [HP Hin].
  exists keep. split_and!; [done..|].
  intros p Hp HPp. apply (first_sorted_least _ _ Hk).
  by apply list_elem_of_filter.
Qed.

Lemma elem_of_group_deletions_2 target_folders keep_preference hash_val paths
    keep_path path :
  (2 ≤ length paths)%nat →
  keep_path_of keep_preference paths = Some keep_path →
  path ∈ paths → path ≠ keep_path →
  Is_true (any_startswith target_folders path) →
  path ∈ group_deletions target_folders keep_preference (hash_val, paths).
Proof.
  intros Hlen Hkeep Hin Hne Hany. unfold group_deletions. simpl.
  destruct (Nat.ltb_spec (length paths) 2); [lia|].
  rewrite Hkeep. by apply list_elem_of_filter.
Qed.

Definition camera_uploads : pystr := py "/Camera Uploads/".

(** Where a copy outside [/Camera Uploads/] exists, the preference keeps
    the smallest of the copies outside. *)
Lemma camera_uploads_keeps_outside (paths : list pystr) (q : pystr) :
  q ∈ paths → startswith q camera_uploads = false →
  ∃ keep, camera_uploads_preference paths = Some keep ∧
          keep ∈ paths ∧ startswith keep camera_uploads = false ∧
          ∀ p, p ∈ paths → startswith p camera_uploads = false →
               str_leb keep p = true.
Proof.
  intros Hq Hout. unfold camera_uploads_preference.
  destruct (first_sorted_filter_least
              (λ p, ¬ Is_true (startswith p (py "/Camera Uploads/"))) paths q)
    as (Hne & keep & Hk & Hin & HP & Hleast); [done| |].
  { unfold camera_uploads in Hout. rewrite Hout. by intros []. }
  destruct (filter _ paths) as [|c non_camera] eqn:E; [done|].
  exists keep. split_and!; [done..| |].
  - unfold camera_uploads. destruct (startswith keep _); [by destruct HP|done].
  - intros p Hp Hpout. apply Hleast; [done|].
    unfold camera_uploads in Hpout. rewrite Hpout. by intros [].
Qed.

(** The plan of the [camera-uploads] target.  With [/Camera Uploads/] as
    the only target folder and [camera_uploads_preference],
    [smart_dedupe] returns a plan, all in [/Camera Uploads/].  Of a group
    that has a copy outside [/Camera Uploads/], every copy inside is in
    the plan; of a group that is all inside, every copy but the smallest
    is. *)
Theorem camera_uploads_plan (duplicates : list (pystr * list pystr)) :
  ∃ plan,
    smart_dedupe duplicates [camera_uploads] (Some camera_uploads_preference) =
      Some plan ∧
    (∀ p, p ∈ plan → startswith p camera_uploads = true) ∧
    (∀ hash_val paths p q,
       (hash_val, paths) ∈ duplicates → (2 ≤ length paths)%nat →
       q ∈ paths → startswith q camera_uploads = false →
       p ∈ paths → startswith p camera_uploads = true →
       p ∈ plan) ∧
    (∀ hash_val paths smallest p,
       (hash_val, paths) ∈ duplicates → (2 ≤ length paths)%nat →
       (∀ q, q ∈ paths → startswith q camera_uploads = true) →
       first_sorted paths = Some smallest →
       p ∈ paths → p ≠ smallest →
       p ∈ plan).
Proof.
  eexists. split;
    [apply smart_dedupe_plan; exact camera_uploads_selects_member|].
  assert (∀ p, startswith p camera_uploads = true →
               Is_true (any_startswith [camera_uploads] p)) as Hany.
  { intros p Hp. unfold any_startswith. cbn [existsb]. by rewrite Hp. }
  split_and!.
  - intros p (g & Hdel & Hg)%list_elem_of_bind.
    apply elem_of_group_deletions in Hdel as (_ & Hstarts & _).
    unfold any_startswith in Hstarts. cbn [existsb] in Hstarts.
    by destruct (startswith p camera_uploads).
  - intros hash_val paths p q Hg Hlen Hq Hout Hp Hin.
    destruct (camera_uploads_keeps_outside paths q) as (keep & Hk & _ & Hko & _);
      [done..|].
    apply list_elem_of_bind. exists (hash_val, paths). split; [|done].
    apply elem_of_group_deletions_2 with keep; auto.
    intros ->. congruence.
  - intros hash_val paths smallest p Hg Hlen Hall Hsm Hp Hne.
    apply list_elem_of_bind. exists (hash_val, paths). split; [|done].
    apply elem_of_group_deletions_2 with smallest; auto.
    simpl. unfold camera_uploads_preference.
    rewrite (filter_none _ paths); [done|].
    intros x Hx Hnot. apply Hnot. specialize (Hall x Hx).
    unfold camera_uploads in Hall. by rewrite Hall.
Qed.

Example camera_uploads_example_plan :
  smart_dedupe example_duplicates [camera_uploads]
    (Some camera_uploads_preference) =
  Some [py "/Camera Uploads/a.jpg"; py "/Camera Uploads/a (1).jpg";
        py "/Camera Uploads/b.jpg"].
Proof. vm_compute. reflexivity. Qed.

Definition is_recipe (p : pystr) : Prop :=
  startswith p (py "/personal/recipes/") = true.

Definition is_gallery (p : pystr) : Prop :=
  contains (py "/gallery/") p = true.

(** [recipes_preference] keeps, of a group that is not empty: the smallest
    of the paths under [/personal/recipes/] that have [/gallery/] in
    them, when there is one; if not, the smallest of the paths under
    [/personal/recipes/], when there is one; if not, the smallest of the
    paths. *)
Theorem recipes_preference_keeps (paths : list pystr) :
  paths ≠ [] →
  ∃ keep,
    recipes_preference paths = Some keep ∧ keep ∈ paths ∧
    ((∃ q, q ∈ paths ∧ is_recipe q ∧ is_gallery q) →
     is_recipe keep ∧ is_gallery keep ∧
     ∀ p, p ∈ paths → is_recipe p → is_gallery p → str_leb keep p = true) ∧
    ((∃ q, q ∈ paths ∧ is_recipe q) →
     (∀ q, q ∈ paths → is_recipe q → ¬ is_gallery q) →
     is_recipe keep ∧
     ∀ p, p ∈ paths → is_recipe p → str_leb keep p = true) ∧
    ((∀ q, q ∈ paths → ¬ is_recipe q) →
     ∀ p, p ∈ paths → str_leb keep p = true).
Proof.
  intros Hne. unfold recipes_preference, is_recipe, is_gallery.
  set (recipe := λ p : pystr, Is_true (startswith p (py "/personal/recipes/"))).
  set (gallery := λ p : pystr, Is_true (contains (py "/gallery/") p)).
  destruct (filter recipe paths) as [|r recipe_paths] eqn:ER.
  - destruct (first_sorted_member paths Hne) as (keep & Hk & Hin).
    exists keep. split_and!; [done..| | |].
    + intros (q & Hq & Hr & _). exfalso.
      apply (filter_nil_not_elem_of recipe paths q); [done| |done].
      by apply Is_true_true.
    + intros (q & Hq & Hr) _. exfalso.
      apply (filter_nil_not_elem_of recipe paths q); [done| |done].
      by apply Is_true_true.
    + intros _. by apply first_sorted_least.
  - assert (r ∈ paths ∧ startswith r (py "/personal/recipes/") = true)
      as [Hr Hrr].
    { assert (r ∈ filter recipe paths) as Hin by (rewrite ER; left).
      apply list_elem_of_filter in Hin as [Hin ?].
      split; [done|]. by apply Is_true_true. }
    destruct (filter gallery (r :: recipe_paths)) as [|g gallery_paths] eqn:EG.
    + destruct (first_sorted_member (r :: recipe_paths)) as (keep & Hk & Hin);
        [done|].
      pose proof Hin as Hin'. rewrite <- ER in Hin'.
      apply list_elem_of_filter in Hin' as [Hkr Hkin].
      exists keep. split_and!; [done..| | |].
      * intros (q & Hq & Hqr & Hqg). exfalso.
        apply (filter_nil_not_elem_of gallery (r :: recipe_paths) q);
          [done|by apply Is_true_true|].
        rewrite <- ER. apply list_elem_of_filter.
        split; [by apply Is_true_true|done].
      * intros _ _. split; [by apply Is_true_true|].
        intros p Hp Hpr. apply (first_sorted_least _ _ Hk).
        rewrite <- ER. apply list_elem_of_filter.
        split; [by apply Is_true_true|done].
      * intros Hnone. exfalso. by apply (Hnone r).
    + assert (g ∈ filter gallery (r :: recipe_paths)) as Hg
        by (rewrite EG; left).
      apply list_elem_of_filter in Hg as [Hgg Hg]. rewrite <- ER in Hg.
      apply list_elem_of_filter in Hg as [Hgr Hg].
      destruct (first_sorted_member (g :: gallery_paths)) as (keep & Hk & Hin);
        [done|].
      pose proof Hin as Hin'. rewrite <- EG in Hin'.
      apply list_elem_of_filter in Hin' as [Hkg Hkin]. rewrite <- ER in Hkin.
      apply list_elem_of_filter in Hkin as [Hkr Hkin].
      exists keep. split_and!; [done..| | |].
      * intros _. split_and!; [by apply Is_true_true..|].
        intros p Hp Hpr Hpg. apply (first_sorted_least _ _ Hk).
        rewrite <- EG. apply list_elem_of_filter.
        split; [by apply Is_true_true|].
        rewrite <- ER. apply list_elem_of_filter.
        split; [by apply Is_true_true|done].
      * intros _ Hnone. exfalso.
        apply (Hnone g); [done|by apply Is_true_true..].
      * intros Hnone. exfalso. by apply (Hnone r).
Qed.

Lemma recipes_preference_keeps_witness :
  ∃ keep,
    recipes_preference
      [py "/personal/recipes/generated/soup.jpg"; py "/Camera Uploads/soup.jpg";
       py "/personal/recipes/gallery/soup.jpg"] = Some keep ∧
    keep = py "/personal/recipes/gallery/soup.jpg".
Proof.
  destruct (recipes_preference_keeps
              [py "/personal/recipes/generated/soup.jpg";
               py "/Camera Uploads/soup.jpg";
               py "/personal/recipes/gallery/soup.jpg"])
    as (keep & Hk & _); [discriminate|].
  exists keep. split; [exact Hk|].
  vm_compute in Hk. by injection Hk as <-.
Defined.

Definition is_dashcord (p : pystr) : Prop :=
  startswith p (py "/dashcord/") = true.

(** [dashcord_preference] keeps, of a group that is not empty, the
    smallest of the paths under [/dashcord/] when there is one, and the
    smallest of the paths if not; a path under [/dashcord-dev/], the
    other target folder of the [dashcord] target, is not preferred. *)
Theorem dashcord_preference_keeps (paths : list pystr) :
  paths ≠ [] →
  ∃ keep,
    dashcord_preference paths = Some keep ∧ keep ∈ paths ∧
    ((∃ q, q ∈ paths ∧ is_dashcord q) →
     is_dashcord keep ∧
     ∀ p, p ∈ paths → is_dashcord p → str_leb keep p = true) ∧
    ((∀ q, q ∈ paths → ¬ is_dashcord q) →
     ∀ p, p ∈ paths → str_leb keep p = true) ∧
    (∀ p, is_dashcord p → startswith p (py "/dashcord-dev/") = false).
Proof.
  intros Hne. unfold dashcord_preference, is_dashcord.
  set (dashcord := λ p : pystr, Is_true (startswith p (py "/dashcord/"))).
  assert (∀ p, startswith p (py "/dashcord/") = true →
               startswith p (py "/dashcord-dev/") = false) as Hdev.
  { intros p [rest ->]%Is_true_true%startswith_prefix. reflexivity. }
  destruct (filter dashcord paths) as [|d dashcord_paths] eqn:ED.
  - destruct (first_sorted_member paths Hne) as (keep & Hk & Hin).
    exists keep. split_and!; [done..| | |done].
    + intros (q & Hq & Hd). exfalso.
      apply (filter_nil_not_elem_of dashcord paths q); [done| |done].
      by apply Is_true_true.
    + intros _. by apply first_sorted_least.
  - assert (d ∈ filter dashcord paths) as Hd by (rewrite ED; left).
    apply list_elem_of_filter in Hd as [Hdd Hd].
    destruct (first_sorted_member (d :: dashcord_paths)) as (keep & Hk & Hin);
      [done|].
    pose proof Hin as Hin'. rewrite <- ED in Hin'.
    apply list_elem_of_filter in Hin' as [Hkd Hkin].
    exists keep. split_and!; [done..| | |done].
    + intros _. split; [by apply Is_true_true|].
      intros p Hp Hpd. apply (first_sorted_least _ _ Hk).
      rewrite <- ED. apply list_elem_of_filter.
      split; [by apply Is_true_true|done].
    + intros Hnone. exfalso. apply (Hnone d); [done|by apply Is_true_true].
Qed.

Lemma dashcord_preference_keeps_witness :
  ∃ keep,
    dashcord_preference
      [py "/dashcord-dev/app.js"; py "/dashcord/app.js"; py "/backup/app.js"] =
      Some keep ∧
    keep = py "/dashcord/app.js".
Proof.
  destruct (dashcord_preference_keeps
              [py "/dashcord-dev/app.js"; py "/dashcord/app.js";
               py "/backup/app.js"])
    as (keep & Hk & _); [discriminate|].
  exists keep. split; [exact Hk|].
  vm_compute in Hk. by injection Hk as <-.
Defined.

End PolicyFacts.

(** ** The deleters: what they count *)

Module DeleterFacts.
Import ChunkFacts Remotes.

(** *** batch-delete.py *)

Section Slow.
Import BatchDelete.
Context {W : Type} `{!DeleteClient W}.

Lemma delete_paths_app (batch batch' : list pystr) (deleted failed : nat)
    (w : W) :
  delete_paths (batch ++ batch') deleted failed w =
  match delete_paths batch deleted failed w with
  | (Done (deleted', failed'), w') => delete_paths batch' deleted' failed' w'
  | r => r
  end.
Proof.
  revert deleted failed w.
  induction batch as [|path batch IH]; intros deleted failed w; [done|].
  cbn [app delete_paths].
  destruct (files_delete_v2 path w) as [[[]|[str_e|str_e|]] w']; try done.
  destruct (contains _ _); apply IH.
Qed.

(** The batches are deleted as their paths, one after the other. *)
Lemma delete_batches_concat (batches : list (list pystr))
    (deleted failed : nat) (w : W) :
  delete_batches batches deleted failed w =
  delete_paths (concat batches) deleted failed w.
Proof.
  revert deleted failed w.
  induction batches as [|batch batches IH]; intros deleted failed w; [done|].
  cbn [delete_batches concat]. rewrite delete_paths_app.
  destruct (delete_paths batch deleted failed w) as [[[d f]|e] w']; [|done].
  apply IH.
Qed.

Lemma batch_delete_whole (paths : list pystr) (batch_size : Z) (w : W) :
  (0 < batch_size)%Z →
  batch_delete paths batch_size w = delete_paths paths 0 0 w.
Proof.
  intros Hs. unfold batch_delete.
  destruct (Z.eqb_spec batch_size 0); [lia|].
  destruct (Z.ltb_spec batch_size 0); [lia|].
  rewrite delete_batches_concat. by rewrite chunks_concat by lia.
Qed.

(** The batch size changes nothing.  [batch_delete] with two positive
    batch sizes makes the same calls in the same order, returns the same
    counts or raises the same exception, and leaves the remote in the
    same state: the batches only group what is printed. *)
Theorem batch_size_irrelevant (paths : list pystr) (batch_size batch_size' : Z)
    (w : W) :
  (0 < batch_size)%Z → (0 < batch_size')%Z →
  batch_delete paths batch_size w = batch_delete paths batch_size' w.
Proof. intros Hs Hs'. by rewrite !batch_delete_whole. Qed.

Lemma delete_paths_counts (batch : list pystr) (deleted failed : nat) (w : W)
    (deleted' failed' : nat) (w' : W) :
  delete_paths batch deleted failed w = (Done (deleted', failed'), w') →
  (deleted' + failed' = deleted + failed + length batch)%nat.
Proof.
  revert deleted failed w.
  induction batch as [|path batch IH]; intros deleted failed w; simpl.
  - intros [= <- <- <-]. lia.
  - destruct (files_delete_v2 path w) as [[[]|[str_e|str_e|]] w1]; try done.
    + intros H%IH. lia.
    + destruct (contains _ _); intros H%IH; lia.
Qed.

(** Every path is counted once.  When [batch_delete] returns, the two
    counts it returns add up to the number of paths: each path is either
    deleted (it was there, or the error said [not_found]) or failed. *)
Theorem batch_delete_counts_every_path (paths : list pystr) (batch_size : Z)
    (w : W) (deleted failed : nat) (w' : W) :
  (0 < batch_size)%Z →
  batch_delete paths batch_size w = (Done (deleted, failed), w') →
  (deleted + failed = length paths)%nat.
Proof.
  intros Hs. rewrite batch_delete_whole by done.
  intros H%delete_paths_counts. lia.
Qed.

End Slow.

(** *** The calls of batch-delete.py *)





Lemma batch_size_irrelevant_witness :
  @BatchDelete.batch_delete _ store_delete_client
    [py "/a"; py "/b"; py "/c"] 100 [py "/a"; py "/c"; py "/d"] =
  @BatchDelete.batch_delete _ store_delete_client
    [py "/a"; py "/b"; py "/c"] 2 [py "/a"; py "/c"; py "/d"].
Proof.
  apply (@batch_size_irrelevant _ store_delete_client
           [py "/a"; py "/b"; py "/c"] 100 2 [py "/a"; py "/c"; py "/d"]);
    lia.
Defined.

(** A remote on which one path is locked: deleting it raises an
    [ApiError] that is not [not_found]. *)
Definition locked_delete_client (locked : pystr) : DeleteClient (list pystr) :=
  λ path w,
    if decide (path = locked)
    then (Raises (ApiError (py "DeleteError('path_write', WriteError('conflict'))")), w)
    else store_delete_client path w.

Lemma batch_delete_counts_every_path_witness :
  @BatchDelete.batch_delete _ (locked_delete_client (py "/b"))
    [py "/a"; py "/b"; py "/c"] 2 [py "/a"; py "/b"] =
  (BatchDelete.Done (2, 1)%nat, [py "/b"]) ∧
  (2 + 1 = length [py "/a"; py "/b"; py "/c"])%nat.
Proof.
  split; [vm_compute; reflexivity|].
  apply (@batch_delete_counts_every_path _ (locked_delete_client (py "/b"))
           [py "/a"; py "/b"; py "/c"] 2 [py "/a"; py "/b"] 2 1 [py "/b"]).
  - lia.
  - vm_compute. reflexivity.
Defined.

(** *** batch-delete-fast.py *)

Section Fast.
Import BatchDeleteFast.
Context {W : Type} `{!BatchClient W} `{!StrLower}.

(** The entries [process_batch_result] counts: the successes, and the
    failures whose text, in lower case, has [not_found]. *)
Definition counted (entry : DeleteBatchResultEntry) : bool :=
  match entry with
  | EntrySuccess => true
  | EntryFailure error => contains (py "not_found") (lower error)
  | EntryOther => false
  end.

Lemma process_entries_spec (idx : nat) (entries : list DeleteBatchResultEntry)
    (paths : list pystr) (deleted : nat) :
  (process_entries idx entries paths deleted = None ↔
   ∃ i error, entries !! i = Some (EntryFailure error) ∧
              (length paths ≤ idx + i)%nat) ∧
  (∀ n, process_entries idx entries paths deleted = Some n →
        n = (deleted + length (List.filter counted entries))%nat).
Proof.
  revert idx deleted.
  induction entries as [|entry entries IH]; intros idx deleted.
  - simpl. split; [|intros n [= <-]; lia].
    split; [done|]. by intros (i & error & Hi & _).
  - assert ((∃ i error, (entry :: entries) !! i = Some (EntryFailure error) ∧
                        (length paths ≤ idx + i)%nat) ↔
            (∃ error, entry = EntryFailure error ∧ (length paths ≤ idx)%nat) ∨
            (∃ i error, entries !! i = Some (EntryFailure error) ∧
                        (length paths ≤ S idx + i)%nat)) as Hsplit.
    { split.
      - intros ([|i] & error & Hi & Hlen); simpl in Hi.
        + injection Hi as ->. left. exists error. split; [done|lia].
        + right. exists i, error. split; [done|lia].
      - intros [(error & -> & Hlen)|(i & error & Hi & Hlen)].
        + exists 0%nat, error. split; [done|lia].
        + exists (S i), error. split; [done|lia]. }
    rewrite Hsplit.
    destruct entry as [|error|]; cbn [process_entries List.filter counted].
    + destruct (IH (S idx) (S deleted)) as [Hnone Hsome]. split.
      * rewrite Hnone. split; [by right|]. by intros [(? & ? & _)|].
      * intros n Hn%Hsome. simpl. lia.
    + destruct (paths !! idx) as [p|] eqn:Hp.
      * apply lookup_lt_Some in Hp.
        destruct (contains _ _).
        -- destruct (IH (S idx) (S deleted)) as [Hnone Hsome]. split.
           ++ rewrite Hnone. split; [by right|].
              intros [(? & _ & ?)|]; [lia|done].
           ++ intros n Hn%Hsome. simpl. lia.
        -- destruct (IH (S idx) deleted) as [Hnone Hsome]. split.
           ++ rewrite Hnone. split; [by right|].
              intros [(? & _ & ?)|]; [lia|done].
           ++ intros n Hn%Hsome. lia.
      * apply lookup_ge_None in Hp.
        assert (process_entries idx (EntryFailure error :: entries) paths deleted
                = None) as Hraise.
        { simpl. rewrite (proj2 (lookup_ge_None paths idx)) by done.
          by destruct (contains _ _). }
        simpl in Hraise. rewrite (proj2 (lookup_ge_None paths idx)) in Hraise by done.
        destruct (contains _ _); (split; [|done]);
          (split; [intros _; left; eauto|done]).
    + destruct (IH (S idx) deleted) as [Hnone Hsome]. split.
      * rewrite Hnone. split; [by right|]. by intros [(? & ? & _)|].
      * intros n Hn%Hsome. lia.
Qed.

(** What [process_batch_result] returns.  It counts the entries that
    succeeded and those that failed because the path was [not_found];
    an entry that failed for another reason is not counted.  It raises
    [IndexError] exactly when an entry that failed stands at an index
    the list of paths does not have. *)
Theorem process_batch_result_counts (entries : list DeleteBatchResultEntry)
    (paths : list pystr) :
  (process_batch_result entries paths = None ↔
   ∃ i error, entries !! i = Some (EntryFailure error) ∧
              (length paths ≤ i)%nat) ∧
  (∀ n, process_batch_result entries paths = Some n →
        n = length (List.filter counted entries)) ∧
  ((length entries ≤ length paths)%nat →
   process_batch_result entries paths =
   Some (length (List.filter counted entries))).
Proof.
  unfold process_batch_result.
  destruct (process_entries_spec 0 entries paths 0) as [Hnone Hsome].
  split_and!; [done| |].
  - intros n Hn. by apply Hsome in Hn.
  - intros Hlen.
    destruct (process_entries 0 entries paths 0) as [n|] eqn:E.
    + f_equal. by apply Hsome.
    + destruct (proj1 Hnone eq_refl) as (i & error & Hi%lookup_lt_Some & ?).
      simpl in *. lia.
Qed.

(** **** The pauses and the count of failures *)

(** The events of polling: a poll and the second slept before it. *)
Definition is_polling (ev : event) : bool :=
  match ev with
  | Polled _ => true
  | Slept seconds => (seconds =? 1)
  | Submitted _ => false
  end.

(** The submissions and the pauses between them. *)
Definition schedule (evs : list event) : list event :=
  List.filter (λ ev, negb (is_polling ev)) evs.

Lemma schedule_app (evs evs' : list event) :
  schedule (evs ++ evs') = schedule evs ++ schedule evs'.
Proof. apply List.filter_app. Qed.

Lemma count_result_state (entries : list DeleteBatchResultEntry)
    (batch : list pystr) (st : state W) :
  match count_result entries batch st with
  | Done st' | Raised _ st' => events st' = events st ∧ failed st' = failed st
  | Diverges => True
  end.
Proof. unfold count_result. by destruct (process_batch_result _ _). Qed.

(** However the polling ends, it has added polling events only, and to
    [failed] nothing or the size of the batch. *)
Lemma poll_state (fuel : nat) (async_job_id : pystr) (batch : list pystr)
    (st : state W) :
  match poll fuel async_job_id batch st with
  | Done st' =>
      ∃ evs, events st' = events st ++ evs ∧ schedule evs = [] ∧
             (Slept 5 ∉ evs) ∧
             (failed st' = failed st ∨
              failed st' = (failed st + length batch)%nat)
  | Raised _ st' =>
      ∃ evs, events st' = events st ++ evs ∧ failed st' = failed st
  | Diverges => True
  end.
Proof.
  revert st. induction fuel as [|fuel IH]; intros st; [done|].
  cbn [poll].
  set (st1 := log (Polled async_job_id) (log (Slept 1) st)).
  assert (events st1 = events st ++ [Slept 1; Polled async_job_id]) as Hev.
  { unfold st1, log. simpl. by rewrite <- app_assoc. }
  assert (failed st1 = failed st) as Hf by done.
  assert (Slept 5 ∉ [Slept 1; Polled async_job_id]) as Hno.
  { intros Hin. repeat (apply elem_of_cons in Hin as [?|Hin]; [done|]).
    by apply elem_of_nil in Hin. }
  assert (∀ w, events (set_world w st1) =
               events st ++ [Slept 1; Polled async_job_id]) as Hev'.
  { intros w. exact Hev. }
  destruct (files_delete_batch_check async_job_id (world st1))
    as [[[entries|str_failed|]|e] w].
  - pose proof (count_result_state entries batch (set_world w st1)) as Hc.
    destruct (count_result entries batch (set_world w st1)) as [st'|e st'|];
      [| |done]; destruct Hc as [Hc1 Hc2];
      rewrite Hev' in Hc1; change (failed st' = failed st) in Hc2.
    + exists [Slept 1; Polled async_job_id]. split_and!; [done..|by left].
    + by exists [Slept 1; Polled async_job_id].
  - exists [Slept 1; Polled async_job_id]. split_and!; [apply Hev'|done..|].
    by right.
  - specialize (IH (set_world w st1)). rewrite Hev' in IH.
    change (failed (set_world w st1)) with (failed st) in IH.
    destruct (poll fuel async_job_id batch (set_world w st1)) as [st'|e st'|];
      [| |done].
    + destruct IH as (evs & He & Hs & Hn & Hfail).
      exists ([Slept 1; Polled async_job_id] ++ evs).
      rewrite <- app_assoc in He. split_and!; [done| | |done].
      * rewrite schedule_app, Hs. done.
      * rewrite elem_of_app. intros [?|?]; done.
    + destruct IH as (evs & He & Hfail).
      exists ([Slept 1; Polled async_job_id] ++ evs).
      rewrite <- app_assoc in He. done.
  - exists [Slept 1; Polled async_job_id]. split; [apply Hev'|done].
Qed.

(** The body of the [try]: a submission, polling, and a pause of two
    seconds unless the batch is the last. *)
Lemma try_batch_state (fuel : nat) (batch_num num_batches : Z)
    (batch : list pystr) (st : state W) :
  match try_batch fuel batch_num num_batches batch st with
  | Done st' =>
      ∃ evs, events st' = events st ++ evs ∧
             schedule evs =
               Submitted batch ::
               (if (batch_num <? num_batches)%Z then [Slept 2] else []) ∧
             (Slept 5 ∉ evs) ∧
             (failed st' = failed st ∨
              failed st' = (failed st + length batch)%nat)
  | Raised _ st' =>
      ∃ evs, events st' = events st ++ evs ∧ failed st' = failed st
  | Diverges => True
  end.
Proof.
  unfold try_batch.
  set (st1 := log (Submitted batch) st).
  destruct (files_delete_batch batch (world st1)) as [[result|e] w];
    [|by exists [Submitted batch]].
  set (st2 := set_world w st1).
  assert (match
            match result with
            | Some (LaunchComplete entries) => count_result entries batch st2
            | Some (LaunchAsyncJobId async_job_id) =>
                poll fuel async_job_id batch st2
            | Some LaunchOther | None => Done st2
            end
          with
          | Done st' =>
              ∃ evs, events st' = events st ++ [Submitted batch] ++ evs ∧
                     schedule evs = [] ∧ (Slept 5 ∉ evs) ∧
                     (failed st' = failed st ∨
                      failed st' = (failed st + length batch)%nat)
          | Raised _ st' =>
              ∃ evs, events st' = events st ++ evs ∧ failed st' = failed st
          | Diverges => True
          end) as Hhandled.
  { destruct result as [[entries|async_job_id|]|].
    - pose proof (count_result_state entries batch st2) as Hc.
      destruct (count_result entries batch st2) as [st'|e st'|]; [| |done];
        destruct Hc as [-> ->].
      + exists []. split_and!; [done..| |by left].
        by intros ?%elem_of_nil.
      + by exists [Submitted batch].
    - pose proof (poll_state fuel async_job_id batch st2) as Hp.
      destruct (poll fuel async_job_id batch st2) as [st'|e st'|]; [| |done].
      + destruct Hp as (evs & -> & ? & ? & ?). exists evs.
        simpl. by rewrite <- app_assoc.
      + destruct Hp as (evs & -> & ->). exists ([Submitted batch] ++ evs).
        simpl. by rewrite <- app_assoc.
    - exists []. split_and!; [done..| |by left]. by intros ?%elem_of_nil.
    - exists []. split_and!; [done..| |by left]. by intros ?%elem_of_nil. }
  destruct (match result with Some _ => _ | None => _ end) as [st'|e st'|];
    [| done..].
  destruct Hhandled as (evs & He & Hs & Hn & Hfail).
  destruct (batch_num <? num_batches)%Z.
  - exists ([Submitted batch] ++ evs ++ [Slept 2]). simpl.
    rewrite He. split_and!; [by rewrite <- !app_assoc| | |done].
    + f_equal. rewrite schedule_app, Hs. done.
    + intros Hin. apply elem_of_cons in Hin as [?|Hin]; [done|].
      apply elem_of_app in Hin as [?|Hin]; [done|].
      by apply list_elem_of_singleton in Hin.
  - exists ([Submitted batch] ++ evs). split_and!; [done| | |done].
    + simpl. by rewrite Hs.
    + intros Hin. apply elem_of_cons in Hin as [?|Hin]; done.
Qed.

(** One turn of the loop that ends: when it has slept no five seconds,
    it is the body of the [try] that ended. *)
Lemma one_batch_state (fuel : nat) (batch_num num_batches : Z)
    (batch : list pystr) (st st' : state W) :
  one_batch fuel batch_num num_batches batch st = Done st' →
  ∃ evs, events st' = events st ++ evs ∧
         (Slept 5 ∉ evs →
          schedule evs =
            Submitted batch ::
            (if (batch_num <? num_batches)%Z then [Slept 2] else [])) ∧
         (failed st' = failed st ∨
          failed st' = (failed st + length batch)%nat).
Proof.
  unfold one_batch.
  pose proof (try_batch_state fuel batch_num num_batches batch st) as Ht.
  destruct (try_batch fuel batch_num num_batches batch st) as [st1|e st1|];
    [| |done].
  - intros [= <-]. destruct Ht as (evs & ? & ? & ? & ?). by exists evs.
  - destruct e as [str_e| |]; [|done..]. intros [= <-].
    destruct Ht as (evs & He & Hf). exists (evs ++ [Slept 5]).
    simpl. rewrite He, Hf, <- app_assoc. split_and!; [done| |by right].
    intros Hn. destruct Hn. apply elem_of_app. right. left.
Qed.

Lemma batch_num_of_start (j step : nat) :
  (0 < step)%nat →
  (Z.of_nat (j * step) / Z.of_nat step + 1)%Z = (Z.of_nat j + 1)%Z.
Proof.
  intros Hs. rewrite Nat2Z.inj_mul, Z.div_mul by lia. done.
Qed.

(** The loop, from batch number [j + 1] on, with [m] batches to go. *)
Lemma batches_from_state (fuel : nat) (paths : list pystr) (batch_size : nat)
    (j m : nat) (st st' : state W) :
  (0 < batch_size)%nat →
  let starts := (λ k, k * batch_size)%nat <$> seq j m in
  let batch_at := λ i, take batch_size (drop i paths) in
  batches_from fuel paths batch_size (Z.of_nat (j + m)) starts st = Done st' →
  ∃ evs, events st' = events st ++ evs ∧
         (Slept 5 ∉ evs →
          schedule evs ++ (if m is O then [] else [Slept 2]) =
          starts ≫= λ i, [Submitted (batch_at i); Slept 2]) ∧
         ∃ failed_batches,
           failed_batches `sublist_of` (batch_at <$> starts) ∧
           failed st' = (failed st + length (concat failed_batches))%nat.
Proof.
  intros Hs. cbn zeta. revert j st.
  induction m as [|m IH]; intros j st.
  - simpl. intros [= <-]. exists []. rewrite app_nil_r.
    split_and!; [done..|]. exists []. split; [done|simpl; lia].
  - cbn [seq fmap list_fmap batches_from].
    rewrite batch_num_of_start by done.
    set (batch := take batch_size (drop (j * batch_size) paths)).
    destruct (one_batch fuel (Z.of_nat j + 1) (Z.of_nat (j + S m)) batch st)
      as [st1|e st1|] eqn:Hone; [|done..].
    apply one_batch_state in Hone as (evs1 & He1 & Hsched1 & Hf1).
    replace (j + S m)%nat with (S j + m)%nat by lia.
    intros Hrest. apply IH in Hrest as (evs & He & Hsched & fb & Hsub & Hf).
    exists (evs1 ++ evs). split_and!.
    + by rewrite He, He1, <- app_assoc.
    + intros Hn. rewrite elem_of_app in Hn.
      rewrite bind_cons, schedule_app, Hsched1 by tauto.
      rewrite <- Hsched by tauto.
      fold batch.
      destruct m as [|m];
        match goal with
        | |- context [(?a <? ?b)%Z] => destruct (Z.ltb_spec a b); try lia
        end.
      * specialize (Hsched ltac:(tauto)). simpl in Hsched.
        rewrite app_nil_r in Hsched. by rewrite Hsched.
      * by rewrite <- !app_assoc.
    + destruct Hf1 as [Hf1|Hf1].
      * exists fb. split; [by apply sublist_cons|]. by rewrite Hf, Hf1.
      * exists (batch :: fb). split; [by apply sublist_skip|].
        rewrite Hf, Hf1. simpl. rewrite length_app. lia.
Qed.

Lemma bind_fmap {A B C} (f : A → B) (g : B → list C) (l : list A) :
  (f <$> l) ≫= g = l ≫= λ x, g (f x).
Proof.
  induction l as [|x l IH]; [done|].
  by rewrite fmap_cons, !bind_cons, IH.
Qed.

(** The number of batches, as the script and as [range] count them. *)
Lemma num_batches_range (total step : nat) :
  (0 < step)%nat →
  ((Z.of_nat total + Z.of_nat step - 1) / Z.of_nat step)%Z =
  Z.of_nat ((total + step - 1) / step).
Proof.
  intros Hs. rewrite Nat2Z.inj_div. f_equal. lia.
Qed.

Lemma batch_delete_fast_state (fuel : nat) (paths : list pystr)
    (batch_size : Z) (w : W) (st : state W) :
  (0 < batch_size)%Z →
  batch_delete_fast fuel paths batch_size w = Done st →
  (Slept 5 ∉ events st → paths ≠ [] →
   schedule (events st) ++ [Slept 2] =
   chunks (Z.to_nat batch_size) paths ≫= λ batch, [Submitted batch; Slept 2]) ∧
  ∃ failed_batches,
    failed_batches `sublist_of` chunks (Z.to_nat batch_size) paths ∧
    failed st = length (concat failed_batches).
Proof.
  intros Hs. unfold batch_delete_fast.
  destruct (Z.eqb_spec batch_size 0); [lia|].
  destruct (Z.ltb_spec batch_size 0); [lia|].
  unfold range_step.
  set (step := Z.to_nat batch_size).
  set (m := ((length paths + step - 1) / step)%nat).
  replace ((Z.of_nat (length paths) + batch_size - 1) / batch_size)%Z
    with (Z.of_nat (0 + m)).
  2:{ simpl. unfold m. rewrite <- num_batches_range by (unfold step; lia).
      unfold step. by rewrite Z2Nat.id by lia. }
  intros Hrun.
  apply batches_from_state in Hrun as (evs & He & Hsched & fb & Hsub & Hf);
    [|unfold step; lia].
  simpl in He. subst evs. split.
  - intros Hn Hne. specialize (Hsched Hn).
    unfold chunks, range_step. fold step. fold m.
    rewrite bind_fmap.
    destruct m as [|m'] eqn:Hm; [|exact Hsched].
    exfalso. assert (length paths + step - 1 < step)%nat as Hlt.
    { apply Nat.div_small_iff; [unfold step; lia|]. exact Hm. }
    destruct paths; [done|]. simpl in Hlt. lia.
  - exists fb. split; [exact Hsub|]. simpl in Hf. exact Hf.
Qed.

(** The pauses between the batches.  In a run that returns and in which
    no batch raised an [ApiError] (it has slept no five seconds), the
    submissions and the pauses, the polling left out, are: each batch,
    in order, then two seconds, but for the last batch, after which the
    run does not pause. *)
Theorem pauses_between_batches (fuel : nat) (paths : list pystr)
    (batch_size : Z) (w : W) (st : state W) :
  (0 < batch_size)%Z → paths ≠ [] →
  batch_delete_fast fuel paths batch_size w = Done st →
  Slept 5 ∉ events st →
  schedule (events st) ++ [Slept 2] =
  chunks (Z.to_nat batch_size) paths ≫= λ batch, [Submitted batch; Slept 2].
Proof.
  intros Hs Hne Hrun Hn.
  apply batch_delete_fast_state in Hrun as [Hsched _]; auto.
Qed.

End Fast.

(** A remote that completes every batch at once and deletes nothing:
    every entry fails, and not because the path is not found. *)
Definition rejecting_batch_client : BatchClient unit :=
  {| files_delete_batch := λ batch w,
       (Returns (Some (LaunchComplete
          ((λ _, EntryFailure (py "too_many_write_operations")) <$> batch))),
        w);
     files_delete_batch_check := λ async_job_id w,
       (Raises (ApiError (py "invalid_async_job_id")), w) |}.

(** Three paths in batches of two, none of which is deleted: the run
    reports no path deleted and none failed. *)
Example rejected_run :
  @BatchDeleteFast.batch_delete_fast _ rejecting_batch_client ascii_lower
    1 [py "/a"; py "/b"; py "/c"] 2 () =
  BatchDeleteFast.Done
    (BatchDeleteFast.State 0 0
       [ BatchDeleteFast.Submitted [py "/a"; py "/b"];
         BatchDeleteFast.Slept 2;
         BatchDeleteFast.Submitted [py "/c"] ]
       ()).
Proof. vm_compute. reflexivity. Qed.

Lemma pauses_between_batches_witness :
  ∃ st,
    @BatchDeleteFast.batch_delete_fast _ rejecting_batch_client ascii_lower
      1 [py "/a"; py "/b"; py "/c"] 2 () = BatchDeleteFast.Done st ∧
    schedule (BatchDeleteFast.events st) ++ [BatchDeleteFast.Slept 2] =
    chunks 2 [py "/a"; py "/b"; py "/c"] ≫=
      λ batch, [BatchDeleteFast.Submitted batch; BatchDeleteFast.Slept 2].
Proof.
  eexists. split; [exact rejected_run|].
  apply (@pauses_between_batches _ rejecting_batch_client ascii_lower
           1 [py "/a"; py "/b"; py "/c"] 2 ()).
  - lia.
  - discriminate.
  - exact rejected_run.
  - simpl. intros Hin.
    repeat (apply elem_of_cons in Hin as [?|Hin]; [discriminate|]).
    by apply elem_of_nil in Hin.
Defined.

(** An answer with more entries than the batch has paths: a success past
    the end is counted, a failure past the end raises [IndexError]. *)
Example entries_past_the_end :
  @BatchDeleteFast.process_batch_result ascii_lower
    [EntrySuccess; EntrySuccess] [py "/a"] = Some 2%nat ∧
  @BatchDeleteFast.process_batch_result ascii_lower
    [EntrySuccess; EntryFailure (py "locked")] [py "/a"] = None.
Proof. split; reflexivity. Qed.

End DeleterFacts.

(** ** batch-delete-fast.py: what each chunk reports *)

Module IsolationFacts.
Import ChunkFacts Remotes BatchDeleteFast BatchDeleteFastFacts DeleterFacts.

Section Client.
Context {W : Type} `{!BatchClient W} `{!StrLower}.

(** *** What the remote does with a chunk *)

(** How a job ends: complete, failed, or with a poll that raises an
    [ApiError]. *)
Inductive job_end : Type :=
| JobAnswers (entries : list DeleteBatchResultEntry)
| JobFails (str_failed : pystr)
| JobRaises (str_e : pystr).

(** The job [async_job_id] is in progress for [n] polls and ends at the
    next. *)
Inductive polled (async_job_id : pystr) : nat → W → job_end → W → Prop :=
| polled_complete w entries w' :
    files_delete_batch_check async_job_id w =
      (Returns (JobComplete entries), w') →
    polled async_job_id 0 w (JobAnswers entries) w'
| polled_failed w str_failed w' :
    files_delete_batch_check async_job_id w =
      (Returns (JobFailed str_failed), w') →
    polled async_job_id 0 w (JobFails str_failed) w'
| polled_raises w str_e w' :
    files_delete_batch_check async_job_id w = (Raises (ApiError str_e), w') →
    polled async_job_id 0 w (JobRaises str_e) w'
| polled_in_progress n w w1 r w' :
    files_delete_batch_check async_job_id w = (Returns JobInProgress, w1) →
    polled async_job_id n w1 r w' →
    polled async_job_id (S n) w r w'.

(** What becomes of a chunk: its submission raises an [ApiError]; it
    completes, at once or as a job, with [entries]; its job fails; a poll
    of its job raises an [ApiError]. *)
Inductive chunk_outcome : Type :=
| Rejected (str_e : pystr)
| Answered (entries : list DeleteBatchResultEntry)
| Failed (str_failed : pystr)
| PollRejected (str_e : pystr).

Definition outcome_of (r : job_end) : chunk_outcome :=
  match r with
  | JobAnswers entries => Answered entries
  | JobFails str_failed => Failed str_failed
  | JobRaises str_e => PollRejected str_e
  end.

(** The remote, in state [w], deals with [batch] in this way, within
    [fuel] polls, and is left in state [w']. *)
Inductive serves_chunk (fuel : nat) (batch : list pystr) (w : W)
    : chunk_outcome → W → Prop :=
| chunk_rejected str_e w' :
    files_delete_batch batch w = (Raises (ApiError str_e), w') →
    serves_chunk fuel batch w (Rejected str_e) w'
| chunk_complete entries w' :
    files_delete_batch batch w =
      (Returns (Some (LaunchComplete entries)), w') →
    serves_chunk fuel batch w (Answered entries) w'
| chunk_job async_job_id w1 n r w' :
    files_delete_batch batch w =
      (Returns (Some (LaunchAsyncJobId async_job_id)), w1) →
    polled async_job_id n w1 r w' → (n < fuel)%nat →
    serves_chunk fuel batch w (outcome_of r) w'.

(** An answer has no more entries than the chunk has paths. *)
Definition fits (batch : list pystr) (o : chunk_outcome) : Prop :=
  match o with
  | Answered entries => (length entries ≤ length batch)%nat
  | _ => True
  end.

(** The remote deals with the chunks, one after the other, in these
    ways. *)
Inductive serves (fuel : nat)
    : W → list (list pystr) → list chunk_outcome → W → Prop :=
| serves_nil w : serves fuel w [] [] w
| serves_cons w batch o w1 batches outcomes w' :
    serves_chunk fuel batch w o w1 → fits batch o →
    serves fuel w1 batches outcomes w' →
    serves fuel w (batch :: batches) (o :: outcomes) w'.

(** *** What the deleter is to report *)

(** What a chunk adds to [deleted]: the entries of its answer that
    succeeded or failed with [not_found]. *)
Definition deleted_of (o : chunk_outcome) : nat :=
  match o with
  | Answered entries => length (List.filter counted entries)
  | _ => 0
  end.

(** What a chunk adds to [failed]: nothing when it is answered, whatever
    its entries; all its paths otherwise. *)
Definition failed_of (batch : list pystr) (o : chunk_outcome) : nat :=
  match o with
  | Answered _ => 0
  | _ => length batch
  end.

(** The pause after a chunk: five seconds after an [ApiError]; if not,
    two seconds unless the chunk is the last. *)
Definition pause_after (o : chunk_outcome) (is_last : bool) : list event :=
  match o with
  | Rejected _ | PollRejected _ => [Slept 5]
  | Answered _ | Failed _ => if is_last then [] else [Slept 2]
  end.

Fixpoint total_deleted (outcomes : list chunk_outcome) : nat :=
  match outcomes with
  | [] => 0
  | o :: outcomes' => deleted_of o + total_deleted outcomes'
  end.

Fixpoint total_failed (batches : list (list pystr))
    (outcomes : list chunk_outcome) : nat :=
  match batches, outcomes with
  | batch :: batches', o :: outcomes' =>
      failed_of batch o + total_failed batches' outcomes'
  | _, _ => 0
  end.

(** The submissions and the pauses of a run, the polling left out. *)
Fixpoint paced (batches : list (list pystr)) (outcomes : list chunk_outcome)
    : list event :=
  match batches, outcomes with
  | batch :: batches', o :: outcomes' =>
      Submitted batch ::
      pause_after o (bool_decide (batches' = [])) ++ paced batches' outcomes'
  | _, _ => []
  end.

(** *** One chunk *)

Lemma process_batch_result_fits (entries : list DeleteBatchResultEntry)
    (batch : list pystr) :
  (length entries ≤ length batch)%nat →
  process_batch_result entries batch =
  Some (length (List.filter counted entries)).
Proof.
  intros Hlen. unfold process_batch_result.
  destruct (process_entries_spec 0 entries batch 0) as [Hnone Hsome].
  destruct (process_entries 0 entries batch 0) as [n|].
  - f_equal. by apply Hsome.
  - destruct (proj1 Hnone eq_refl) as (i & error & Hi%lookup_lt_Some & ?).
    simpl in *. lia.
Qed.

(** The polling of a job that ends: polling events only, and then the
    end of the job. *)
Lemma poll_polled (fuel : nat) (async_job_id : pystr) (batch : list pystr)
    (n : nat) (w : W) (r : job_end) (w' : W) (st : state W) :
  polled async_job_id n w r w' → (n < fuel)%nat → world st = w →
  ∃ evs,
    schedule evs = [] ∧
    poll fuel async_job_id batch st =
    let st' := State (deleted st) (failed st) (events st ++ evs) w' in
    match r with
    | JobAnswers entries => count_result entries batch st'
    | JobFails _ => Done (add_failed (length batch) st')
    | JobRaises str_e => Raised (ApiError str_e) st'
    end.
Proof.
  intros Hjob. revert fuel st.
  induction Hjob as [w entries w' Hc|w str_failed w' Hc|w str_e w' Hc
                    |n w w1 r w' Hc _ IH];
    intros fuel st Hlt <-; (destruct fuel as [|fuel]; [lia|]);
    cbn [poll]; cbn [log world events deleted failed]; rewrite Hc.
  - exists [Slept 1; Polled async_job_id]. split; [done|].
    unfold set_world. cbn. by rewrite <- app_assoc.
  - exists [Slept 1; Polled async_job_id]. split; [done|].
    unfold set_world. cbn. by rewrite <- app_assoc.
  - exists [Slept 1; Polled async_job_id]. split; [done|].
    unfold set_world. cbn. by rewrite <- app_assoc.
  - edestruct (IH fuel) as (evs & Hs & ->); [lia|reflexivity|].
    exists ([Slept 1; Polled async_job_id] ++ evs). split.
    + by rewrite schedule_app, Hs.
    + cbn. by rewrite <- !app_assoc.
Qed.

(** One turn of the loop, on a chunk the remote deals with: the chunk is
    submitted, adds what it is to report to the two counts, and is
    followed by its pause. *)
Lemma one_batch_serves (fuel : nat) (batch_num num_batches : Z)
    (batch : list pystr) (st : state W) (o : chunk_outcome) (w' : W) :
  serves_chunk fuel batch (world st) o w' → fits batch o →
  ∃ st',
    one_batch fuel batch_num num_batches batch st = Done st' ∧
    world st' = w' ∧
    deleted st' = (deleted st + deleted_of o)%nat ∧
    failed st' = (failed st + failed_of batch o)%nat ∧
    schedule (events st') =
    schedule (events st) ++
    Submitted batch :: pause_after o (negb (batch_num <? num_batches)%Z).
Proof.
  intros Hserve Hfits. unfold one_batch, try_batch.
  cbn [log world events deleted failed].
  destruct Hserve as [str_e w' Hsub|entries w' Hsub|async_job_id w1 n r w' Hsub
                       Hjob Hn]; rewrite Hsub.
  - eexists. split; [done|]. cbn. split_and!; [done|lia|done|].
    rewrite !schedule_app. cbn. by rewrite <- app_assoc.
  - unfold count_result. rewrite process_batch_result_fits by done.
    destruct (batch_num <? num_batches)%Z; eexists; (split; [done|]); cbn;
      (split_and!; [done|done|lia|]); rewrite !schedule_app; cbn;
      by rewrite <- ?app_assoc, ?app_nil_r.
  - edestruct (poll_polled fuel async_job_id batch n w1 r w'
                 (set_world w1 (log (Submitted batch) st)))
      as (evs & Hs & ->); [done..|].
    cbn [set_world log world events deleted failed].
    destruct r as [entries|str_failed|str_e]; cbn zeta.
    + unfold count_result. simpl in Hfits.
      rewrite process_batch_result_fits by done.
      destruct (batch_num <? num_batches)%Z; eexists; (split; [done|]); cbn;
        (split_and!; [done|done|lia|]); rewrite !schedule_app, Hs; cbn;
        by rewrite <- ?app_assoc, ?app_nil_r.
    + destruct (batch_num <? num_batches)%Z; eexists; (split; [done|]); cbn;
        (split_and!; [done|lia|done|]); rewrite !schedule_app, Hs; cbn;
        by rewrite <- ?app_assoc, ?app_nil_r.
    + eexists. split; [done|]. cbn. split_and!; [done|lia|done|].
      rewrite !schedule_app, Hs. cbn. by rewrite <- ?app_assoc, ?app_nil_r.
Qed.

(** *** The whole plan *)

(** The loop, from batch number [j + 1] on, with [m] batches to go. *)
Lemma batches_from_serves (fuel : nat) (paths : list pystr)
    (batch_size : nat) (j m : nat) (st : state W)
    (outcomes : list chunk_outcome) (w' : W) :
  (0 < batch_size)%nat →
  let batches :=
    (λ i, take batch_size (drop i paths)) <$>
    ((λ k, k * batch_size)%nat <$> seq j m) in
  serves fuel (world st) batches outcomes w' →
  ∃ st',
    batches_from fuel paths batch_size (Z.of_nat (j + m))
      ((λ k, k * batch_size)%nat <$> seq j m) st = Done st' ∧
    world st' = w' ∧
    deleted st' = (deleted st + total_deleted outcomes)%nat ∧
    failed st' = (failed st + total_failed batches outcomes)%nat ∧
    schedule (events st') = schedule (events st) ++ paced batches outcomes.
Proof.
  intros Hs. cbn zeta. revert j st outcomes.
  induction m as [|m IH]; intros j st outcomes Hserves.
  - inversion Hserves; subst. exists st. cbn.
    rewrite app_nil_r. split_and!; [done..|lia|lia|done].
  - cbn [seq fmap list_fmap] in Hserves |- *.
    inversion Hserves as [|w0 batch o w1 batches outcomes' w2 Hchunk Hfits Hrest];
      subst.
    cbn [batches_from]. rewrite batch_num_of_start by done.
    destruct (one_batch_serves fuel (Z.of_nat j + 1) (Z.of_nat (j + S m))
                (take batch_size (drop (j * batch_size) paths)) st o w1)
      as (st1 & -> & Hw1 & Hd1 & Hf1 & He1); [done..|].
    replace (j + S m)%nat with (S j + m)%nat by lia.
    destruct (IH (S j) st1 outcomes') as (st' & -> & Hw & Hd & Hf & He).
    { by rewrite Hw1. }
    exists st'. split; [done|]. split; [done|].
    rewrite Hd, Hd1, Hf, Hf1, He, He1. cbn [total_deleted total_failed paced].
    split_and!; [lia|lia|].
    rewrite <- !app_assoc. do 2 f_equal. cbn [app]. do 2 f_equal.
    destruct m as [|m].
    + cbn. destruct (Z.ltb_spec (Z.of_nat j + 1) (Z.of_nat (j + 1))); [lia|].
      done.
    + cbn [seq fmap list_fmap]. rewrite bool_decide_eq_false_2 by done.
      destruct (Z.ltb_spec (Z.of_nat j + 1) (Z.of_nat (j + S (S m)))); [|lia].
      done.
Qed.

(** A run on a remote that deals with the chunks of the plan: it
    returns, with what the chunks are to report. *)
Lemma batch_delete_fast_serves (fuel : nat) (paths : list pystr)
    (batch_size : Z) (w : W) (outcomes : list chunk_outcome) (w' : W) :
  (0 < batch_size)%Z →
  serves fuel w (chunks (Z.to_nat batch_size) paths) outcomes w' →
  ∃ st,
    batch_delete_fast fuel paths batch_size w = Done st ∧
    world st = w' ∧
    deleted st = total_deleted outcomes ∧
    failed st = total_failed (chunks (Z.to_nat batch_size) paths) outcomes ∧
    schedule (events st) = paced (chunks (Z.to_nat batch_size) paths) outcomes.
Proof.
  intros Hs Hserves. unfold batch_delete_fast.
  destruct (Z.eqb_spec batch_size 0); [lia|].
  destruct (Z.ltb_spec batch_size 0); [lia|].
  unfold chunks, range_step in *.
  set (step := Z.to_nat batch_size) in *.
  set (m := ((length paths + step - 1) / step)%nat) in *.
  replace ((Z.of_nat (length paths) + batch_size - 1) / batch_size)%Z
    with (Z.of_nat (0 + m)).
  2:{ simpl. unfold m. rewrite <- num_batches_range by (unfold step; lia).
      unfold step. by rewrite Z2Nat.id by lia. }
  destruct (batches_from_serves fuel paths step 0 m (State 0 0 [] w)
              outcomes w') as (st & -> & ? & ? & ? & ?);
    [unfold step; lia|done|].
  by exists st.
Qed.

Lemma submitted_schedule (evs : list event) :
  submitted (schedule evs) = submitted evs.
Proof.
  induction evs as [|[batch|async_job_id|seconds] evs IH]; [done| | |];
    unfold schedule in *; cbn [List.filter is_polling negb].
  - change (submitted (Submitted batch :: ?l)) with (batch :: submitted l).
    by rewrite IH.
  - exact IH.
  - destruct (seconds =? 1); exact IH.
Qed.

Lemma serves_length (fuel : nat) (w : W) batches outcomes (w' : W) :
  serves fuel w batches outcomes w' → length outcomes = length batches.
Proof. induction 1; simpl; congruence. Qed.

Lemma submitted_paced batches outcomes :
  length outcomes = length batches →
  submitted (paced batches outcomes) = batches.
Proof.
  revert outcomes. induction batches as [|batch batches IH];
    intros [|o outcomes] Hlen; try done.
  cbn [paced].
  change (submitted (Submitted batch :: ?l)) with (batch :: submitted l).
  rewrite submitted_app, IH by (simpl in Hlen; lia).
  by destruct o, (bool_decide _).
Qed.

Lemma submitted_pause_after (o : chunk_outcome) (is_last : bool) :
  submitted (pause_after o is_last) = [].
Proof. by destruct o, is_last. Qed.

(** In the submissions and pauses of a run, a chunk whose submission is
    rejected is followed by a pause of five seconds; the chunks before it
    are submitted before, those after it after. *)
Lemma paced_rejected (batches : list (list pystr))
    (outcomes : list chunk_outcome) (i : nat) (batch : list pystr)
    (str_e : pystr) :
  length outcomes = length batches →
  batches !! i = Some batch → outcomes !! i = Some (Rejected str_e) →
  ∃ before after,
    paced batches outcomes = before ++ Submitted batch :: Slept 5 :: after ∧
    submitted before = take i batches ∧
    submitted after = drop (S i) batches.
Proof.
  revert outcomes i.
  induction batches as [|batch0 batches IH]; intros [|o outcomes] i Hlen Hb Ho;
    try done.
  destruct i as [|i]; simpl in Hb, Ho.
  - injection Hb as ->. injection Ho as ->.
    exists [], (paced batches outcomes). split_and!; [done..|].
    change (drop 1 (batch :: batches)) with batches.
    apply submitted_paced. simpl in Hlen. lia.
  - destruct (IH outcomes i) as (before & after & Hp & Hbefore & Hafter);
      [simpl in Hlen; lia|done..|].
    exists (Submitted batch0 ::
            pause_after o (bool_decide (batches = [])) ++ before), after.
    cbn [paced]. rewrite Hp. split_and!.
    + cbn [app]. by rewrite <- app_assoc.
    + change (submitted (Submitted batch0 :: ?l)) with (batch0 :: submitted l).
      by rewrite submitted_app, submitted_pause_after, Hbefore.
    + done.
Qed.

(** Every entry of the answer fails, and not because the path is not
    found. *)
Definition all_refused (o : chunk_outcome) : Prop :=
  ∃ entries, o = Answered entries ∧ Forall (λ entry, counted entry = false) entries.

Lemma total_refused (batches : list (list pystr))
    (outcomes : list chunk_outcome) :
  Forall all_refused outcomes →
  total_deleted outcomes = 0%nat ∧ total_failed batches outcomes = 0%nat.
Proof.
  intros Hall. revert batches.
  induction Hall as [|o outcomes (entries & -> & Hentries) _ IH];
    intros batches; [by destruct batches|].
  assert (List.filter counted entries = []) as Hnone.
  { clear -Hentries. induction Hentries as [|entry entries Hentry _ IH];
      [done|]. simpl. by rewrite Hentry. }
  split.
  - cbn [total_deleted deleted_of]. rewrite Hnone.
    by rewrite (proj1 (IH [])).
  - destruct batches as [|batch batches]; [done|].
    cbn [total_failed failed_of]. by rewrite (proj2 (IH batches)).
Qed.

(** C8.  Partial-failure isolation.  On a remote that deals with every
    chunk of the plan -- its submission raises an [ApiError], or it
    completes, or its job fails, or a poll of its job raises an
    [ApiError] -- [batch_delete_fast] returns, having submitted every
    chunk, in the order of the plan.  Each chunk reports its own outcome:
    [deleted] is the number of entries, in the answers of the chunks that
    complete, that succeed or fail with [not_found], and [failed] the
    number of paths of the other chunks.  A chunk whose submission raises
    an [ApiError] is followed by a pause of five seconds, where the pause
    between two chunks is of two, and the chunks after it are submitted
    after it. *)
Theorem partial_failure_isolation (fuel : nat) (paths : list pystr)
    (batch_size : Z) (w : W) (outcomes : list chunk_outcome) (w' : W) :
  (0 < batch_size)%Z →
  serves fuel w (chunks (Z.to_nat batch_size) paths) outcomes w' →
  ∃ st,
    batch_delete_fast fuel paths batch_size w = Done st ∧
    world st = w' ∧
    submitted (events st) = chunks (Z.to_nat batch_size) paths ∧
    deleted st = total_deleted outcomes ∧
    failed st = total_failed (chunks (Z.to_nat batch_size) paths) outcomes ∧
    schedule (events st) = paced (chunks (Z.to_nat batch_size) paths) outcomes ∧
    ∀ i batch str_e,
      chunks (Z.to_nat batch_size) paths !! i = Some batch →
      outcomes !! i = Some (Rejected str_e) →
      ∃ before after,
        schedule (events st) = before ++ Submitted batch :: Slept 5 :: after ∧
        submitted before = take i (chunks (Z.to_nat batch_size) paths) ∧
        submitted after = drop (S i) (chunks (Z.to_nat batch_size) paths).
Proof.
  intros Hsize Hserves.
  destruct (batch_delete_fast_serves fuel paths batch_size w outcomes w')
    as (st & Hrun & Hworld & Hdeleted & Hfailed & Hschedule); [done..|].
  pose proof (serves_length _ _ _ _ _ Hserves) as Hlen.
  exists st. split_and!; [done|done| |done|done|done|].
  - by rewrite <- submitted_schedule, Hschedule, submitted_paced.
  - intros i batch str_e Hbatch Ho. rewrite Hschedule.
    by eapply paced_rejected.
Qed.

(** Only whole chunks are counted as failed.  On a remote that deals
    with every chunk of the plan, [batch_delete_fast] returns with, in
    [failed], the number of paths of the chunks whose submission or
    polling raises an [ApiError] or whose job fails, and nothing for a
    chunk that completes, whatever its entries: when every chunk
    completes and every entry is refused, the run reports no path deleted
    and none failed. *)
Theorem failed_counts_whole_batches (fuel : nat) (paths : list pystr)
    (batch_size : Z) (w : W) (outcomes : list chunk_outcome) (w' : W) :
  (0 < batch_size)%Z →
  serves fuel w (chunks (Z.to_nat batch_size) paths) outcomes w' →
  ∃ st,
    batch_delete_fast fuel paths batch_size w = Done st ∧
    failed st = total_failed (chunks (Z.to_nat batch_size) paths) outcomes ∧
    deleted st = total_deleted outcomes ∧
    (Forall all_refused outcomes → deleted st = 0%nat ∧ failed st = 0%nat).
Proof.
  intros Hsize Hserves.
  destruct (batch_delete_fast_serves fuel paths batch_size w outcomes w')
    as (st & Hrun & _ & Hdeleted & Hfailed & _); [done..|].
  exists st. split_and!; [done..|].
  intros Hall. rewrite Hdeleted, Hfailed. by apply total_refused.
Qed.

End Client.

(** A plan of three chunks of two paths, on the remote that follows the
    script: the first chunk completes at once, the submission of the
    second raises an [ApiError], the third completes as a job, after two
    polls that find it in progress. *)
Definition three_chunks : list pystr :=
  [py "/a"; py "/b"; py "/c"; py "/d"; py "/e"; py "/f"].

Definition three_outcomes : list chunk_outcome :=
  [ Answered [EntrySuccess; EntrySuccess];
    Rejected (py "too_many_write_operations");
    Answered [EntrySuccess; EntrySuccess] ].

Lemma scripted_serves :
  @serves _ scripted_batch_client 3 (0, 0, 0)%nat
    (chunks (Z.to_nat 2) three_chunks) three_outcomes (3, 3, 2)%nat.
Proof.
  change (chunks (Z.to_nat 2) three_chunks)
    with [[py "/a"; py "/b"]; [py "/c"; py "/d"]; [py "/e"; py "/f"]].
  apply (serves_cons _ _ _ _ (1, 0, 2)%nat);
    [by apply chunk_complete|simpl; lia|].
  apply (serves_cons _ _ _ _ (2, 0, 2)%nat);
    [by apply chunk_rejected|done|].
  apply (serves_cons _ _ _ _ (3, 3, 2)%nat); [|simpl; lia|constructor].
  apply (chunk_job 3 _ _ (py "job") (3, 0, 2)%nat 2
           (JobAnswers [EntrySuccess; EntrySuccess])); [done| |lia].
  apply (polled_in_progress _ _ _ (3, 1, 2)%nat); [done|].
  apply (polled_in_progress _ _ _ (3, 2, 2)%nat); [done|].
  by apply polled_complete.
Qed.

Lemma partial_failure_isolation_witness :
  ∃ st,
    @batch_delete_fast _ scripted_batch_client ascii_lower
      3 three_chunks 2 (0, 0, 0)%nat = Done st ∧
    world st = (3, 3, 2)%nat ∧
    submitted (events st) = chunks (Z.to_nat 2) three_chunks ∧
    deleted st = @total_deleted ascii_lower three_outcomes ∧
    failed st = total_failed (chunks (Z.to_nat 2) three_chunks) three_outcomes ∧
    schedule (events st) =
    paced (chunks (Z.to_nat 2) three_chunks) three_outcomes ∧
    ∀ i batch str_e,
      chunks (Z.to_nat 2) three_chunks !! i = Some batch →
      three_outcomes !! i = Some (Rejected str_e) →
      ∃ before after,
        schedule (events st) = before ++ Submitted batch :: Slept 5 :: after ∧
        submitted before = take i (chunks (Z.to_nat 2) three_chunks) ∧
        submitted after = drop (S i) (chunks (Z.to_nat 2) three_chunks).
Proof.
  apply (@partial_failure_isolation _ scripted_batch_client ascii_lower
           3 three_chunks 2 (0, 0, 0)%nat three_outcomes (3, 3, 2)%nat).
  - lia.
  - exact scripted_serves.
Defined.

(** The run of the three chunks: four paths deleted, the two of the
    second chunk failed, five seconds of pause after it and two after
    the first, and the third chunk submitted and polled to its end. *)
Example three_chunks_run :
  @batch_delete_fast _ scripted_batch_client ascii_lower
    3 three_chunks 2 (0, 0, 0)%nat =
  Done (State 4 2
          [ Submitted [py "/a"; py "/b"]; Slept 2;
            Submitted [py "/c"; py "/d"]; Slept 5;
            Submitted [py "/e"; py "/f"];
            Slept 1; Polled (py "job"); Slept 1; Polled (py "job");
            Slept 1; Polled (py "job") ]
          (3, 3, 2)%nat) ∧
  @total_deleted ascii_lower three_outcomes = 4%nat ∧
  total_failed (chunks (Z.to_nat 2) three_chunks) three_outcomes = 2%nat.
Proof. split_and!; vm_compute; reflexivity. Qed.

(** Three paths in chunks of two, on the remote that completes every
    chunk and refuses every entry. *)
Definition refused_outcomes : list chunk_outcome :=
  [ Answered [EntryFailure (py "too_many_write_operations");
              EntryFailure (py "too_many_write_operations")];
    Answered [EntryFailure (py "too_many_write_operations")] ].

Lemma rejecting_serves :
  @serves _ rejecting_batch_client 1 ()
    (chunks (Z.to_nat 2) [py "/a"; py "/b"; py "/c"]) refused_outcomes ().
Proof.
  change (chunks (Z.to_nat 2) [py "/a"; py "/b"; py "/c"])
    with [[py "/a"; py "/b"]; [py "/c"]].
  apply (serves_cons _ _ _ _ ()); [by apply chunk_complete|simpl; lia|].
  apply (serves_cons _ _ _ _ ()); [by apply chunk_complete|simpl; lia|].
  constructor.
Qed.

Lemma failed_counts_whole_batches_witness :
  Forall (@all_refused ascii_lower) refused_outcomes ∧
  ∃ st,
    @batch_delete_fast _ rejecting_batch_client ascii_lower
      1 [py "/a"; py "/b"; py "/c"] 2 () = Done st ∧
    failed st =
    total_failed (chunks (Z.to_nat 2) [py "/a"; py "/b"; py "/c"])
      refused_outcomes ∧
    deleted st = @total_deleted ascii_lower refused_outcomes ∧
    (Forall (@all_refused ascii_lower) refused_outcomes →
     deleted st = 0%nat ∧ failed st = 0%nat).
Proof.
  split.
  - repeat constructor; eexists; (split; [reflexivity|]);
      repeat constructor.
  - apply (@failed_counts_whole_batches _ rejecting_batch_client ascii_lower
             1 [py "/a"; py "/b"; py "/c"] 2 () refused_outcomes ()).
    + lia.
    + exact rejecting_serves.
Defined.

End IsolationFacts.

(** ** The deleters: the paths they read *)

Module ReadPathsFacts.
Import TextFile TextFileFacts CredentialFacts BatchDelete.

Definition spaces (w : pystr) : Prop := Forall (λ c, isspace c = true) w.

Lemma lstrip_spec (s : pystr) : ∃ w, s = w ++ lstrip s ∧ spaces w.
Proof.
  induction s as [|c s (w & Hs & Hw)]; simpl.
  - exists []. split; [done|constructor].
  - destruct (isspace c) eqn:Hc.
    + exists (c :: w). split; [by rewrite <- app_comm_cons, <- Hs|].
      by constructor.
    + exists []. split; [done|constructor].
Qed.

Lemma lstrip_first (s : pystr) (c : N) (r : pystr) :
  lstrip s = c :: r → isspace c = false.
Proof.
  induction s as [|d s IH]; simpl; [done|].
  destruct (isspace d) eqn:Hd; [done|]. by intros [= <- _].
Qed.

Lemma rstrip_spec (s : pystr) : ∃ w, s = rstrip s ++ w ∧ spaces w.
Proof.
  destruct (lstrip_spec (rev s)) as (w & Hs & Hw).
  exists (rev w). split.
  - unfold rstrip. rewrite <- rev_app_distr, <- Hs. by rewrite rev_involutive.
  - unfold spaces. by apply Forall_rev.
Qed.

Lemma rstrip_final (s r : pystr) (c : N) :
  rstrip s = r ++ [c] → isspace c = false.
Proof.
  unfold rstrip. intros H. apply (f_equal (@rev N)) in H.
  rewrite rev_involutive, rev_unit in H. by apply lstrip_first in H.
Qed.

Lemma rstrip_snoc_space (s : pystr) (c : N) :
  isspace c = true → rstrip (s ++ [c]) = rstrip s.
Proof. intros Hc. unfold rstrip. rewrite rev_unit. simpl. by rewrite Hc. Qed.

(** [strip] returns the empty text or a text that neither starts nor
    ends with white space. *)
Lemma strip_trimmed (s : pystr) :
  strip s = [] ∨
  ∃ first last_, head (strip s) = Some first ∧ last (strip s) = Some last_ ∧
                 isspace first = false ∧ isspace last_ = false.
Proof.
  unfold strip. set (u := lstrip s).
  destruct (rstrip u) as [|x t] eqn:Hr; [by left|]. right.
  destruct (rstrip_spec u) as (w & Hu & Hw). rewrite Hr in Hu.
  assert (isspace x = false) as Hx.
  { apply (lstrip_first s x (t ++ w)). fold u. by rewrite Hu. }
  destruct (exists_last (l := x :: t) ltac:(done)) as (r & c & Hrc).
  exists x, c. split_and!; [done| |done|].
  - rewrite Hrc. apply last_snoc.
  - apply (rstrip_final u r c). by rewrite Hr.
Qed.

Lemma strip_strip (s : pystr) : strip (strip s) = strip s.
Proof.
  destruct (strip_trimmed s) as [->|(first & last_ & ? & ? & ? & ?)];
    [done|].
  by apply strip_id with first last_.
Qed.

Lemma elem_of_strip (s : pystr) (c : N) : c ∈ strip s → c ∈ s.
Proof.
  unfold strip. intros Hc.
  destruct (lstrip_spec s) as (w & Hs & _).
  destruct (rstrip_spec (lstrip s)) as (w' & Hs' & _).
  rewrite Hs, Hs'. rewrite !elem_of_app. auto.
Qed.

Lemma strip_snoc_space (s : pystr) (c : N) :
  isspace c = true → strip (s ++ [c]) = strip s.
Proof.
  intros Hc. unfold strip. induction s as [|d s IH]; simpl.
  - by rewrite Hc.
  - destruct (isspace d); [done|].
    by rewrite app_comm_cons, rstrip_snoc_space.
Qed.

(** Reading leaves no carriage return. *)
Lemma universal_newlines_no_return (t : pystr) : 13 ∉ universal_newlines t.
Proof.
  remember (length t) as n eqn:Hn. revert t Hn.
  induction n as [n IH] using lt_wf_ind. intros t ->.
  destruct t as [|c t]; simpl; [by intros ?%elem_of_nil|].
  destruct (N.eqb_spec c 13) as [->|Hc].
  - destruct t as [|d t]; simpl.
    + intros Hin%list_elem_of_singleton. done.
    + destruct (N.eqb_spec d 10) as [->|Hd].
      * intros [?|Hin]%elem_of_cons; [done|].
        by apply (IH (length t) ltac:(simpl; lia) t).
      * intros [?|Hin]%elem_of_cons; [done|].
        by apply (IH (length (d :: t)) ltac:(simpl; lia) (d :: t)).
  - intros [?|Hin]%elem_of_cons; [done|].
    by apply (IH (length t) ltac:(simpl; lia) t).
Qed.

Lemma lines_from_elems (acc t line : pystr) (c : N) :
  line ∈ lines_from acc t → c ∈ line → c ∈ acc ++ t.
Proof.
  revert acc. induction t as [|d t IH]; intros acc; simpl.
  - rewrite app_nil_r. destruct acc; [by intros ?%elem_of_nil|].
    by intros ->%list_elem_of_singleton.
  - destruct (d =? 10).
    + intros [->|Hin]%elem_of_cons Hc.
      * rewrite elem_of_app in Hc. rewrite elem_of_app, elem_of_cons.
        destruct Hc as [?|Hc%list_elem_of_singleton]; auto.
      * apply (IH [] Hin) in Hc. rewrite elem_of_app, elem_of_cons. auto.
    + intros Hin Hc. apply (IH _ Hin) in Hc.
      by rewrite <- app_assoc in Hc.
Qed.

(** A line has its line feed at its end, if it has one. *)
Lemma lines_from_shape (acc t line : pystr) :
  10 ∉ acc → line ∈ lines_from acc t →
  (∃ body, line = body ++ [10] ∧ (10 ∉ body)) ∨ (10 ∉ line).
Proof.
  revert acc. induction t as [|d t IH]; intros acc Hacc; simpl.
  - destruct acc; [by intros ?%elem_of_nil|].
    intros ->%list_elem_of_singleton. by right.
  - destruct (N.eqb_spec d 10) as [->|Hd].
    + intros [->|Hin]%elem_of_cons; [left; eauto|].
      apply (IH []); [by intros ?%elem_of_nil|done].
    + apply IH. rewrite elem_of_app, list_elem_of_singleton. intros [?|?]; done.
Qed.

(** The paths read from the list file.  Every path the deleters read is
    a line of the file without its line end and without the white space
    around it: it is not empty, [strip] leaves it as it is, and it has no
    line feed and no carriage return in it.  Lines that are empty or
    blank give no path. *)
Theorem read_paths_clean (content : bytes) (paths : list pystr) :
  read_paths content = Some paths →
  Forall (λ p, p ≠ [] ∧ strip p = p ∧ (10 ∉ p) ∧ (13 ∉ p)) paths.
Proof.
  unfold read_paths, read_lines.
  destruct (utf8_decode content) as [text|]; [|done]. simpl.
  intros [= <-]. apply Forall_forall.
  intros p (line & -> & [Hne Hline]%list_elem_of_filter)%list_elem_of_fmap.
  split_and!.
  - done.
  - apply strip_strip.
  - destruct (lines_from_shape [] (universal_newlines text) line) as [(body & -> & Hbody)|Hno];
      [by intros ?%elem_of_nil|done| |].
    + rewrite strip_snoc_space by done. by intros ?%elem_of_strip.
    + by intros ?%elem_of_strip.
  - intros Hin%elem_of_strip.
    apply (lines_from_elems [] (universal_newlines text) line 13 Hline) in Hin.
    by apply universal_newlines_no_return in Hin.
Qed.

(** A list file with spaces around a path, Windows line ends, an empty
    line and a blank one. *)
Definition untidy_list : bytes :=
  py "  /a/b.txt  " ++ [13; 10; 13; 10] ++ py "/c d.txt" ++ [10] ++
  py "   " ++ [10].

Lemma read_paths_clean_witness :
  read_paths untidy_list = Some [py "/a/b.txt"; py "/c d.txt"] ∧
  Forall (λ p, p ≠ [] ∧ strip p = p ∧ (10 ∉ p) ∧ (13 ∉ p))
         [py "/a/b.txt"; py "/c d.txt"].
Proof.
  split; [vm_compute; reflexivity|].
  apply (read_paths_clean untidy_list). vm_compute. reflexivity.
Defined.

End ReadPathsFacts.

(** ** catalog-dropbox.py: a run that fails and the run that resumes it *)

Module MainFacts.
Import Catalog Credentials CatalogMain CrawlFacts Remotes.

Section Main.
Context {W : Type} `{!ListClient W} `{!AccountClient W} `{!Json} `{!StrLower}.

(** Two runs of [main].  The first finds a token and no checkpoint, and
    its crawl is ended by a fetch error after some pages, the last of
    which has a cursor: [main] returns 1 and leaves a checkpoint.  The
    second finds the checkpoint, is answered yes (an empty answer, [y] or
    [yes], in any case and with spaces around), and its crawl goes
    through the remaining pages: [main] goes on to the analysis with the
    files and the folders of all the pages, those of the first run
    first, and the checkpoint file is gone. *)
Theorem failed_run_then_resumed_run (fuel : nat) (m : machine W)
    (token answer : pystr) (rest : list pystr) (w0 w1 w2 w3 : W)
    (pages pages' : list ListFolderResult) (result : ListFolderResult)
    (e : raised) :
  load_token (environ_token m) (token_file m) = Read (Some token) →
  token ≠ [] →
  load_checkpoint (checkpoint_file m) = None →
  stdin m = answer :: rest →
  accepts (lower (strip answer)) = true →
  users_get_current_account token (remote m) = (Connected, w0) →
  crawls (py "") None w0 pages (Some e) w1 →
  e ≠ KeyboardInterrupt →
  last pages = Some result →
  cursor result ≠ [] →
  users_get_current_account token w1 = (Connected, w2) →
  let all_files := files_in ((pages ++ pages') ≫= entries) in
  let all_folders := folders_in ((pages ++ pages') ≫= entries) in
  let checkpoint :=
    checkpoint_of (cursor result) (now_isoformat w1)
      (files_in (pages ≫= entries)) (folders_in (pages ≫= entries)) in
  crawls (py "") (Some checkpoint) w2 pages' None w3 →
  (length pages ≤ fuel)%nat →
  (length pages' ≤ fuel)%nat →
  scan_failed all_files all_folders = false →
  ∃ m1,
    main fuel m = (MainReturns 1, m1) ∧
    load_checkpoint (checkpoint_file m1) = Some checkpoint ∧
    main fuel m1 =
    (MainAnalyzes all_files all_folders,
     Machine (environ_token m) (token_file m) None rest w3).
Proof.
  intros Htoken Hne Hnone Hstdin Hyes Hconnect Hcrawl He Hlast Hcursor
    Hconnect' all_files all_folders checkpoint Hcrawl' Hfuel Hfuel' Hfound.
  destruct m as [env tokens f input w]. simpl in *.
  destruct token as [|c token]; [done|].
  exists (Machine env tokens (Some (json_dump checkpoint)) input w1).
  assert (get_folder_stats fuel (py "") None f w0 =
          (Returned [] [], Some (json_dump checkpoint), w1)) as Hfirst.
  { rewrite (get_folder_stats_raised fuel (py "") None f w0 pages e w1);
      try done.
    - by rewrite Hlast.
    - intros result' Hl. rewrite Hlast in Hl. by injection Hl as <-. }
  assert (get_folder_stats fuel (py "") (Some checkpoint)
            (Some (json_dump checkpoint)) w2 =
          (Returned all_files all_folders, None, w3)) as Hsecond.
  { rewrite (get_folder_stats_complete fuel (py "") (Some checkpoint)
               (Some (json_dump checkpoint)) w2 pages' w3) by done.
    unfold all_files, all_folders. simpl.
    by rewrite bind_app, files_in_app, folders_in_app. }
  split_and!.
  - unfold main, obtain_token. cbn. rewrite Htoken.
    unfold choose_resume. cbn. rewrite Hnone.
    unfold connect. cbn. rewrite Hconnect.
    unfold scan_all. cbn [checkpoint_file remote]. by rewrite Hfirst.
  - simpl. apply json_load_dump.
  - unfold main, obtain_token. cbn. rewrite Htoken.
    unfold choose_resume. cbn. rewrite json_load_dump, Hstdin, Hyes.
    unfold connect. cbn. rewrite Hconnect'.
    unfold scan_all. cbn [checkpoint_file remote]. rewrite Hsecond.
    unfold main_after_scan. by rewrite Hfound.
Qed.

End Main.

(** A remote that accepts every token. *)
Definition open_account (W : Type) : AccountClient W :=
  λ token w, (Connected, w).

(** The store of three pages whose third fetch times out, once: the
    first run stops after two pages, the second, answered [ Y ], lists
    the third. *)
Lemma failed_run_then_resumed_run_witness :
  let three_pages :=
    [ [numbered_file 0; FolderMetadata (py "/f") (py "f"); numbered_file 1];
      [numbered_file 2];
      [numbered_file 3] ] in
  let m :=
    Machine (Some (py "sl.token")) None None [py " Y "]
      (Some (2%nat, OtherException (py "ReadTimeout"))) in
  ∃ m1,
    @main _ (paged_client three_pages) (open_account _) compact_json
      ascii_lower 5 m = (MainReturns 1, m1) ∧
    @main _ (paged_client three_pages) (open_account _) compact_json
      ascii_lower 5 m1 =
    (MainAnalyzes (@files_in ascii_lower (concat three_pages))
       [{| folder_path := py "/f"; folder_name := py "f" |}],
     Machine (Some (py "sl.token")) None None [] None).
Proof.
  intros three_pages m.
  destruct (@failed_run_then_resumed_run _ (paged_client three_pages)
              (open_account _) compact_json ascii_lower 5 m
              (py "sl.token") (py " Y ") [] (Some (2%nat, OtherException (py "ReadTimeout")))
              None None None
              [page three_pages 0; page three_pages 1] [page three_pages 2]
              (page three_pages 1) (OtherException (py "ReadTimeout")))
    as (m1 & Hfirst & _ & Hsecond); try done.
  - eapply crawls_pages; [reflexivity|].
    eapply follows_next; [reflexivity|reflexivity|].
    eapply follows_raise; reflexivity.
  - eapply crawls_pages; [reflexivity|].
    eapply follows_last; reflexivity.
  - simpl. lia.
  - simpl. lia.
  - exists m1. split; [exact Hfirst|exact Hsecond].
Defined.

End MainFacts.
